(** * Signed Louvain modularity optimiser: a shallow embedding

    The development follows [modularity_louvain_und_sign] of the notebook
    [Modularity-checkpoint.ipynb].  Arrays are lists, matrices are lists of
    rows, labels are natural numbers.

    The function reads and writes one piece of ambient state, numpy's
    global random generator, and may raise.  Both are explicit here: a
    computation is a function from a [world] to a new world and either a
    value or a raised exception.

    The program is embedded twice, line for line.  The first embedding
    computes with exact rationals; it carries the statements that are about
    control flow, labels, errors and the generator, or that spell out a
    formula, none of which hangs on how a number is rounded.  The second
    one, module [F64], computes with binary64 floats, has [inf] and [nan],
    and checks the seed the way numpy does; it carries the statements that
    do hang on the numbers: the scaling constants, the move rule, the
    accumulators and the zero-modularity case. *)

From Stdlib Require Import String.
From Stdlib Require Import List Arith Bool ZArith QArith Lia Lqa Sorted.
From Stdlib Require PrimFloat FloatOps SpecFloat.
Import ListNotations.

Local Open Scope Q_scope.

(** ** Python exceptions and the notebook's name space *)

Inductive PyErr : Type :=
| KeyError (msg : string)
| NameError (name : string)
| ValueError (msg : string)
| Raised (cls : string) (msg : string).

Inductive result (A : Type) : Type :=
| Ok (a : A)
| Raise (e : PyErr).
Arguments Ok {A} a.
Arguments Raise {A} e.

(** The global names the notebook binds over all its cells: the imports,
    the function itself and the variables of the analysis cells. *)
Definition notebook_names : list string :=
  ["scipy"; "io"; "np"; "modularity_louvain_und_sign"; "controls"; "depressed";
   "controls_mod"; "depressed_mod"; "stats"; "test_statistic"; "p_value"]%string.

(** [raise cls(msg)] first looks the class up; an unbound name raises
    [NameError] before the exception object is ever built. *)
Definition raise_class (cls msg : string) : PyErr :=
  if existsb (String.eqb cls) notebook_names
  then Raised cls msg
  else NameError cls.

(** ** The ambient world *)

(** The generator state is kept symbolically: how it was last seeded and
    the sizes of the permutations drawn since. *)
Inductive rng_state : Type :=
| SeededInt (seed : Z) (drawn : list nat)
| SeededEntropy (bytes : Z) (drawn : list nat).

Definition rng_advance (r : rng_state) (n : nat) : rng_state :=
  match r with
  | SeededInt s d => SeededInt s (d ++ [n])
  | SeededEntropy e d => SeededEntropy e (d ++ [n])
  end.

(** Array-level work, logged in program order. *)
Inductive array_op : Type :=
| OpPositivePart
| OpNegativePart
| OpTotal
| OpLevel (h : nat).

Record world : Type := mkWorld {
  np_rng : rng_state;   (* numpy's global generator *)
  os_entropy : Z;       (* what /dev/urandom would deliver next *)
  work : list array_op  (* array computations performed so far *)
}.

Definition M (A : Type) : Type := world -> world * result A.

Definition ret {A} (a : A) : M A := fun w => (w, Ok a).
Definition throw {A} (e : PyErr) : M A := fun w => (w, Raise e).
Definition bind {A B} (c : M A) (k : A -> M B) : M B :=
  fun w => match c w with
           | (w', Ok a) => k a w'
           | (w', Raise e) => (w', Raise e)
           end.
Definition lift {A} (r : result A) : M A := fun w => (w, r).

Notation "x <- c ;; k" := (bind c (fun x => k))
  (at level 100, c at next level, right associativity).
Notation "c ;;; k" := (bind c (fun _ => k))
  (at level 100, right associativity).

Definition log (o : array_op) : M unit :=
  fun w => (mkWorld (np_rng w) (os_entropy w) (work w ++ [o]), Ok tt).

(** [np.random.seed(seed)], for a seed numpy accepts: [None] or an
    integer in [0 .. 2**32 - 1].  That any other integer is refused is part
    of [F64.np_random_seed]. *)
Definition np_random_seed (seed : option Z) : M unit :=
  fun w => match seed with
           | Some s => (mkWorld (SeededInt s []) (os_entropy w) (work w), Ok tt)
           | None => (mkWorld (SeededEntropy (os_entropy w) []) (os_entropy w + 1)%Z (work w), Ok tt)
           end.

(** The shuffling algorithm: which order a given generator state yields for
    [np.random.permutation(n)]. *)
Definition shuffler : Type := rng_state -> nat -> list nat.

Definition np_random_permutation (G : shuffler) (n : nat) : M (list nat) :=
  fun w => (mkWorld (rng_advance (np_rng w) n) (os_entropy w) (work w),
            Ok (G (np_rng w) n)).

(** ** Arrays *)

Definition vec : Type := list Q.
Definition matrix : Type := list (list Q).

Definition vget (v : vec) (i : nat) : Q := nth i v 0.
Definition mrow (A : matrix) (i : nat) : vec := nth i A [].
Definition mget (A : matrix) (i j : nat) : Q := vget (mrow A i) j.

Definition np_sum (v : vec) : Q := fold_right Qplus 0 v.
Definition np_sum2 (A : matrix) : Q := np_sum (map np_sum A).

(** [a > b] on numbers *)
Definition Qgtb (a b : Q) : bool := negb (Qle_bool a b).

(** [x * (x > 0)] and [-x * (x < 0)]: the mask is 1 or 0, so the product is
    the entry itself or zero. *)
Definition positive_part (x : Q) : Q := if Qgtb x 0 then x else 0.
Definition negative_part (x : Q) : Q := if Qgtb 0 x then - x else 0.

Definition mmap (f : Q -> Q) (A : matrix) : matrix := map (map f) A.

(** [l[i] = x]; out of range the model leaves the list alone (the code
    never indexes out of range). *)
Fixpoint upd {A} (l : list A) (i : nat) (x : A) : list A :=
  match l, i with
  | [], _ => []
  | _ :: t, O => x :: t
  | y :: t, S j => y :: upd t j x
  end.

(** [v[i] += x] *)
Definition vadd (v : vec) (i : nat) (x : Q) : vec := upd v i (vget v i + x).
(** [v[i] -= x] *)
Definition vsub (v : vec) (i : nat) (x : Q) : vec := upd v i (vget v i - x).

Fixpoint imap_from {A B} (k : nat) (f : nat -> A -> B) (l : list A) : list B :=
  match l with
  | [] => []
  | x :: t => f k x :: imap_from (S k) f t
  end.
Definition imap {A B} (f : nat -> A -> B) (l : list A) : list B := imap_from 0 f l.

(** [A[:, u]] *)
Definition mcol (A : matrix) (u : nat) : vec := map (fun r => vget r u) A.
(** [K[:, c] += v] and [K[:, c] -= v] *)
Definition add_col (K : matrix) (c : nat) (v : vec) : matrix :=
  imap (fun i r => vadd r c (vget v i)) K.
Definition sub_col (K : matrix) (c : nat) (v : vec) : matrix :=
  imap (fun i r => vsub r c (vget v i)) K.

(** [np.sum(A, axis=0)]: one sum per column of an array with [n] columns *)
Definition sum_axis0 (n : nat) (A : matrix) : vec :=
  map (fun j => np_sum (mcol A j)) (seq 0 n).

(** [np.max] and [np.argmax] of a float vector; [argmax] keeps the first
    index at which the maximum is attained.  The code applies them to [dQ],
    which has [nh >= 1] entries whenever a node is visited; the value given
    here for the empty vector is never used. *)
Fixpoint max_from (best : Q) (l : vec) : Q :=
  match l with
  | [] => best
  | x :: t => max_from (if Qgtb x best then x else best) t
  end.
Definition np_max (l : vec) : Q :=
  match l with [] => 0 | x :: t => max_from x t end.

Fixpoint argmax_from (bi : nat) (best : Q) (i : nat) (l : vec) : nat :=
  match l with
  | [] => bi
  | x :: t => if Qgtb x best then argmax_from i x (S i) t
              else argmax_from bi best (S i) t
  end.
Definition np_argmax (l : vec) : nat :=
  match l with [] => O | x :: t => argmax_from 0 x 1 t end.

(** ** Configuration: the totals and the two scaling constants *)

Definition tol : Q := 1 # 10000000000.

Record config : Type := mkConfig {
  cfg_s0 : Q; cfg_d0 : Q; cfg_s1 : Q; cfg_d1 : Q
}.

(** The [if qtype == ... elif ... else raise] chain.  A quotient by a zero
    total is [inf] in numpy and 0 here; it is a value, not an exception, and
    [adjust] below overwrites it in every case. *)
Definition scaling (qtype : string) (s0 s1 : Q) : result (Q * Q) :=
  if String.eqb qtype "smp" then Ok (1 / s0, 1 / s1)
  else if String.eqb qtype "gja" then Ok (1 / (s0 + s1), 1 / (s0 + s1))
  else if String.eqb qtype "sta" then Ok (1 / s0, 1 / (s0 + s1))
  else if String.eqb qtype "pos" then Ok (1 / s0, 0)
  else if String.eqb qtype "neg" then Ok (0, 1 / s1)
  else Raise (KeyError "modularity type unknown").

(** The two [if not s: s = 1; d = 0] adjustments. *)
Definition adjust (s0 d0 s1 d1 : Q) : config :=
  let '(s0, d0) := if Qeq_bool s0 0 then (1, 0) else (s0, d0) in
  let '(s1, d1) := if Qeq_bool s1 0 then (1, 0) else (s1, d1) in
  mkConfig s0 d0 s1 d1.

(** Everything up to [h = 1]: seeding, the split of [W], the totals and
    the constants. *)
Definition configure (W : matrix) (qtype : string) (seed : option Z)
  : M (matrix * matrix * config) :=
  np_random_seed seed ;;;
  log OpPositivePart ;;;
  let W0 := mmap positive_part W in
  log OpNegativePart ;;;
  let W1 := mmap negative_part W in
  log OpTotal ;;;
  let s0 := np_sum2 W0 in
  log OpTotal ;;;
  let s1 := np_sum2 W1 in
  d <- lift (scaling qtype s0 s1) ;;
  ret (W0, W1, adjust s0 (fst d) s1 (snd d)).

(** ** The local-moving phase of one hierarchy level *)

Record lm_state : Type := mkLM {
  lm_m : list nat;     (* m: module of each node, labels from 1 *)
  lm_km0 : vec;        (* positive module degree *)
  lm_km1 : vec;        (* negative module degree *)
  lm_knm0 : matrix;    (* positive node-to-module degree *)
  lm_knm1 : matrix     (* negative node-to-module degree *)
}.

Section LocalMoving.

Variable G : shuffler.
Variable gamma : Q.
Variable c : config.
Variables W0 W1 : matrix.
Variable nh : nat.

Definition kn0 : vec := sum_axis0 nh W0.
Definition kn1 : vec := sum_axis0 nh W1.

(** [km = kn.copy()], [knm = W.copy()], [m = np.arange(nh) + 1] *)
Definition lm_init : lm_state := mkLM (seq 1 nh) kn0 kn1 W0 W1.

(** One sign's vector of changes, over all modules [mb]:
    [(knm[u, :] + W[u, u] - knm[u, ma]) - gamma * kn[u] * (km + kn[u] - km[ma]) / s] *)
Definition delta_part (W knm : matrix) (kn km : vec) (s : Q) (u ma : nat) : vec :=
  map (fun mb =>
         (mget knm u mb + mget W u u - mget knm u ma)
         - gamma * vget kn u * (vget km mb + vget kn u - vget km ma) / s)
      (seq 0 nh).

Definition module_of (st : lm_state) (u : nat) : nat := (nth u (lm_m st) O - 1)%nat.

Definition dQ0 (st : lm_state) (u : nat) : vec :=
  delta_part W0 (lm_knm0 st) kn0 (lm_km0 st) (cfg_s0 c) u (module_of st u).
Definition dQ1 (st : lm_state) (u : nat) : vec :=
  delta_part W1 (lm_knm1 st) kn1 (lm_km1 st) (cfg_s1 c) u (module_of st u).

(** [dQ = d0 * dQ0 - d1 * dQ1; dQ[ma] = 0] *)
Definition rescaled (st : lm_state) (u : nat) : vec :=
  map (fun p => cfg_d0 c * fst p - cfg_d1 c * snd p) (combine (dQ0 st u) (dQ1 st u)).
Definition dQ (st : lm_state) (u : nat) : vec :=
  upd (rescaled st u) (module_of st u) 0.

(** The body of [if max_dQ > 1e-10]. *)
Definition move (st : lm_state) (u mb : nat) : lm_state :=
  let ma := module_of st u in
  mkLM (upd (lm_m st) u (mb + 1)%nat)
       (vsub (vadd (lm_km0 st) mb (vget kn0 u)) ma (vget kn0 u))
       (vsub (vadd (lm_km1 st) mb (vget kn1 u)) ma (vget kn1 u))
       (sub_col (add_col (lm_knm0 st) mb (mcol W0 u)) ma (mcol W0 u))
       (sub_col (add_col (lm_knm1 st) mb (mcol W1 u)) ma (mcol W1 u)).

(** The body of the [for u in ...] loop; the boolean tells whether [flag]
    was set. *)
Definition node_step (st : lm_state) (u : nat) : lm_state * bool :=
  let max_dQ := np_max (dQ st u) in
  if Qgtb max_dQ tol then (move st u (np_argmax (dQ st u)), true)
  else (st, false).

(** One pass over the nodes in the given order, [flag] starting at False. *)
Definition sweep (order : list nat) (st : lm_state) : lm_state * bool :=
  fold_left (fun acc u => let r := node_step (fst acc) u in
                          (fst r, orb (snd acc) (snd r)))
            order (st, false).

Definition inner_loop_message : string :=
  "Infinite Loop was detected and stopped. This was probably caused by passing in a directed matrix.".

(** [while flag]: [budget] is [1000 - it] on entry, so pass number 1001
    is the one that raises. *)
Fixpoint pass_loop (budget : nat) (st : lm_state) : M lm_state :=
  match budget with
  | O => throw (raise_class "BCTParamError" inner_loop_message)
  | S b =>
      order <- np_random_permutation G nh ;;
      let r := sweep order st in
      if snd r then pass_loop b (fst r) else ret (fst r)
  end.

Definition local_moving : M lm_state := pass_loop 1000 lm_init.

End LocalMoving.

(** ** Renumbering, projection and aggregation *)

Fixpoint insert_sorted (x : nat) (l : list nat) : list nat :=
  match l with
  | [] => [x]
  | y :: t => if x <? y then x :: l
              else if x =? y then l
              else y :: insert_sorted x t
  end%nat.

(** [np.unique(l)]: the sorted distinct values *)
Definition np_unique (l : list nat) : list nat := fold_right insert_sorted [] l.

Fixpoint index_of (x : nat) (l : list nat) : nat :=
  match l with
  | [] => O
  | y :: t => if (x =? y)%nat then O else S (index_of x t)
  end.

(** [np.unique(l, return_inverse=True)[1]] *)
Definition unique_inverse (l : list nat) : list nat :=
  map (fun x => index_of x (np_unique l)) l.

(** [_, m = np.unique(m, return_inverse=True); m += 1] *)
Definition renumber (l : list nat) : list nat := map S (unique_inverse l).

(** [cur[np.where(prev == label)] = x] *)
Definition assign_where (prev cur : list nat) (label x : nat) : list nat :=
  map (fun p => if (fst p =? label)%nat then x else snd p) (combine prev cur).

(** [for u in range(nh): ci[h][np.where(ci[h - 1] == u + 1)] = m[u]] *)
Definition project (nh : nat) (prev cur m : list nat) : list nat :=
  fold_left (fun cur u => assign_where prev cur (u + 1)%nat (nth u m O)) (seq 0 nh) cur.

(** [np.max] of an integer array; empty arrays have no maximum. *)
Definition np_max_nat (l : list nat) : result nat :=
  match l with
  | [] => Raise (ValueError "zero-size array to reduction operation maximum which has no identity")
  | x :: t => Ok (fold_left Nat.max t x)
  end.

Fixpoint select {A} (mask : list bool) (l : list A) : list A :=
  match mask, l with
  | b :: mt, x :: t => if b then x :: select mt t else select mt t
  | _, _ => []
  end.

(** [np.sum(A[np.ix_(m == u + 1, m == v + 1)])] *)
Definition block_sum (A : matrix) (m : list nat) (u v : nat) : Q :=
  let rows := map (Nat.eqb (u + 1)%nat) m in
  let cols := map (Nat.eqb (v + 1)%nat) m in
  np_sum2 (map (select cols) (select rows A)).

Definition mset (A : matrix) (i j : nat) (x : Q) : matrix :=
  upd A i (upd (mrow A i) j x).

Definition zeros2 (k : nat) : matrix := repeat (repeat 0 k) k.

(** The double loop filling [wn0] (or [wn1]) from the upper triangle. *)
Definition aggregate (A : matrix) (m : list nat) (nh : nat) : matrix :=
  fold_left
    (fun wn u =>
       fold_left
         (fun wn v =>
            let wn := mset wn u v (block_sum A m u v) in
            mset wn v u (mget wn u v))
         (seq u (nh - u)%nat) wn)
    (seq 0 nh) (zeros2 nh).

Definition np_trace (A : matrix) : Q := np_sum (imap (fun i r => vget r i) A).

(** [np.dot(A, B)] for square arrays of side [k] *)
Definition np_dot (k : nat) (A B : matrix) : matrix :=
  map (fun r => map (fun j => np_sum (map (fun p => fst p * vget (snd p) j) (combine r B)))
                    (seq 0 k)) A.

(** [np.trace(W) - np.sum(np.dot(W, W)) / s] *)
Definition level_q (k : nat) (A : matrix) (s : Q) : Q :=
  np_trace A - np_sum2 (np_dot k A A) / s.

(** ** The hierarchy loop *)

Record hier : Type := mkHier {
  hr_h : nat;                 (* h *)
  hr_nh : nat;                (* nh *)
  hr_W0 : matrix;
  hr_W1 : matrix;
  hr_ci : list (list nat);    (* ci, with [] standing for the None at index 0 *)
  hr_q : list Q               (* q *)
}.

Definition outer_loop_message : string :=
  "Modularity Infinite Loop Style A.  Please contact the developer with this error.".

Section Hierarchy.

Variable G : shuffler.
Variable gamma : Q.
Variable c : config.
Variable n : nat.

(** The body of [while q[h] - q[h - 1] > 1e-10] after the level check. *)
Definition level (st : hier) : M hier :=
  log (OpLevel (hr_h st)) ;;;
  lm <- local_moving G gamma c (hr_W0 st) (hr_W1 st) (hr_nh st) ;;
  let h := (hr_h st + 1)%nat in
  let ci := hr_ci st ++ [repeat O n] in
  let m := renumber (lm_m lm) in
  let ci := upd ci h (project (hr_nh st) (nth (h - 1)%nat ci []) (nth h ci []) m) in
  nh <- lift (np_max_nat m) ;;
  let wn0 := aggregate (hr_W0 st) m nh in
  let wn1 := aggregate (hr_W1 st) m nh in
  let q := hr_q st ++ [0] in
  let q0 := level_q nh wn0 (cfg_s0 c) in
  let q1 := level_q nh wn1 (cfg_s1 c) in
  ret (mkHier h nh wn0 wn1 ci (upd q h (cfg_d0 c * q0 - cfg_d1 c * q1))).

(** The loop condition [q[h] - q[h - 1] > 1e-10]. *)
Definition improving (st : hier) : bool :=
  Qgtb (nth (hr_h st) (hr_q st) 0 - nth (hr_h st - 1)%nat (hr_q st) 0) tol.

(** [budget] is [301 - h] on entry: the test [h > 300] fires when it
    reaches zero. *)
Fixpoint levels (budget : nat) (st : hier) : M hier :=
  if improving st then
    match budget with
    | O => throw (raise_class "BCTParamError" outer_loop_message)
    | S b => st' <- level st ;; levels b st'
    end
  else ret st.

End Hierarchy.

(** Everything but the final renumbering: the hierarchy as it stands when
    the loop is left. *)
Definition hierarchy (G : shuffler) (W : matrix) (gamma : Q) (qtype : string)
    (seed : option Z) : M hier :=
  p <- configure W qtype seed ;;
  let '(W0, W1, c) := p in
  let n := length W in
  levels G gamma c n 300 (mkHier 1 n W0 W1 [[]; seq 1 n] [-(1); 0]).

Definition modularity_louvain_und_sign (G : shuffler) (W : matrix) (gamma : Q)
    (qtype : string) (seed : option Z) : M (list nat * Q) :=
  st <- hierarchy G W gamma qtype seed ;;
  ret (renumber (last (hr_ci st) []), last (hr_q st) 0).

(** A shuffler that always answers with the sorted order, for running the
    model on concrete inputs. *)
Definition sorted_order : shuffler := fun _ n => seq 0 n.
Definition reversed_order : shuffler := fun _ n => rev (seq 0 n).

Definition world0 : world := mkWorld (SeededInt 7 [3%nat]) 42%Z [].

Definition two_cliques : matrix :=
  [[0;1;1;0;0;0];[1;0;1;0;0;0];[1;1;0;0;0;0];
   [0;0;0;0;1;1];[0;0;0;1;0;1];[0;0;0;1;1;0]].

(** ** Derived notions used in the statements *)

Definition configured (W : matrix) (qtype : string) (seed : option Z) (w : world)
  : result config :=
  match snd (configure W qtype seed w) with
  | Ok p => Ok (snd p)
  | Raise e => Raise e
  end.

Definition total_positive (W : matrix) : Q := np_sum2 (mmap positive_part W).
Definition total_negative (W : matrix) : Q := np_sum2 (mmap negative_part W).

Definition recognised (qtype : string) : bool :=
  existsb (String.eqb qtype) ["smp"; "gja"; "sta"; "pos"; "neg"]%string.

Definition seeded_world (seed : option Z) (w : world) : world :=
  fst (np_random_seed seed w).

Definition after_totals (seed : option Z) (w : world) : world :=
  let w1 := seeded_world seed w in
  mkWorld (np_rng w1) (os_entropy w1)
          (work w ++ [OpPositivePart; OpNegativePart; OpTotal; OpTotal]).

(** The reading of the claim under which nothing at all has happened when
    the error surfaces: the world is the one the call started in. *)
Definition fails_before_any_work (G : shuffler) (W : matrix) (gamma : Q)
    (qtype : string) (seed : option Z) (w : world) : Prop :=
  modularity_louvain_und_sign G W gamma qtype seed w
  = (w, Raise (KeyError "modularity type unknown")).

(** A computation is generator-determined when its outcome and the
    generator state it leaves depend on the incoming world through the
    generator state alone. *)
Definition rng_determined {A} (c : M A) : Prop :=
  forall w1 w2, np_rng w1 = np_rng w2 ->
    snd (c w1) = snd (c w2) /\ np_rng (fst (c w1)) = np_rng (fst (c w2)).

(** The run after the configuration step. *)
Definition optimise (G : shuffler) (gamma : Q) (n : nat) (W0 W1 : matrix)
    (c : config) : M (list nat * Q) :=
  st <- levels G gamma c n 300 (mkHier 1 n W0 W1 [[]; seq 1 n] [-(1); 0]) ;;
  ret (renumber (last (hr_ci st) []), last (hr_q st) 0).

(** The delta as the specification words it, with the self-loop and the
    own-degree terms multiplied by the bracket [mb == ma]. *)
Definition bracket (b : bool) : Q := if b then 1 else 0.

Definition spec_delta_part (gamma : Q) (W knm : matrix) (kn km : vec) (s : Q)
    (u ma mb : nat) : Q :=
  mget knm u mb + mget W u u * bracket (mb =? ma)%nat - mget knm u ma
  - gamma * vget kn u * (vget km mb + vget kn u * bracket (mb =? ma)%nat - vget km ma) / s.

Definition spec_delta_Q (gamma : Q) (c : config) (W0 W1 : matrix) (nh : nat)
    (st : lm_state) (u mb : nat) : Q :=
  let ma := module_of st u in
  if (mb =? ma)%nat then 0
  else cfg_d0 c * spec_delta_part gamma W0 (lm_knm0 st) (kn0 W0 nh) (lm_km0 st) (cfg_s0 c) u ma mb
       - cfg_d1 c * spec_delta_part gamma W1 (lm_knm1 st) (kn1 W1 nh) (lm_km1 st) (cfg_s1 c) u ma mb.

Definition loop_and_edge : matrix := [[1; 2]; [2; 0]].
Definition loop_and_edge_W0 : matrix := mmap positive_part loop_and_edge.
Definition loop_and_edge_W1 : matrix := mmap negative_part loop_and_edge.
Definition loop_and_edge_cfg : config := mkConfig 5 (1 / 5) 1 0.
Definition loop_and_edge_init : lm_state := lm_init loop_and_edge_W0 loop_and_edge_W1 2.

(** ** Shapes and reachable states *)

Definition squareb (k : nat) (A : matrix) : bool :=
  (length A =? k)%nat && forallb (fun r => (length r =? k)%nat) A.

(** The arrays of the local-moving phase have side [nh] and every label
    lies in [1..nh]. *)
Definition shape_okb (nh : nat) (st : lm_state) : bool :=
  (length (lm_m st) =? nh)%nat
  && forallb (fun x => (1 <=? x)%nat && (x <=? nh)%nat) (lm_m st)
  && (length (lm_km0 st) =? nh)%nat
  && (length (lm_km1 st) =? nh)%nat
  && squareb nh (lm_knm0 st)
  && squareb nh (lm_knm1 st).

(** The states the local-moving loop can be in between two node visits,
    whatever the visiting order. *)
Inductive reachable (gamma : Q) (c : config) (W0 W1 : matrix) (nh : nat)
  : lm_state -> Prop :=
| reach_init : reachable gamma c W0 W1 nh (lm_init W0 W1 nh)
| reach_step (st : lm_state) (u : nat) :
    reachable gamma c W0 W1 nh st -> (u < nh)%nat ->
    reachable gamma c W0 W1 nh (fst (node_step gamma c W0 W1 nh st u)).

(** The shuffler only ever returns indices below the size asked for. *)
Definition in_range (G : shuffler) : Prop :=
  forall r n, Forall (fun u => (u < n)%nat) (G r n).

(** ** The modularity trace *)


(** What the loop maintains about [h] and [q]. *)
Definition trace_inv (st : hier) : Prop :=
  length (hr_q st) = S (hr_h st) /\ (1 <= hr_h st)%nat /\
  nth 0 (hr_q st) 0 = - (1) /\ nth 1 (hr_q st) 0 = 0 /\
  forall i, (1 <= i < hr_h st)%nat ->
    tol < nth i (hr_q st) 0 - nth (i - 1) (hr_q st) 0.

Definition single_edge : matrix := [[0; 1]; [1; 0]].

(** ** A directed input on which the pass loop never settles *)

(** Node 0 carries a self-loop and an edge to node 1; node 1 has no
    outgoing weight. *)
Definition chasing_pair : matrix := [[1; 1]; [0; 0]].
Definition chasing_W0 : matrix := mmap positive_part chasing_pair.
Definition chasing_W1 : matrix := mmap negative_part chasing_pair.
Definition chasing_cfg : config := mkConfig 2 (1 / 2) 1 0.

Definition chase_step (st : lm_state) (u : nat) : lm_state :=
  fst (node_step 1 chasing_cfg chasing_W0 chasing_W1 2 st u).

(** The four states the chase cycles through. *)
Definition chase_apart : lm_state := lm_init chasing_W0 chasing_W1 2.
Definition chase_joined : lm_state := chase_step chase_apart 0.
Definition chase_swapped : lm_state := chase_step chase_joined 1.
Definition chase_rejoined : lm_state := chase_step chase_swapped 0.

Definition in_chase (st : lm_state) : Prop :=
  st = chase_apart \/ st = chase_joined \/ st = chase_swapped \/ st = chase_rejoined.

(** The shuffler returns one of the two orders of two nodes. *)
Definition shuffles_pairs (G : shuffler) : Prop :=
  forall r, G r 2%nat = [0; 1]%nat \/ G r 2%nat = [1; 0]%nat.

(** ** Label vectors *)

(** [l] labels [n] nodes and its labels are exactly [1..k]. *)
Definition labels_upto (n k : nat) (l : list nat) : Prop :=
  length l = n /\ forall x, In x l <-> (1 <= x <= k)%nat.

(** One label per node, labels forming [{1..k}] for some [k <= n]. *)
Definition contiguous (n : nat) (l : list nat) : Prop :=
  exists k, (k <= n)%nat /\ labels_upto n k l.

(** What the hierarchy loop maintains about [ci] and [nh]. *)
Definition ci_inv (n : nat) (st : hier) : Prop :=
  length (hr_ci st) = S (hr_h st) /\ (1 <= hr_h st)%nat /\
  (hr_nh st <= n)%nat /\
  labels_upto n (hr_nh st) (nth (hr_h st) (hr_ci st) []) /\
  forall j, (1 <= j <= hr_h st)%nat -> contiguous n (nth j (hr_ci st) []).

(** ** Further notions: the rest of the function and its caller *)

(** Every entry of a matrix satisfies [p]. *)
Definition all_entries (p : Q -> bool) (A : matrix) : bool :=
  forallb (forallb p) A.

(** The body of the inner aggregation loop, for the cell [(u, v)]. *)
Definition fill_cell (g : nat -> nat -> Q) (wn : matrix) (p : nat * nat) : matrix :=
  let wn := mset wn (fst p) (snd p) (g (fst p) (snd p)) in
  mset wn (snd p) (fst p) (mget wn (fst p) (snd p)).

(** The cells the double loop visits, in order: [(u, v)] with [u <= v < nh]. *)
Definition upper_cells (nh : nat) : list (nat * nat) :=
  flat_map (fun u => map (pair u) (seq u (nh - u))) (seq 0 nh).

Definition cell_eqb (p q : nat * nat) : bool :=
  ((fst p =? fst q) && (snd p =? snd q))%nat.


(** How many permutations have been drawn since the generator was seeded. *)
Definition drawn_count (r : rng_state) : nat :=
  match r with
  | SeededInt _ d => length d
  | SeededEntropy _ d => length d
  end.

Definition is_ok {A} (r : result A) : bool :=
  match r with Ok _ => true | Raise _ => false end.

Definition zero_triple : matrix := [[0; 0; 0]; [0; 0; 0]; [0; 0; 0]].

(** Two nodes carry the same label in [l]. *)
Definition together (l : list nat) (i j : nat) : Prop := nth i l O = nth j l O.

(** What the hierarchy loop maintains across levels: later levels only
    merge communities of earlier ones, and never have more of them. *)
Definition nest_inv (n : nat) (st : hier) : Prop :=
  forall a b, (1 <= a)%nat -> (a <= b)%nat -> (b <= hr_h st)%nat ->
    (forall i j, (i < n)%nat -> (j < n)%nat ->
       together (nth a (hr_ci st) []) i j -> together (nth b (hr_ci st) []) i j) /\
    (forall ka kb, labels_upto n ka (nth a (hr_ci st) []) ->
                   labels_upto n kb (nth b (hr_ci st) []) -> (kb <= ka)%nat).

(** ** The caller: one score per matrix of a cohort *)

(** [[modularity_louvain_und_sign(cohort[i])[1] for i in range(len(cohort))]]:
    every call takes the defaults [gamma=1], [qtype='sta'], [seed=None]. *)
Fixpoint cohort_modularity (G : shuffler) (cohort : list matrix) : M (list Q) :=
  match cohort with
  | [] => ret []
  | W :: rest =>
      r <- modularity_louvain_und_sign G W 1 "sta" None ;;
      scores <- cohort_modularity G rest ;;
      ret (snd r :: scores)
  end.

(** A computation that leaves the entropy source alone. *)
Definition keeps_entropy {A} (c : M A) : Prop :=
  forall w, os_entropy (fst (c w)) = os_entropy w.

(** A computation whose outcome depends on the incoming world through the
    entropy source alone. *)
Definition entropy_determined {A} (c : M A) : Prop :=
  forall w1 w2, os_entropy w1 = os_entropy w2 ->
    snd (c w1) = snd (c w2) /\ os_entropy (fst (c w1)) = os_entropy (fst (c w2)).

(** ** Seeds numpy accepts *)

(** [np.random.seed] takes [None] or an integer in [0 .. 2**32 - 1]; any
    other integer makes it raise [ValueError], at the first statement of
    the function and before anything else happens. *)
Definition valid_seed (seed : option Z) : bool :=
  match seed with
  | None => true
  | Some s => (0 <=? s)%Z && (s <? 2 ^ 32)%Z
  end.

(** * The program over binary64

    The definitions above compute with exact rationals.  The arrays of the
    program are numpy float64 arrays, and what the program does with them
    is rounded after every operation, overflows to [inf] and carries [nan].
    This module embeds the same source lines over binary64: every [+], [-],
    [*] and [/] is the correctly rounded IEEE 754 operation (round to
    nearest, ties to even), comparisons are the IEEE ones (false on [nan]),
    [np.max] and [np.argmax] treat [nan] the way numpy does, and
    [np.random.seed] raises on a seed out of range.

    A finite binary64 value is kept as the rational it equals, so order and
    equality of floats are order and equality of rationals.  The two zeros
    are one value here: [-0.0] compares equal to [0.0] and is falsy like
    it.  What is lost is the sign of an infinity obtained by dividing by
    zero, which here follows the dividend alone; the program only divides
    by a zero when a total is zero, and overwrites that quotient at once.

    The arrays are float64 arrays, as the matrices the notebook loads with
    [scipy.io.loadmat] are.  Sums are accumulated from left to right, in C
    order for a two-dimensional array.  numpy may associate a long sum
    differently (blocked pairwise summation from eight elements on, BLAS
    inside [np.dot]); no statement below is about the last bits of such a
    sum, and the inputs the program is run on below have totals that come
    out the same in either order. *)

Module F64.

Inductive f64 : Type :=
| Fin (q : Q)   (* a finite value *)
| PInf          (* inf *)
| NInf          (* -inf *)
| NaN.

(** *** Rounding *)

(** The integer nearest to [n / d], ties to even ([0 <= n], [0 < d]). *)
Definition half_even (n d : Z) : Z :=
  let fl := (n / d)%Z in
  match (2 * (n mod d) ?= d)%Z with
  | Lt => fl
  | Gt => (fl + 1)%Z
  | Eq => if Z.even fl then fl else (fl + 1)%Z
  end.

(** The [e] with [2^e <= n / d < 2^(e+1)] ([0 < n], [0 < d]). *)
Definition binade (n d : Z) : Z :=
  let e0 := (Z.log2 n - Z.log2 d)%Z in
  let reached := if (0 <=? e0)%Z then (d * 2 ^ e0 <=? n)%Z
                 else (d <=? n * 2 ^ (- e0))%Z in
  if reached then e0 else (e0 - 1)%Z.

Definition fopp (x : f64) : f64 :=
  match x with
  | Fin q => Fin (- q)
  | PInf => NInf
  | NInf => PInf
  | NaN => NaN
  end.

(** The binary64 nearest to [n / d > 0]: 53 significant bits, the spacing
    [2^p] never below [2^-1074] (subnormals), [inf] from [2^1024] on. *)
Definition round_pos (n d : Z) : f64 :=
  let p := (Z.max (binade n d) (-1022) - 52)%Z in
  if (0 <=? p)%Z then
    let v := (half_even n (d * 2 ^ p) * 2 ^ p)%Z in
    if (2 ^ 1024 <=? v)%Z then PInf else Fin (v # 1)
  else Fin (Qred (half_even (n * 2 ^ (- p)) d # Z.to_pos (2 ^ (- p)))).

Definition round (q : Q) : f64 :=
  let r := Qred q in
  match Qnum r with
  | Z0 => Fin 0
  | Zpos n => round_pos (Zpos n) (Zpos (Qden r))
  | Zneg n => fopp (round_pos (Zpos n) (Zpos (Qden r)))
  end.

(** A decimal literal of the source denotes the nearest binary64. *)
Definition literal (q : Q) : f64 := round q.

(** *** Arithmetic and comparisons *)

Definition inf_of (negative : bool) : f64 := if negative then NInf else PInf.

Definition fadd (x y : f64) : f64 :=
  match x, y with
  | NaN, _ | _, NaN => NaN
  | PInf, NInf | NInf, PInf => NaN
  | PInf, _ | _, PInf => PInf
  | NInf, _ | _, NInf => NInf
  | Fin a, Fin b => round (a + b)
  end.

Definition fsub (x y : f64) : f64 := fadd x (fopp y).

Definition fmul (x y : f64) : f64 :=
  match x, y with
  | NaN, _ | _, NaN => NaN
  | Fin a, Fin b => round (a * b)
  | Fin a, PInf | PInf, Fin a =>
      if Qeq_bool a 0 then NaN else inf_of (Qgtb 0 a)
  | Fin a, NInf | NInf, Fin a =>
      if Qeq_bool a 0 then NaN else inf_of (Qgtb a 0)
  | PInf, PInf | NInf, NInf => PInf
  | PInf, NInf | NInf, PInf => NInf
  end.

(** A non-zero number over zero is an infinity and [0 / 0] is [nan];
    numpy warns and goes on. *)
Definition fdiv (x y : f64) : f64 :=
  match x, y with
  | NaN, _ | _, NaN => NaN
  | Fin a, Fin b =>
      if Qeq_bool b 0
      then (if Qeq_bool a 0 then NaN else inf_of (Qgtb 0 a))
      else round (a / b)
  | Fin _, _ => Fin 0
  | PInf, Fin b => inf_of (Qgtb 0 b)
  | NInf, Fin b => inf_of (negb (Qgtb 0 b))
  | _, _ => NaN
  end.

(** [x > y] *)
Definition fgtb (x y : f64) : bool :=
  match x, y with
  | NaN, _ | _, NaN => false
  | Fin a, Fin b => Qgtb a b
  | PInf, PInf => false
  | PInf, _ => true
  | _, PInf => false
  | NInf, _ => false
  | _, NInf => true
  end.

(** [x == y] *)
Definition feqb (x y : f64) : bool :=
  match x, y with
  | Fin a, Fin b => Qeq_bool a b
  | PInf, PInf | NInf, NInf => true
  | _, _ => false
  end.

(** [x <= y] *)
Definition fleb (x y : f64) : bool := fgtb y x || feqb x y.

Definition is_nan (x : f64) : bool :=
  match x with NaN => true | _ => false end.


(** [not x]: a float is falsy exactly when it equals zero. *)
Definition is_zero (x : f64) : bool := feqb x (Fin 0).

(** A boolean mask entry as a factor. *)
Definition mask (b : bool) : f64 := if b then Fin 1 else Fin 0.

(** *** Arrays *)

Definition vec : Type := list f64.
Definition matrix : Type := list (list f64).

Definition vget (v : vec) (i : nat) : f64 := nth i v (Fin 0).
Definition mrow (A : matrix) (i : nat) : vec := nth i A [].
Definition mget (A : matrix) (i j : nat) : f64 := vget (mrow A i) j.

Definition np_sum (v : vec) : f64 := fold_left fadd v (Fin 0).
Definition np_sum2 (A : matrix) : f64 := np_sum (concat A).

(** [W * (W > 0)] and [-W * (W < 0)], entry by entry *)
Definition positive_part (x : f64) : f64 := fmul x (mask (fgtb x (Fin 0))).
Definition negative_part (x : f64) : f64 := fmul (fopp x) (mask (fgtb (Fin 0) x)).

Definition mmap (f : f64 -> f64) (A : matrix) : matrix := map (map f) A.

(** [v[i] += x] and [v[i] -= x] *)
Definition vadd (v : vec) (i : nat) (x : f64) : vec := upd v i (fadd (vget v i) x).
Definition vsub (v : vec) (i : nat) (x : f64) : vec := upd v i (fsub (vget v i) x).

(** [A[:, u]] *)
Definition mcol (A : matrix) (u : nat) : vec := map (fun r => vget r u) A.
(** [K[:, c] += v] and [K[:, c] -= v] *)
Definition add_col (K : matrix) (c : nat) (v : vec) : matrix :=
  imap (fun i r => vadd r c (vget v i)) K.
Definition sub_col (K : matrix) (c : nat) (v : vec) : matrix :=
  imap (fun i r => vsub r c (vget v i)) K.

(** [np.sum(A, axis=0)] *)
Definition sum_axis0 (n : nat) (A : matrix) : vec :=
  map (fun j => np_sum (mcol A j)) (seq 0 n).

(** [np.maximum]: the larger of the two, and [nan] as soon as one is. *)
Definition maximum (a b : f64) : f64 :=
  if is_nan a then a else if is_nan b then b else if fgtb b a then b else a.

(** [np.max]; the value for the empty vector is never used. *)
Definition np_max (l : vec) : f64 :=
  match l with [] => Fin 0 | x :: t => fold_left maximum t x end.

(** [np.argmax]: the scan replaces the running best by every entry that
    is not [<=] it and stops at the first [nan]. *)
Fixpoint argmax_from (bi : nat) (best : f64) (i : nat) (l : vec) : nat :=
  if is_nan best then bi
  else match l with
       | [] => bi
       | x :: t => if fleb x best then argmax_from bi best (S i) t
                   else argmax_from i x (S i) t
       end.
Definition np_argmax (l : vec) : nat :=
  match l with [] => O | x :: t => argmax_from 0 x 1 t end.

Definition has_nan (l : vec) : bool := existsb is_nan l.

(** *** Configuration *)

(** [1e-10] *)
Definition tol : f64 := literal (1 # 10000000000).

Record config : Type := mkConfig {
  cfg_s0 : f64; cfg_d0 : f64; cfg_s1 : f64; cfg_d1 : f64
}.

(** The [if qtype == ... elif ... else raise] chain. *)
Definition scaling (qtype : string) (s0 s1 : f64) : result (f64 * f64) :=
  if String.eqb qtype "smp" then Ok (fdiv (Fin 1) s0, fdiv (Fin 1) s1)
  else if String.eqb qtype "gja"
       then Ok (fdiv (Fin 1) (fadd s0 s1), fdiv (Fin 1) (fadd s0 s1))
  else if String.eqb qtype "sta" then Ok (fdiv (Fin 1) s0, fdiv (Fin 1) (fadd s0 s1))
  else if String.eqb qtype "pos" then Ok (fdiv (Fin 1) s0, Fin 0)
  else if String.eqb qtype "neg" then Ok (Fin 0, fdiv (Fin 1) s1)
  else Raise (KeyError "modularity type unknown").

(** The two [if not s: s = 1; d = 0] adjustments. *)
Definition adjust (s0 d0 s1 d1 : f64) : config :=
  let '(s0, d0) := if is_zero s0 then (Fin 1, Fin 0) else (s0, d0) in
  let '(s1, d1) := if is_zero s1 then (Fin 1, Fin 0) else (s1, d1) in
  mkConfig s0 d0 s1 d1.

(** Lines 75 to 98 as a function of the two totals in hand. *)
Definition constants (qtype : string) (s0 s1 : f64) : result config :=
  match scaling qtype s0 s1 with
  | Ok d => Ok (adjust s0 (fst d) s1 (snd d))
  | Raise e => Raise e
  end.

Definition seed_range_message : string := "Seed must be between 0 and 2**32 - 1".

(** [np.random.seed(seed)] *)
Definition np_random_seed (seed : option Z) : M unit :=
  fun w => match seed with
           | Some s =>
               if valid_seed seed
               then (mkWorld (SeededInt s []) (os_entropy w) (work w), Ok tt)
               else (w, Raise (ValueError seed_range_message))
           | None => (mkWorld (SeededEntropy (os_entropy w) []) (os_entropy w + 1)%Z (work w),
                      Ok tt)
           end.

(** Everything up to [h = 1]. *)
Definition configure (W : matrix) (qtype : string) (seed : option Z)
  : M (matrix * matrix * config) :=
  np_random_seed seed ;;;
  log OpPositivePart ;;;
  let W0 := mmap positive_part W in
  log OpNegativePart ;;;
  let W1 := mmap negative_part W in
  log OpTotal ;;;
  let s0 := np_sum2 W0 in
  log OpTotal ;;;
  let s1 := np_sum2 W1 in
  c <- lift (constants qtype s0 s1) ;;
  ret (W0, W1, c).

(** *** The local-moving phase *)

Record lm_state : Type := mkLM {
  lm_m : list nat;
  lm_km0 : vec;
  lm_km1 : vec;
  lm_knm0 : matrix;
  lm_knm1 : matrix
}.

Section LocalMoving.

Variable G : shuffler.
Variable gamma : f64.
Variable c : config.
Variables W0 W1 : matrix.
Variable nh : nat.

Definition kn0 : vec := sum_axis0 nh W0.
Definition kn1 : vec := sum_axis0 nh W1.

Definition lm_init : lm_state := mkLM (seq 1 nh) kn0 kn1 W0 W1.

(** [(knm[u, :] + W[u, u] - knm[u, ma]) - gamma * kn[u] * (km + kn[u] - km[ma]) / s],
    each operation rounded, in the order Python evaluates them *)
Definition delta_part (W knm : matrix) (kn km : vec) (s : f64) (u ma : nat) : vec :=
  map (fun mb =>
         fsub (fsub (fadd (mget knm u mb) (mget W u u)) (mget knm u ma))
              (fdiv (fmul (fmul gamma (vget kn u))
                          (fsub (fadd (vget km mb) (vget kn u)) (vget km ma)))
                    s))
      (seq 0 nh).

Definition module_of (st : lm_state) (u : nat) : nat := (nth u (lm_m st) O - 1)%nat.

Definition dQ0 (st : lm_state) (u : nat) : vec :=
  delta_part W0 (lm_knm0 st) kn0 (lm_km0 st) (cfg_s0 c) u (module_of st u).
Definition dQ1 (st : lm_state) (u : nat) : vec :=
  delta_part W1 (lm_knm1 st) kn1 (lm_km1 st) (cfg_s1 c) u (module_of st u).

(** [dQ = d0 * dQ0 - d1 * dQ1; dQ[ma] = 0] *)
Definition rescaled (st : lm_state) (u : nat) : vec :=
  map (fun p => fsub (fmul (cfg_d0 c) (fst p)) (fmul (cfg_d1 c) (snd p)))
      (combine (dQ0 st u) (dQ1 st u)).
Definition dQ (st : lm_state) (u : nat) : vec :=
  upd (rescaled st u) (module_of st u) (Fin 0).

(** The body of [if max_dQ > 1e-10]. *)
Definition move (st : lm_state) (u mb : nat) : lm_state :=
  let ma := module_of st u in
  mkLM (upd (lm_m st) u (mb + 1)%nat)
       (vsub (vadd (lm_km0 st) mb (vget kn0 u)) ma (vget kn0 u))
       (vsub (vadd (lm_km1 st) mb (vget kn1 u)) ma (vget kn1 u))
       (sub_col (add_col (lm_knm0 st) mb (mcol W0 u)) ma (mcol W0 u))
       (sub_col (add_col (lm_knm1 st) mb (mcol W1 u)) ma (mcol W1 u)).

(** Lines 135 to 151, for the delta vector [dq] in hand:
    [max_dQ = np.max(dQ); if max_dQ > 1e-10: flag = True; mb = np.argmax(dQ); ...] *)
Definition try_move (dq : vec) (st : lm_state) (u : nat) : lm_state * bool :=
  let max_dQ := np_max dq in
  if fgtb max_dQ tol then (move st u (np_argmax dq), true)
  else (st, false).

(** The body of the [for u in ...] loop. *)
Definition node_step (st : lm_state) (u : nat) : lm_state * bool :=
  try_move (dQ st u) st u.

Definition sweep (order : list nat) (st : lm_state) : lm_state * bool :=
  fold_left (fun acc u => let r := node_step (fst acc) u in
                          (fst r, orb (snd acc) (snd r)))
            order (st, false).

Fixpoint pass_loop (budget : nat) (st : lm_state) : M lm_state :=
  match budget with
  | O => throw (raise_class "BCTParamError" inner_loop_message)
  | S b =>
      order <- np_random_permutation G nh ;;
      let r := sweep order st in
      if snd r then pass_loop b (fst r) else ret (fst r)
  end.

Definition local_moving : M lm_state := pass_loop 1000 lm_init.

End LocalMoving.

(** *** Aggregation and the level's modularity *)

Definition block_sum (A : matrix) (m : list nat) (u v : nat) : f64 :=
  let rows := map (Nat.eqb (u + 1)%nat) m in
  let cols := map (Nat.eqb (v + 1)%nat) m in
  np_sum2 (map (select cols) (select rows A)).

Definition mset (A : matrix) (i j : nat) (x : f64) : matrix :=
  upd A i (upd (mrow A i) j x).

Definition zeros2 (k : nat) : matrix := repeat (repeat (Fin 0) k) k.

Definition aggregate (A : matrix) (m : list nat) (nh : nat) : matrix :=
  fold_left
    (fun wn u =>
       fold_left
         (fun wn v =>
            let wn := mset wn u v (block_sum A m u v) in
            mset wn v u (mget wn u v))
         (seq u (nh - u)%nat) wn)
    (seq 0 nh) (zeros2 nh).

Definition np_trace (A : matrix) : f64 := np_sum (imap (fun i r => vget r i) A).

Definition np_dot (k : nat) (A B : matrix) : matrix :=
  map (fun r => map (fun j => np_sum (map (fun p => fmul (fst p) (vget (snd p) j))
                                          (combine r B)))
                    (seq 0 k)) A.

(** [np.trace(W) - np.sum(np.dot(W, W)) / s] *)
Definition level_q (k : nat) (A : matrix) (s : f64) : f64 :=
  fsub (np_trace A) (fdiv (np_sum2 (np_dot k A A)) s).

(** *** The hierarchy loop *)

Record hier : Type := mkHier {
  hr_h : nat;
  hr_nh : nat;
  hr_W0 : matrix;
  hr_W1 : matrix;
  hr_ci : list (list nat);
  hr_q : list f64
}.

Section Hierarchy.

Variable G : shuffler.
Variable gamma : f64.
Variable c : config.
Variable n : nat.

Definition level (st : hier) : M hier :=
  log (OpLevel (hr_h st)) ;;;
  lm <- local_moving G gamma c (hr_W0 st) (hr_W1 st) (hr_nh st) ;;
  let h := (hr_h st + 1)%nat in
  let ci := hr_ci st ++ [repeat O n] in
  let m := renumber (lm_m lm) in
  let ci := upd ci h (project (hr_nh st) (nth (h - 1)%nat ci []) (nth h ci []) m) in
  nh <- lift (np_max_nat m) ;;
  let wn0 := aggregate (hr_W0 st) m nh in
  let wn1 := aggregate (hr_W1 st) m nh in
  let q := hr_q st ++ [Fin 0] in
  let q0 := level_q nh wn0 (cfg_s0 c) in
  let q1 := level_q nh wn1 (cfg_s1 c) in
  ret (mkHier h nh wn0 wn1 ci
              (upd q h (fsub (fmul (cfg_d0 c) q0) (fmul (cfg_d1 c) q1)))).

(** [q[h] - q[h - 1] > 1e-10] *)
Definition improving (st : hier) : bool :=
  fgtb (fsub (nth (hr_h st) (hr_q st) (Fin 0))
             (nth (hr_h st - 1)%nat (hr_q st) (Fin 0))) tol.

Fixpoint levels (budget : nat) (st : hier) : M hier :=
  if improving st then
    match budget with
    | O => throw (raise_class "BCTParamError" outer_loop_message)
    | S b => st' <- level st ;; levels b st'
    end
  else ret st.

End Hierarchy.

(** The run after the configuration step. *)
Definition optimise (G : shuffler) (gamma : f64) (n : nat) (W0 W1 : matrix)
    (c : config) : M (list nat * f64) :=
  st <- levels G gamma c n 300 (mkHier 1 n W0 W1 [[]; seq 1 n] [Fin (- (1)); Fin 0]) ;;
  ret (renumber (last (hr_ci st) []), last (hr_q st) (Fin 0)).

Definition modularity_louvain_und_sign (G : shuffler) (W : matrix) (gamma : f64)
    (qtype : string) (seed : option Z) : M (list nat * f64) :=
  p <- configure W qtype seed ;;
  let '(W0, W1, c) := p in
  optimise G gamma (length W) W0 W1 c.

(** *** Notions used in the statements *)

Definition squareb (k : nat) (A : matrix) : bool :=
  (length A =? k)%nat && forallb (fun r => (length r =? k)%nat) A.

Definition shape_okb (nh : nat) (st : lm_state) : bool :=
  (length (lm_m st) =? nh)%nat
  && forallb (fun x => (1 <=? x)%nat && (x <=? nh)%nat) (lm_m st)
  && (length (lm_km0 st) =? nh)%nat
  && (length (lm_km1 st) =? nh)%nat
  && squareb nh (lm_knm0 st)
  && squareb nh (lm_knm1 st).





(** Sum of [f w] over the nodes [w] currently assigned to module [cm], in
    the order of the nodes. *)
Definition module_sum (m : list nat) (cm : nat) (f : nat -> f64) : f64 :=
  np_sum (map f (filter (fun w => (nth w m O =? cm + 1)%nat) (seq 0 (length m)))).

(** The accumulators hold exactly the module sums. *)
Definition consistent (W0 W1 : matrix) (nh : nat) (st : lm_state) : Prop :=
  forall cm, (cm < nh)%nat ->
    feqb (vget (lm_km0 st) cm) (module_sum (lm_m st) cm (vget (kn0 W0 nh))) = true /\
    feqb (vget (lm_km1 st) cm) (module_sum (lm_m st) cm (vget (kn1 W1 nh))) = true /\
    forall v, (v < nh)%nat ->
      feqb (mget (lm_knm0 st) v cm) (module_sum (lm_m st) cm (mget W0 v)) = true /\
      feqb (mget (lm_knm1 st) v cm) (module_sum (lm_m st) cm (mget W1 v)) = true.

(** The states the local-moving loop can be in between two node visits. *)
Inductive reachable (gamma : f64) (c : config) (W0 W1 : matrix) (nh : nat)
  : lm_state -> Prop :=
| reach_init : reachable gamma c W0 W1 nh (lm_init W0 W1 nh)
| reach_step (st : lm_state) (u : nat) :
    reachable gamma c W0 W1 nh st -> (u < nh)%nat ->
    reachable gamma c W0 W1 nh (fst (node_step gamma c W0 W1 nh st u)).

(** *** Integer weights *)

(** An integer as a float; the conversion is exact below [2^53]. *)
Definition of_int (z : Z) : f64 := Fin (inject_Z z).
Definition of_ints (A : list (list Z)) : matrix := map (map of_int) A.

Definition zsum (l : list Z) : Z := fold_right Z.add 0%Z l.
Definition zget (A : list (list Z)) (i j : nat) : Z := nth j (nth i A []) 0%Z.

(** The sum of column [u], and the sum of the first [k] columns: all the
    weight of a matrix with [k] columns. *)
Definition zcolumn (A : list (list Z)) (u : nat) : Z :=
  zsum (map (fun r => nth u r 0%Z) A).
Definition ztotal (k : nat) (A : list (list Z)) : Z :=
  zsum (map (zcolumn A) (seq 0 k)).

(** A [k] by [k] matrix of integers, none below zero, adding up to less
    than [2^53]. *)
Definition small_weights (k : nat) (A : list (list Z)) : bool :=
  (length A =? k)%nat && forallb (fun r => (length r =? k)%nat) A
  && forallb (forallb (fun z => (0 <=? z)%Z)) A
  && (ztotal k A <? 2 ^ 53)%Z.

(** The exact sum of [f] over the nodes assigned to module [cm]. *)
Definition zmodule (m : list nat) (cm : nat) (f : nat -> Z) : Z :=
  zsum (map (fun w => if (nth w m O =? cm + 1)%nat then f w else 0%Z)
            (seq 0 (length m))).

(** The accumulators hold the exact module sums of the integer weights. *)
Definition exact_accumulators (nh : nat) (A0 A1 : list (list Z)) (st : lm_state) : Prop :=
  forall cm, (cm < nh)%nat ->
    vget (lm_km0 st) cm = of_int (zmodule (lm_m st) cm (zcolumn A0)) /\
    vget (lm_km1 st) cm = of_int (zmodule (lm_m st) cm (zcolumn A1)) /\
    forall v, (v < nh)%nat ->
      mget (lm_knm0 st) v cm = of_int (zmodule (lm_m st) cm (zget A0 v)) /\
      mget (lm_knm1 st) v cm = of_int (zmodule (lm_m st) cm (zget A1 v)).

End F64.

(** ** The arithmetic against the kernel's binary64

    Rocq's primitive floats are the machine's binary64.  [F64] is not built
    on them, because nothing could then be proved about a sum or a product,
    but its operations can be run side by side with the primitive ones. *)

Module Machine.
Import PrimFloat.

(** A primitive float as the value it denotes. *)
Definition value (x : float) : F64.f64 :=
  match FloatOps.Prim2SF x with
  | SpecFloat.S754_zero _ => F64.Fin 0
  | SpecFloat.S754_infinity s => F64.inf_of s
  | SpecFloat.S754_nan => F64.NaN
  | SpecFloat.S754_finite s m e =>
      let z := if s then Zneg m else Zpos m in
      F64.Fin (Qred (if (0 <=? e)%Z then (z * 2 ^ e # 1) else (z # Z.to_pos (2 ^ (- e)))))
  end.

(** The same float, represented the same way. *)
Definition same (x y : F64.f64) : bool :=
  match x, y with
  | F64.Fin a, F64.Fin b => (Qnum a =? Qnum b)%Z && (Qden a =? Qden b)%positive
  | F64.PInf, F64.PInf | F64.NInf, F64.NInf | F64.NaN, F64.NaN => true
  | _, _ => false
  end.

(** 0, 1, -1, 0.1, 0.2, 0.4, -0.7, 1e-10, 123456.789, 2^53, 1e200, -1e154,
    the largest float, the smallest subnormal, a subnormal, inf, -inf, nan *)
Definition samples : list float :=
  [0; 1; -1; 0x1.999999999999ap-4; 0x1.999999999999ap-3; 0x1.999999999999ap-2;
   -0x1.6666666666666p-1; 0x1.b7cdfd9d7bdbbp-34; 0x1.e240c9fbe76c9p+16; 0x1p+53;
   0x1.4e718d7d7625ap+664; -0x1.7dddf6b095ff1p+511; 0x1.fffffffffffffp+1023;
   0x1p-1074; 0x0.0406de80b2597p-1022; infinity; neg_infinity; nan]%float.

(** An operation of [F64] gives what the primitive one gives, on every
    pair of samples. *)
Definition agree (op : float -> float -> float)
    (fop : F64.f64 -> F64.f64 -> F64.f64) : bool :=
  forallb (fun a => forallb (fun b => same (value (op a b)) (fop (value a) (value b)))
                            samples) samples.

Definition agree_order : bool :=
  forallb (fun a => forallb (fun b =>
             Bool.eqb (ltb b a) (F64.fgtb (value a) (value b))
             && Bool.eqb (eqb a b) (F64.feqb (value a) (value b))
             && Bool.eqb (leb a b) (F64.fleb (value a) (value b)))
                            samples) samples.

(** The literals [0.1], [1e-10] and [1e200] are the floats Python reads. *)
Definition agree_literals : bool :=
  same (value 0x1.999999999999ap-4) (F64.literal (1 # 10))
  && same (value 0x1.b7cdfd9d7bdbbp-34) F64.tol
  && same (value 0x1.4e718d7d7625ap+664) (F64.literal (inject_Z (10 ^ 200))).

End Machine.

(** ** Inputs on which the binary64 program is run below *)

(** A node on which four float deltas are computed, the last two of them
    equal as exact rationals (7/160) and different once rounded. *)
Definition near_tie : F64.matrix :=
  map (map F64.literal)
      [[0; 1 # 10; 4 # 10; 5 # 10]; [1 # 10; 0; 2 # 10; 5 # 10];
       [4 # 10; 2 # 10; 0; 3 # 10]; [5 # 10; 5 # 10; 3 # 10; 0]].
Definition near_tie_W1 : F64.matrix := F64.mmap F64.negative_part near_tie.
Definition near_tie_cfg : F64.config :=
  F64.mkConfig (F64.Fin 4) (F64.literal (1 # 4)) (F64.Fin 1) (F64.Fin 0).

(** [[1., 2.], [2., 0.]] *)
Definition positive_pair : F64.matrix :=
  [[F64.Fin 1; F64.Fin 2]; [F64.Fin 2; F64.Fin 0]].


(** [[0, .1, .1], [.1, 0, .3], [.1, .3, 0]] and its sign split *)
Definition light_triangle : F64.matrix :=
  map (map F64.literal)
      [[0; 1 # 10; 1 # 10]; [1 # 10; 0; 3 # 10]; [1 # 10; 3 # 10; 0]].
Definition light_triangle_W0 : F64.matrix := F64.mmap F64.positive_part light_triangle.
Definition light_triangle_W1 : F64.matrix := F64.mmap F64.negative_part light_triangle.
Definition light_triangle_cfg : F64.config :=
  F64.mkConfig (F64.Fin 1) (F64.Fin 1) (F64.Fin 1) (F64.Fin 0).
Definition light_triangle_step (st : F64.lm_state) (u : nat) : F64.lm_state :=
  fst (F64.node_step (F64.Fin 1) light_triangle_cfg light_triangle_W0 light_triangle_W1 3
         st u).
(** The state after the visits of node 0, node 1 and node 0 again, each of
    which moves the node. *)
Definition light_triangle_state : F64.lm_state :=
  light_triangle_step
    (light_triangle_step
       (light_triangle_step (F64.lm_init light_triangle_W0 light_triangle_W1 3) 0) 1) 0.

(** [[3, 1], [1, 0]] as integers *)
Definition small_pair : list (list Z) := [[3; 1]; [1; 0]]%Z.
Definition no_weights : list (list Z) := [[0; 0]; [0; 0]]%Z.
Definition small_pair_cfg : F64.config :=
  F64.mkConfig (F64.Fin 5) (F64.literal (1 # 5)) (F64.Fin 1) (F64.Fin 0).
Definition small_pair_moved : F64.lm_state :=
  fst (F64.node_step (F64.Fin 1) small_pair_cfg (F64.of_ints small_pair)
         (F64.of_ints no_weights) 2
         (F64.lm_init (F64.of_ints small_pair) (F64.of_ints no_weights) 2) 1).

(** ** Basic facts about the array operations *)

Lemma Qgtb_true (a b : Q) : Qgtb a b = true <-> b < a.
Proof.
  unfold Qgtb. rewrite negb_true_iff. split; intro H.
  - apply Qnot_le_lt. intro L. apply Qle_bool_iff in L. congruence.
  - destruct (Qle_bool a b) eqn:E; [|reflexivity].
    apply Qle_bool_iff in E. exfalso. apply (Qlt_not_le _ _ H E).
Qed.

Lemma Qgtb_false (a b : Q) : Qgtb a b = false <-> a <= b.
Proof.
  unfold Qgtb. rewrite negb_false_iff. apply Qle_bool_iff.
Qed.

Lemma length_upd {A} (l : list A) (i : nat) (x : A) : length (upd l i x) = length l.
Proof.
  revert i; induction l as [|y t IH]; intros [|i]; simpl; auto.
Qed.

Lemma nth_upd_same {A} (l : list A) (i : nat) (x d : A) :
  (i < length l)%nat -> nth i (upd l i x) d = x.
Proof.
  revert i; induction l as [|y t IH]; intros [|i] H; simpl in *; try lia; auto.
  apply IH; lia.
Qed.

Lemma nth_upd_other {A} (l : list A) (i j : nat) (x d : A) :
  i <> j -> nth j (upd l i x) d = nth j l d.
Proof.
  revert i j; induction l as [|y t IH]; intros [|i] [|j] H; simpl; auto; try congruence.
Qed.

Lemma length_imap_from {A B} (f : nat -> A -> B) (l : list A) (k : nat) :
  length (imap_from k f l) = length l.
Proof.
  revert k; induction l as [|x t IH]; intro k; simpl; auto.
Qed.

Lemma nth_imap_from {A B} (f : nat -> A -> B) (l : list A) (k i : nat) (da : A) (db : B) :
  (i < length l)%nat -> nth i (imap_from k f l) db = f (k + i)%nat (nth i l da).
Proof.
  revert k i; induction l as [|x t IH]; intros k [|i] H; simpl in *; try lia.
  - f_equal; lia.
  - rewrite (IH (S k) i) by lia. f_equal; lia.
Qed.

Lemma nth_map_seq {B} (f : nat -> B) (n i : nat) (d : B) :
  (i < n)%nat -> nth i (map f (seq 0 n)) d = f i.
Proof.
  intro H. rewrite (nth_indep _ d (f O)) by (rewrite length_map, length_seq; exact H).
  rewrite (map_nth f (seq 0 n) O i), seq_nth by exact H. reflexivity.
Qed.

(** ** Configuration *)

Lemma configure_unfold (W : matrix) (qtype : string) (seed : option Z) (w : world) :
  configure W qtype seed w =
  (after_totals seed w,
   match scaling qtype (total_positive W) (total_negative W) with
   | Ok d => Ok (mmap positive_part W, mmap negative_part W,
                 adjust (total_positive W) (fst d) (total_negative W) (snd d))
   | Raise e => Raise e
   end).
Proof.
  unfold configure, after_totals, seeded_world, total_positive, total_negative,
    bind, log, lift, ret.
  destruct seed as [s|]; simpl;
    destruct (scaling qtype _ _); simpl; rewrite <- ?app_assoc; reflexivity.
Qed.

Lemma scaling_unrecognised (qtype : string) (s0 s1 : Q) :
  recognised qtype = false ->
  scaling qtype s0 s1 = Raise (KeyError "modularity type unknown").
Proof.
  unfold recognised, scaling; simpl. intro H.
  repeat (apply orb_false_iff in H; destruct H as [-> H]).
  reflexivity.
Qed.

(** ** Unknown variant names *)

(** C2, as stated, fails: with an unknown variant on the 1x1 matrix [[1]]
    the call raises, but the global generator has been reseeded and the
    sign split and both totals have been computed by then. *)
Lemma unknown_qtype_leaves_traces :
  ~ fails_before_any_work sorted_order [[1]] 1 "louvain" (Some 1%Z) world0.
Proof.
  unfold fails_before_any_work. vm_compute. intro H. discriminate H.
Qed.

(** ** Dependence on the generator only *)

Lemma rng_determined_ret {A} (a : A) : rng_determined (ret a).
Proof. intros w1 w2 H; simpl; auto. Qed.

Lemma rng_determined_throw {A} (e : PyErr) : rng_determined (@throw A e).
Proof. intros w1 w2 H; simpl; auto. Qed.

Lemma rng_determined_lift {A} (r : result A) : rng_determined (lift r).
Proof. intros w1 w2 H; simpl; auto. Qed.

Lemma rng_determined_log (o : array_op) : rng_determined (log o).
Proof. intros w1 w2 H; simpl; auto. Qed.

Lemma rng_determined_permutation (G : shuffler) (n : nat) :
  rng_determined (np_random_permutation G n).
Proof. intros w1 w2 H; unfold np_random_permutation; simpl; rewrite H; auto. Qed.

Lemma rng_determined_bind {A B} (c : M A) (k : A -> M B) :
  rng_determined c -> (forall a, rng_determined (k a)) -> rng_determined (bind c k).
Proof.
  intros Hc Hk w1 w2 H. unfold bind.
  destruct (Hc w1 w2 H) as [Hs Hr].
  destruct (c w1) as [w1' [a1|e1]], (c w2) as [w2' [a2|e2]]; simpl in *;
    try discriminate Hs.
  - injection Hs as ->. apply Hk; exact Hr.
  - injection Hs as ->. split; [reflexivity | exact Hr].
Qed.

Lemma rng_determined_pass_loop G gamma c W0 W1 nh budget :
  forall st, rng_determined (pass_loop G gamma c W0 W1 nh budget st).
Proof.
  induction budget as [|b IH]; intro st; simpl.
  - apply rng_determined_throw.
  - apply rng_determined_bind; [apply rng_determined_permutation|].
    intro order. destruct (snd (sweep gamma c W0 W1 nh order st)).
    + apply IH.
    + apply rng_determined_ret.
Qed.

Lemma rng_determined_level G gamma c n st : rng_determined (level G gamma c n st).
Proof.
  unfold level.
  apply rng_determined_bind; [apply rng_determined_log|]. intros _.
  apply rng_determined_bind; [apply rng_determined_pass_loop|]. intro lm.
  apply rng_determined_bind; [apply rng_determined_lift|]. intro k.
  apply rng_determined_ret.
Qed.

Lemma rng_determined_levels G gamma c n budget :
  forall st, rng_determined (levels G gamma c n budget st).
Proof.
  induction budget as [|b IH]; intro st; simpl;
    destruct (improving st); try apply rng_determined_ret.
  - apply rng_determined_throw.
  - apply rng_determined_bind; [apply rng_determined_level|]. exact IH.
Qed.

Lemma run_unfold (G : shuffler) (W : matrix) (gamma : Q) (qtype : string)
    (seed : option Z) (w : world) :
  modularity_louvain_und_sign G W gamma qtype seed w =
  match scaling qtype (total_positive W) (total_negative W) with
  | Ok d => optimise G gamma (length W) (mmap positive_part W) (mmap negative_part W)
              (adjust (total_positive W) (fst d) (total_negative W) (snd d))
              (after_totals seed w)
  | Raise e => (after_totals seed w, Raise e)
  end.
Proof.
  unfold modularity_louvain_und_sign, hierarchy, optimise, bind.
  rewrite configure_unfold.
  destruct (scaling qtype (total_positive W) (total_negative W)); reflexivity.
Qed.

(** C6: with a fixed integer seed the outcome (labels and Q, or the
    exception raised) is the same whatever state the generator, the entropy
    source and the rest of the world were in before the call. *)
Theorem fixed_seed_deterministic (G : shuffler) (W : matrix) (gamma : Q)
    (qtype : string) (seed : Z) (w1 w2 : world) :
  snd (modularity_louvain_und_sign G W gamma qtype (Some seed) w1)
  = snd (modularity_louvain_und_sign G W gamma qtype (Some seed) w2).
Proof.
  rewrite !run_unfold.
  destruct (scaling qtype (total_positive W) (total_negative W)) as [d|e];
    [|reflexivity].
  apply rng_determined_bind.
  - apply rng_determined_levels.
  - intro st. apply rng_determined_ret.
  - reflexivity.
Qed.

(** ** The modularity delta *)

Lemma length_delta_part gamma nh W knm kn km s u ma :
  length (delta_part gamma nh W knm kn km s u ma) = nh.
Proof. unfold delta_part. rewrite length_map, length_seq. reflexivity. Qed.

Lemma length_rescaled gamma c W0 W1 nh st u :
  length (rescaled gamma c W0 W1 nh st u) = nh.
Proof.
  unfold rescaled, dQ0, dQ1.
  rewrite length_map, length_combine, !length_delta_part. apply Nat.min_id.
Qed.

Lemma length_delta_Q gamma c W0 W1 nh st u :
  length (dQ gamma c W0 W1 nh st u) = nh.
Proof. unfold dQ. rewrite length_upd. apply length_rescaled. Qed.

Lemma nth_rescaled gamma c W0 W1 nh st u mb :
  (mb < nh)%nat ->
  nth mb (rescaled gamma c W0 W1 nh st u) 0
  = cfg_d0 c * nth mb (dQ0 gamma c W0 nh st u) 0
    - cfg_d1 c * nth mb (dQ1 gamma c W1 nh st u) 0.
Proof.
  intro H. unfold rescaled.
  set (f := fun p : Q * Q => cfg_d0 c * fst p - cfg_d1 c * snd p).
  assert (L0 : length (dQ0 gamma c W0 nh st u) = nh) by apply length_delta_part.
  assert (L1 : length (dQ1 gamma c W1 nh st u) = nh) by apply length_delta_part.
  rewrite (nth_indep _ 0 (f (0, 0)))
    by (rewrite length_map, length_combine, L0, L1, Nat.min_id; exact H).
  rewrite (map_nth f), combine_nth by congruence. reflexivity.
Qed.

(** C1, as stated, fails: on the matrix [[1,2],[2,0]] with every node in
    its own module, the delta the code computes for moving node 0 to
    module 1 is 4/25, while the bracketed formula gives 8/25. *)
Lemma self_terms_enter_for_other_modules :
  configured loop_and_edge "sta" None world0 = Ok loop_and_edge_cfg /\
  ~ nth 1 (dQ 1 loop_and_edge_cfg loop_and_edge_W0 loop_and_edge_W1 2
             loop_and_edge_init 0) 0
    == spec_delta_Q 1 loop_and_edge_cfg loop_and_edge_W0 loop_and_edge_W1 2
         loop_and_edge_init 0 1.
Proof.
  split; [reflexivity|]. vm_compute. intro H. discriminate H.
Qed.

(** C1, amended: for every candidate module [mb] other than [ma] the delta
    is [d0*dQ0 - d1*dQ1] with
    [dQ0 = knm0[u,mb] + W0[u,u] - knm0[u,ma]
           - gamma*kn0[u]*(km0[mb] + kn0[u] - km0[ma])/s0]
    (and [dQ1] alike over the negative-part quantities): the self-loop and
    own-degree terms enter for every candidate; the entry for [mb = ma] is
    exactly 0. *)
Theorem delta_Q_entry (gamma : Q) (c : config) (W0 W1 : matrix) (nh : nat)
    (st : lm_state) (u mb : nat) :
  (mb < nh)%nat ->
  let ma := module_of st u in
  let part (W knm : matrix) (kn km : vec) (s : Q) :=
    (mget knm u mb + mget W u u - mget knm u ma)
    - gamma * vget kn u * (vget km mb + vget kn u - vget km ma) / s in
  nth mb (dQ gamma c W0 W1 nh st u) 0
  = if (mb =? ma)%nat then 0
    else cfg_d0 c * part W0 (lm_knm0 st) (kn0 W0 nh) (lm_km0 st) (cfg_s0 c)
         - cfg_d1 c * part W1 (lm_knm1 st) (kn1 W1 nh) (lm_km1 st) (cfg_s1 c).
Proof.
  intros H ma part. unfold dQ. fold ma.
  destruct (Nat.eqb_spec mb ma) as [E|E].
  - subst mb. apply nth_upd_same. rewrite length_rescaled. exact H.
  - rewrite nth_upd_other by congruence.
    rewrite nth_rescaled by exact H.
    unfold dQ0, dQ1, delta_part. fold ma.
    rewrite !nth_map_seq by exact H. reflexivity.
Qed.

Lemma delta_Q_entry_witness :
  (1 < 2)%nat /\
  nth 1 (dQ 1 loop_and_edge_cfg loop_and_edge_W0 loop_and_edge_W1 2
           loop_and_edge_init 0) 0 == 4 # 25.
Proof.
  split; [lia|].
  rewrite (delta_Q_entry 1 loop_and_edge_cfg loop_and_edge_W0 loop_and_edge_W1 2
             loop_and_edge_init 0 1); [|lia].
  vm_compute. reflexivity.
Defined.

(** ** Maximum and first maximiser *)

Lemma argmax_from_spec (l : vec) :
  forall (bi : nat) (best : Q) (i : nat),
    let a := argmax_from bi best i l in
    let v := max_from best l in
    best <= v /\
    (forall j, (j < length l)%nat -> nth j l 0 <= v) /\
    ((a = bi /\ v = best) \/
     (exists j, a = (i + j)%nat /\ (j < length l)%nat /\ nth j l 0 = v /\ best < v /\
                forall j', (j' < j)%nat -> nth j' l 0 < v)).
Proof.
  induction l as [|x t IH]; intros bi best i; simpl.
  - split; [apply Qle_refl|]. split; [intros j H; lia|]. left; auto.
  - destruct (Qgtb x best) eqn:E.
    + apply Qgtb_true in E.
      destruct (IH i x (S i)) as (Hb & Hall & Hcase).
      split; [apply Qlt_le_weak, (Qlt_le_trans _ _ _ E Hb)|].
      split.
      * intros [|j] Hj; [exact Hb|]. apply Hall; lia.
      * right. destruct Hcase as [[Ha Hv]|(j & Ha & Hj & Hn & Hlt & Hfirst)].
        -- exists O. rewrite Ha, Hv. repeat split; try lia; auto.
        -- exists (S j). repeat split; try lia; auto.
           ++ apply (Qlt_trans _ _ _ E Hlt).
           ++ intros [|j'] Hj'; [exact Hlt|]. apply Hfirst; lia.
    + apply Qgtb_false in E.
      destruct (IH bi best (S i)) as (Hb & Hall & Hcase).
      split; [exact Hb|]. split.
      * intros [|j] Hj; [apply (Qle_trans _ _ _ E Hb)|]. apply Hall; lia.
      * destruct Hcase as [[Ha Hv]|(j & Ha & Hj & Hn & Hlt & Hfirst)].
        -- left; auto.
        -- right. exists (S j). repeat split; try lia; auto.
           intros [|j'] Hj'; [apply (Qle_lt_trans _ _ _ E Hlt)|]. apply Hfirst; lia.
Qed.

Lemma np_argmax_spec (l : vec) :
  l <> [] ->
  (np_argmax l < length l)%nat /\
  nth (np_argmax l) l 0 = np_max l /\
  (forall j, (j < length l)%nat -> nth j l 0 <= np_max l) /\
  (forall j, (j < np_argmax l)%nat -> nth j l 0 < np_max l).
Proof.
  destruct l as [|x t]; [congruence|]. intros _. unfold np_argmax, np_max.
  destruct (argmax_from_spec t O x 1%nat) as (Hb & Hall & Hcase). simpl in *.
  destruct Hcase as [[Ha Hv]|(j & Ha & Hj & Hn & Hlt & Hfirst)].
  - rewrite Ha, Hv. repeat split; try lia.
    + intros [|j] Hj; [apply Qle_refl|]. rewrite <- Hv. apply Hall; lia.
  - rewrite Ha. simpl. repeat split; try lia; auto.
    + intros [|k] Hk; [exact Hb|]. apply Hall; lia.
    + intros [|k] Hk; [exact Hlt|]. apply Hfirst; lia.
Qed.

(** ** Pointwise effect of the in-place updates *)

Lemma vget_vadd_same (v : vec) (i : nat) (x : Q) :
  (i < length v)%nat -> vget (vadd v i x) i = vget v i + x.
Proof. intro H. unfold vadd, vget at 1. apply nth_upd_same; exact H. Qed.

Lemma vget_vadd_other (v : vec) (i j : nat) (x : Q) :
  i <> j -> vget (vadd v i x) j = vget v j.
Proof. intro H. unfold vadd, vget at 1. rewrite nth_upd_other by exact H. reflexivity. Qed.

Lemma vget_vsub_same (v : vec) (i : nat) (x : Q) :
  (i < length v)%nat -> vget (vsub v i x) i = vget v i - x.
Proof. intro H. unfold vsub, vget at 1. apply nth_upd_same; exact H. Qed.

Lemma vget_vsub_other (v : vec) (i j : nat) (x : Q) :
  i <> j -> vget (vsub v i x) j = vget v j.
Proof. intro H. unfold vsub, vget at 1. rewrite nth_upd_other by exact H. reflexivity. Qed.

Lemma length_vadd (v : vec) (i : nat) (x : Q) : length (vadd v i x) = length v.
Proof. apply length_upd. Qed.

Lemma length_vsub (v : vec) (i : nat) (x : Q) : length (vsub v i x) = length v.
Proof. apply length_upd. Qed.

(** [v[mb] += x; v[ma] -= x] for two different indices in range *)
Lemma vget_transfer (v : vec) (mb ma cm : nat) (x : Q) :
  mb <> ma -> (mb < length v)%nat -> (ma < length v)%nat ->
  vget (vsub (vadd v mb x) ma x) cm
  = if (cm =? mb)%nat then vget v cm + x
    else if (cm =? ma)%nat then vget v cm - x
    else vget v cm.
Proof.
  intros Hne Hb Ha.
  destruct (Nat.eqb_spec cm mb) as [->|Eb].
  - rewrite vget_vsub_other by congruence. apply vget_vadd_same; exact Hb.
  - destruct (Nat.eqb_spec cm ma) as [->|Ea].
    + rewrite vget_vsub_same by (rewrite length_vadd; exact Ha).
      rewrite vget_vadd_other by congruence. reflexivity.
    + rewrite vget_vsub_other, vget_vadd_other by congruence. reflexivity.
Qed.

Lemma vget_nil (j : nat) : vget [] j = 0.
Proof. destruct j; reflexivity. Qed.

Lemma vget_mcol (A : matrix) (u v : nat) : vget (mcol A u) v = mget A v u.
Proof.
  unfold mcol, mget, mrow, vget at 1.
  destruct (Nat.lt_ge_cases v (length A)) as [H|H].
  - rewrite (nth_indep _ 0 (vget [] u)) by (rewrite length_map; exact H).
    apply (map_nth (fun r => vget r u)).
  - rewrite !nth_overflow; try (rewrite ?length_map; exact H).
    symmetry; apply vget_nil.
Qed.

Lemma mrow_add_col (K : matrix) (cm : nat) (x : vec) (v : nat) :
  (v < length K)%nat -> mrow (add_col K cm x) v = vadd (mrow K v) cm (vget x v).
Proof.
  intro H. unfold mrow, add_col, imap.
  exact (nth_imap_from (fun i r => vadd r cm (vget x i)) K O v [] [] H).
Qed.

Lemma mrow_sub_col (K : matrix) (cm : nat) (x : vec) (v : nat) :
  (v < length K)%nat -> mrow (sub_col K cm x) v = vsub (mrow K v) cm (vget x v).
Proof.
  intro H. unfold mrow, sub_col, imap.
  exact (nth_imap_from (fun i r => vsub r cm (vget x i)) K O v [] [] H).
Qed.

Lemma length_add_col K cm x : length (add_col K cm x) = length K.
Proof. apply length_imap_from. Qed.

Lemma length_sub_col K cm x : length (sub_col K cm x) = length K.
Proof. apply length_imap_from. Qed.

Lemma squareb_spec (k : nat) (A : matrix) :
  squareb k A = true <->
  length A = k /\ forall v, (v < k)%nat -> length (mrow A v) = k.
Proof.
  unfold squareb. rewrite andb_true_iff, Nat.eqb_eq, forallb_forall. split.
  - intros [L R]. split; [exact L|]. intros v Hv.
    apply Nat.eqb_eq, R. apply nth_In. lia.
  - intros [L R]. split; [exact L|]. intros r Hr.
    destruct (In_nth _ _ [] Hr) as (v & Hv & <-).
    apply Nat.eqb_eq, (R v). lia.
Qed.

(** [K[:, mb] += W[:, u]; K[:, ma] -= W[:, u]] seen entry by entry *)
Lemma mget_transfer (K W : matrix) (k mb ma u v cm : nat) :
  squareb k K = true -> mb <> ma -> (mb < k)%nat -> (ma < k)%nat -> (v < k)%nat ->
  mget (sub_col (add_col K mb (mcol W u)) ma (mcol W u)) v cm
  = if (cm =? mb)%nat then mget K v cm + mget W v u
    else if (cm =? ma)%nat then mget K v cm - mget W v u
    else mget K v cm.
Proof.
  intros Hsq Hne Hb Ha Hv. apply squareb_spec in Hsq. destruct Hsq as [L R].
  unfold mget.
  rewrite mrow_sub_col by (rewrite length_add_col; lia).
  rewrite mrow_add_col by lia.
  rewrite vget_mcol. apply vget_transfer; rewrite ?R; auto.
Qed.

Lemma squareb_transfer (K : matrix) (k mb ma : nat) (x : vec) :
  squareb k K = true -> squareb k (sub_col (add_col K mb x) ma x) = true.
Proof.
  intro H. apply squareb_spec in H. destruct H as [L R]. apply squareb_spec.
  split; [rewrite length_sub_col, length_add_col; exact L|].
  intros v Hv.
  rewrite mrow_sub_col by (rewrite length_add_col; lia).
  rewrite mrow_add_col by lia.
  rewrite length_vsub, length_vadd. apply R; exact Hv.
Qed.

(** ** The move rule *)

Lemma shape_ok_spec (nh : nat) (st : lm_state) :
  shape_okb nh st = true ->
  length (lm_m st) = nh /\
  (forall w, (w < nh)%nat -> (1 <= nth w (lm_m st) O <= nh)%nat) /\
  length (lm_km0 st) = nh /\ length (lm_km1 st) = nh /\
  squareb nh (lm_knm0 st) = true /\ squareb nh (lm_knm1 st) = true.
Proof.
  unfold shape_okb. rewrite !andb_true_iff, !Nat.eqb_eq, forallb_forall.
  intros (((((L & F) & K0) & K1) & S0) & S1). repeat split; auto.
  - assert (I : In (nth w (lm_m st) O) (lm_m st)) by (apply nth_In; lia).
    apply F in I. apply andb_true_iff in I. destruct I as [I _].
    apply Nat.leb_le in I. exact I.
  - assert (I : In (nth w (lm_m st) O) (lm_m st)) by (apply nth_In; lia).
    apply F in I. apply andb_true_iff in I. destruct I as [_ I].
    apply Nat.leb_le in I. exact I.
Qed.

Lemma module_of_range (nh : nat) (st : lm_state) (u : nat) :
  shape_okb nh st = true -> (u < nh)%nat ->
  (module_of st u < nh)%nat /\ nth u (lm_m st) O = (module_of st u + 1)%nat.
Proof.
  intros H Hu. destruct (shape_ok_spec _ _ H) as (_ & R & _).
  specialize (R u Hu). unfold module_of. lia.
Qed.

Lemma tol_positive : 0 < tol.
Proof. reflexivity. Qed.

Lemma delta_Q_own_module gamma c W0 W1 nh st u :
  (module_of st u < nh)%nat ->
  nth (module_of st u) (dQ gamma c W0 W1 nh st u) 0 = 0.
Proof.
  intro H. unfold dQ. apply nth_upd_same. rewrite length_rescaled. exact H.
Qed.

(** The target of a visit is the first module at which the delta vector
    is largest. *)
Lemma argmax_delta_Q gamma c W0 W1 nh st u :
  (u < nh)%nat ->
  let dq := dQ gamma c W0 W1 nh st u in
  let mb := np_argmax dq in
  (mb < nh)%nat /\ nth mb dq 0 = np_max dq /\
  (forall j, (j < nh)%nat -> nth j dq 0 <= nth mb dq 0) /\
  (forall j, (j < mb)%nat -> nth j dq 0 < nth mb dq 0).
Proof.
  intros Hu dq mb.
  assert (Ld : length dq = nh) by apply length_delta_Q.
  assert (Hne : dq <> []) by (intro E; rewrite E in Ld; simpl in Ld; lia).
  destruct (np_argmax_spec dq Hne) as (Hmb & Hmax & Hall & Hfirst).
  fold mb in Hmb, Hmax, Hfirst. rewrite Ld in Hmb, Hall.
  split; [exact Hmb|]. split; [exact Hmax|].
  split; rewrite Hmax; assumption.
Qed.

(** A delta above the tolerance is never the node's own module. *)
Lemma improving_target_differs gamma c W0 W1 nh st u mb :
  (module_of st u < nh)%nat ->
  tol < nth mb (dQ gamma c W0 W1 nh st u) 0 -> mb <> module_of st u.
Proof.
  intros Hma Hgain Eq. rewrite Eq, delta_Q_own_module in Hgain by exact Hma.
  apply (Qlt_irrefl 0). apply (Qlt_trans _ _ _ tol_positive Hgain).
Qed.

(** The accumulators after [move], entry by entry. *)
Lemma move_km W0 W1 nh st u mb cm :
  shape_okb nh st = true -> (mb < nh)%nat -> (module_of st u < nh)%nat ->
  mb <> module_of st u ->
  vget (lm_km0 (move W0 W1 nh st u mb)) cm
  = (if (cm =? mb)%nat then vget (lm_km0 st) cm + vget (kn0 W0 nh) u
     else if (cm =? module_of st u)%nat then vget (lm_km0 st) cm - vget (kn0 W0 nh) u
     else vget (lm_km0 st) cm) /\
  vget (lm_km1 (move W0 W1 nh st u mb)) cm
  = (if (cm =? mb)%nat then vget (lm_km1 st) cm + vget (kn1 W1 nh) u
     else if (cm =? module_of st u)%nat then vget (lm_km1 st) cm - vget (kn1 W1 nh) u
     else vget (lm_km1 st) cm).
Proof.
  intros Hshape Hmb Hma Hdiff.
  destruct (shape_ok_spec _ _ Hshape) as (_ & _ & Lk0 & Lk1 & _).
  unfold move; simpl. split; apply vget_transfer; auto; lia.
Qed.

Lemma move_knm W0 W1 nh st u mb v cm :
  shape_okb nh st = true -> (mb < nh)%nat -> (module_of st u < nh)%nat ->
  mb <> module_of st u -> (v < nh)%nat ->
  mget (lm_knm0 (move W0 W1 nh st u mb)) v cm
  = (if (cm =? mb)%nat then mget (lm_knm0 st) v cm + mget W0 v u
     else if (cm =? module_of st u)%nat then mget (lm_knm0 st) v cm - mget W0 v u
     else mget (lm_knm0 st) v cm) /\
  mget (lm_knm1 (move W0 W1 nh st u mb)) v cm
  = (if (cm =? mb)%nat then mget (lm_knm1 st) v cm + mget W1 v u
     else if (cm =? module_of st u)%nat then mget (lm_knm1 st) v cm - mget W1 v u
     else mget (lm_knm1 st) v cm).
Proof.
  intros Hshape Hmb Hma Hdiff Hv.
  destruct (shape_ok_spec _ _ Hshape) as (_ & _ & _ & _ & S0 & S1).
  unfold move; simpl. split; apply (mget_transfer _ _ nh); auto.
Qed.

(** ** Shapes along the local-moving loop *)

Lemma length_sum_axis0 (k : nat) (A : matrix) : length (sum_axis0 k A) = k.
Proof. unfold sum_axis0. rewrite length_map, length_seq. reflexivity. Qed.

Lemma shape_ok_init (W0 W1 : matrix) (nh : nat) :
  squareb nh W0 = true -> squareb nh W1 = true ->
  shape_okb nh (lm_init W0 W1 nh) = true.
Proof.
  intros H0 H1. unfold shape_okb, lm_init, kn0, kn1.
  cbn [lm_m lm_km0 lm_km1 lm_knm0 lm_knm1].
  rewrite length_seq, !length_sum_axis0, H0, H1, Nat.eqb_refl, !andb_true_r.
  apply forallb_forall. intros x Hx.
  apply in_seq in Hx. apply andb_true_iff. split; apply Nat.leb_le; lia.
Qed.

Lemma shape_ok_move W0 W1 nh st u mb :
  (mb < nh)%nat -> shape_okb nh st = true ->
  shape_okb nh (move W0 W1 nh st u mb) = true.
Proof.
  intros Hmb Hshape. unfold shape_okb in *. unfold move.
  cbn [lm_m lm_km0 lm_km1 lm_knm0 lm_knm1].
  rewrite !andb_true_iff in *.
  destruct Hshape as (((((L & F) & K0) & K1) & S0) & S1).
  rewrite length_upd, !length_vsub, !length_vadd.
  repeat split; auto using squareb_transfer.
  apply forallb_forall. intros x Hx.
  rewrite forallb_forall in F.
  destruct (In_nth _ _ O Hx) as (w & Hw & <-). rewrite length_upd in Hw.
  destruct (Nat.eq_dec u w) as [<-|Hne].
  - rewrite nth_upd_same by exact Hw.
    apply andb_true_iff; split; apply Nat.leb_le; lia.
  - rewrite nth_upd_other by exact Hne. apply F, nth_In, Hw.
Qed.

Lemma shape_ok_step gamma c W0 W1 nh st u :
  (u < nh)%nat -> shape_okb nh st = true ->
  shape_okb nh (fst (node_step gamma c W0 W1 nh st u)) = true.
Proof.
  intros Hu Hshape.
  destruct (argmax_delta_Q gamma c W0 W1 nh st u Hu) as (Hmb & _).
  unfold node_step.
  destruct (Qgtb (np_max (dQ gamma c W0 W1 nh st u)) tol); simpl.
  - apply shape_ok_move; assumption.
  - exact Hshape.
Qed.

Lemma reachable_shape gamma c W0 W1 nh st :
  squareb nh W0 = true -> squareb nh W1 = true ->
  reachable gamma c W0 W1 nh st -> shape_okb nh st = true.
Proof.
  intros H0 H1 R. induction R as [|st u R IH Hu].
  - apply shape_ok_init; assumption.
  - apply shape_ok_step; assumption.
Qed.

(** The loop of the code only visits reachable states. *)
Lemma sweep_from_reachable gamma c W0 W1 nh order :
  Forall (fun u => (u < nh)%nat) order ->
  forall st flag,
    reachable gamma c W0 W1 nh st ->
    reachable gamma c W0 W1 nh
      (fst (fold_left (fun acc u => let r := node_step gamma c W0 W1 nh (fst acc) u in
                                    (fst r, orb (snd acc) (snd r)))
                      order (st, flag))).
Proof.
  induction 1 as [|u t Hu Ht IH]; intros st flag R; simpl; [exact R|].
  apply IH. apply reach_step; assumption.
Qed.

Lemma sweep_reachable gamma c W0 W1 nh order st :
  Forall (fun u => (u < nh)%nat) order ->
  reachable gamma c W0 W1 nh st ->
  reachable gamma c W0 W1 nh (fst (sweep gamma c W0 W1 nh order st)).
Proof.
  intros H R. unfold sweep. apply sweep_from_reachable; assumption.
Qed.

Lemma pass_loop_reachable G gamma c W0 W1 nh :
  in_range G ->
  forall budget st w w' st',
    reachable gamma c W0 W1 nh st ->
    pass_loop G gamma c W0 W1 nh budget st w = (w', Ok st') ->
    reachable gamma c W0 W1 nh st'.
Proof.
  intros HG. induction budget as [|b IH]; intros st w w' st' R H; simpl in H.
  - discriminate H.
  - unfold bind, np_random_permutation in H.
    pose proof (sweep_reachable gamma c W0 W1 nh (G (np_rng w) nh) st (HG _ _) R) as R'.
    destruct (snd (sweep gamma c W0 W1 nh (G (np_rng w) nh) st)).
    + apply (IH _ _ _ _ R' H).
    + unfold ret in H. injection H as _ <-. exact R'.
Qed.

(** ** When both scaling constants are zero *)

Lemma max_from_zero (l : vec) :
  forall best, best == 0 -> Forall (fun x => x == 0) l -> max_from best l == 0.
Proof.
  induction l as [|x t IH]; intros best Hb Hl; simpl; [exact Hb|].
  inversion Hl as [|? ? Hx Ht]; subst.
  apply IH; [|exact Ht]. destruct (Qgtb x best); assumption.
Qed.

Lemma np_max_zero (l : vec) : Forall (fun x => x == 0) l -> np_max l == 0.
Proof.
  intro H. destruct l as [|x t]; [reflexivity|].
  inversion H; subst. apply max_from_zero; assumption.
Qed.

Lemma Forall_upd {A} (P : A -> Prop) (l : list A) (i : nat) (x : A) :
  P x -> Forall P l -> Forall P (upd l i x).
Proof.
  intros Hx Hl. revert i. induction Hl as [|y t Hy Ht IH]; intros [|i]; simpl;
    constructor; auto.
Qed.

Lemma delta_Q_zero gamma c W0 W1 nh st u :
  cfg_d0 c = 0 -> cfg_d1 c = 0 ->
  Forall (fun x => x == 0) (dQ gamma c W0 W1 nh st u).
Proof.
  intros H0 H1. unfold dQ. apply Forall_upd; [reflexivity|].
  unfold rescaled. rewrite H0, H1. apply Forall_forall. intros x Hx.
  apply in_map_iff in Hx. destruct Hx as (p & <- & _). ring.
Qed.

Lemma node_step_zero gamma c W0 W1 nh st u :
  cfg_d0 c = 0 -> cfg_d1 c = 0 ->
  node_step gamma c W0 W1 nh st u = (st, false).
Proof.
  intros H0 H1. unfold node_step.
  assert (E : Qgtb (np_max (dQ gamma c W0 W1 nh st u)) tol = false).
  { apply Qgtb_false.
    rewrite (np_max_zero _ (delta_Q_zero gamma c W0 W1 nh st u H0 H1)).
    apply Qlt_le_weak, tol_positive. }
  rewrite E. reflexivity.
Qed.

Lemma sweep_zero gamma c W0 W1 nh order st :
  cfg_d0 c = 0 -> cfg_d1 c = 0 ->
  sweep gamma c W0 W1 nh order st = (st, false).
Proof.
  intros H0 H1. unfold sweep. induction order as [|u t IH]; simpl; [reflexivity|].
  rewrite (node_step_zero gamma c W0 W1 nh st u H0 H1). simpl. exact IH.
Qed.

Lemma pass_loop_zero G gamma c W0 W1 nh b st w :
  cfg_d0 c = 0 -> cfg_d1 c = 0 ->
  pass_loop G gamma c W0 W1 nh (S b) st w
  = (mkWorld (rng_advance (np_rng w) nh) (os_entropy w) (work w), Ok st).
Proof.
  intros H0 H1. simpl. unfold bind, np_random_permutation.
  rewrite (sweep_zero gamma c W0 W1 nh _ st H0 H1). reflexivity.
Qed.

Lemma levels_S G gamma c n b st :
  levels G gamma c n (S b) st
  = if improving st then bind (level G gamma c n st) (levels G gamma c n b)
    else ret st.
Proof. reflexivity. Qed.

Lemma levels_stop G gamma c n b st w :
  improving st = false -> levels G gamma c n b st w = (w, Ok st).
Proof.
  intro H. destruct b; simpl; rewrite H; reflexivity.
Qed.

(** ** The trace of level values *)

Lemma last_nth_length {A} (l : list A) (d : A) : last l d = nth (length l - 1) l d.
Proof.
  induction l as [|x t IH]; [reflexivity|].
  destruct t as [|y t']; [reflexivity|].
  change (last (x :: y :: t') d) with (last (y :: t') d). rewrite IH.
  simpl. rewrite Nat.sub_0_r. reflexivity.
Qed.

Lemma level_result G gamma c n st w w' st' :
  level G gamma c n st w = (w', Ok st') ->
  hr_h st' = (hr_h st + 1)%nat /\
  exists x, hr_q st' = upd (hr_q st ++ [0]) (hr_h st + 1) x.
Proof.
  unfold level, bind, log, lift, ret. intro H.
  destruct (local_moving G gamma c (hr_W0 st) (hr_W1 st) (hr_nh st) _) as [w1 [lm|e]];
    [|discriminate H].
  destruct (np_max_nat (renumber (lm_m lm))) as [nh|e]; [|discriminate H].
  injection H as _ <-. cbn [hr_h hr_q]. split; [reflexivity|].
  eexists; reflexivity.
Qed.

Lemma trace_inv_level G gamma c n st w w' st' :
  trace_inv st -> improving st = true ->
  level G gamma c n st w = (w', Ok st') -> trace_inv st'.
Proof.
  intros (L & Hh & Q0 & Q1 & Hinc) Himp H.
  destruct (level_result _ _ _ _ _ _ _ _ H) as (Eh & x & Eq).
  assert (Hold : forall i, (i <= hr_h st)%nat -> nth i (hr_q st') 0 = nth i (hr_q st) 0).
  { intros i Hi. rewrite Eq, nth_upd_other by lia. apply app_nth1. lia. }
  unfold trace_inv. rewrite Eh.
  split; [rewrite Eq, length_upd, length_app, L; simpl; lia|].
  split; [lia|].
  split; [rewrite Hold by lia; exact Q0|].
  split; [rewrite Hold by lia; exact Q1|].
  intros i Hi. rewrite !Hold by lia.
  destruct (Nat.eq_dec i (hr_h st)) as [->|Hne].
  - unfold improving in Himp. apply Qgtb_true in Himp. exact Himp.
  - apply Hinc. lia.
Qed.

Lemma trace_inv_levels G gamma c n budget :
  forall st w w' st',
    trace_inv st ->
    levels G gamma c n budget st w = (w', Ok st') ->
    trace_inv st' /\ improving st' = false.
Proof.
  induction budget as [|b IH]; intros st w w' st' Hinv H; simpl in H;
    destruct (improving st) eqn:E;
    try (injection H as _ <-; split; assumption).
  - discriminate H.
  - unfold bind in H.
    destruct (level G gamma c n st w) as [w1 [st1|e]] eqn:El; [|discriminate H].
    apply (IH st1 w1 w' st'); [|exact H].
    apply (trace_inv_level _ _ _ _ _ _ _ _ Hinv E El).
Qed.

Lemma trace_inv_init n W0 W1 :
  trace_inv (mkHier 1 n W0 W1 [[]; seq 1 n] [-(1); 0]).
Proof.
  unfold trace_inv; simpl. repeat split; try lia.
Qed.

Lemma hierarchy_unfold G W gamma qtype seed w :
  hierarchy G W gamma qtype seed w =
  match scaling qtype (total_positive W) (total_negative W) with
  | Ok d => levels G gamma
              (adjust (total_positive W) (fst d) (total_negative W) (snd d))
              (length W) 300
              (mkHier 1 (length W) (mmap positive_part W) (mmap negative_part W)
                      [[]; seq 1 (length W)] [-(1); 0])
              (after_totals seed w)
  | Raise e => (after_totals seed w, Raise e)
  end.
Proof.
  unfold hierarchy, bind. rewrite configure_unfold.
  destruct (scaling qtype (total_positive W) (total_negative W)); reflexivity.
Qed.





(** ** The caps and what is raised at them *)

Lemma chasing_configured (seed : option Z) (w : world) :
  configured chasing_pair "sta" seed w = Ok chasing_cfg.
Proof.
  unfold configured. rewrite configure_unfold. reflexivity.
Qed.

Lemma chase_sweep (order : list nat) (st : lm_state) :
  order = [0; 1]%nat \/ order = [1; 0]%nat -> in_chase st ->
  snd (sweep 1 chasing_cfg chasing_W0 chasing_W1 2 order st) = true /\
  in_chase (fst (sweep 1 chasing_cfg chasing_W0 chasing_W1 2 order st)).
Proof.
  unfold in_chase.
  intros [-> | ->] [-> | [-> | [-> | ->]]]; vm_compute;
    (split; [reflexivity|]);
    first [ left; reflexivity
          | right; left; reflexivity
          | right; right; left; reflexivity
          | right; right; right; reflexivity ].
Qed.

Lemma chase_pass_loop (G : shuffler) (budget : nat) :
  shuffles_pairs G ->
  forall st w, in_chase st ->
    snd (pass_loop G 1 chasing_cfg chasing_W0 chasing_W1 2 budget st w)
    = Raise (NameError "BCTParamError").
Proof.
  intro HG. induction budget as [|b IH]; intros st w Hst.
  - reflexivity.
  - cbn [pass_loop]. unfold bind, np_random_permutation.
    destruct (chase_sweep (G (np_rng w) 2%nat) st (HG _) Hst) as [Hflag Hnext].
    rewrite Hflag. apply IH. exact Hnext.
Qed.

(** C7, evaluated on the directed matrix [[1,1],[0,0]]: every pass moves a
    node, so pass 1001 is reached and the cap fires; the run aborts without
    a result, but what surfaces is [NameError] for the unbound name
    [BCTParamError], not an error carrying the non-convergence message. *)
Theorem pass_cap_raises_name_error (G : shuffler) (seed : option Z) (w : world) :
  shuffles_pairs G ->
  snd (modularity_louvain_und_sign G chasing_pair 1 "sta" seed w)
  = Raise (NameError "BCTParamError").
Proof.
  intro HG. rewrite run_unfold.
  replace (scaling "sta" (total_positive chasing_pair) (total_negative chasing_pair))
    with (@Ok (Q * Q) (1 / total_positive chasing_pair,
                       1 / (total_positive chasing_pair + total_negative chasing_pair)))
    by reflexivity.
  cbn [fst snd].
  replace (adjust (total_positive chasing_pair) (1 / total_positive chasing_pair)
             (total_negative chasing_pair)
             (1 / (total_positive chasing_pair + total_negative chasing_pair)))
    with chasing_cfg by reflexivity.
  unfold optimise.
  change (length chasing_pair) with 2%nat.
  change (levels G 1 chasing_cfg 2 300) with (levels G 1 chasing_cfg 2 (S 299)).
  unfold bind at 1. rewrite levels_S.
  replace (improving (mkHier 1 2 (mmap positive_part chasing_pair)
                        (mmap negative_part chasing_pair) [[]; seq 1 2] [- (1); 0]))
    with true by reflexivity.
  unfold bind at 1. unfold level at 1. cbn [hr_h hr_nh hr_W0 hr_W1 hr_ci hr_q].
  unfold bind at 1. unfold log at 1. unfold bind at 1. unfold local_moving.
  fold chasing_W0 chasing_W1.
  match goal with
  | |- context [pass_loop G 1 chasing_cfg chasing_W0 chasing_W1 2 1000 ?s ?w0] =>
      pose proof (chase_pass_loop G 1000 HG s w0 (or_introl eq_refl)) as Hp;
      destruct (pass_loop G 1 chasing_cfg chasing_W0 chasing_W1 2 1000 s w0)
        as [w1 [lm|e]]
  end; simpl in Hp; [discriminate Hp|].
  injection Hp as ->. reflexivity.
Qed.

Lemma pass_cap_raises_name_error_witness :
  shuffles_pairs sorted_order /\
  snd (modularity_louvain_und_sign sorted_order chasing_pair 1 "sta" (Some 1%Z) world0)
  = Raise (NameError "BCTParamError").
Proof.
  assert (HG : shuffles_pairs sorted_order) by (intro r; left; reflexivity).
  split; [exact HG|].
  exact (pass_cap_raises_name_error sorted_order (Some 1%Z) world0 HG).
Defined.

(** ** Renumbering yields a contiguous range *)

Lemma insert_sorted_In (x y : nat) (l : list nat) :
  In x (insert_sorted y l) <-> x = y \/ In x l.
Proof.
  induction l as [|z t IH]; simpl.
  - intuition.
  - destruct (Nat.ltb_spec y z); [simpl; intuition|].
    destruct (Nat.eqb_spec y z); simpl; [subst; intuition|].
    rewrite IH. intuition.
Qed.

Lemma insert_sorted_sorted (y : nat) (l : list nat) :
  StronglySorted lt l -> StronglySorted lt (insert_sorted y l).
Proof.
  induction 1 as [|z t Hs IH Hall]; simpl.
  - constructor; constructor.
  - destruct (Nat.ltb_spec y z) as [Hlt|Hge].
    + constructor; [constructor; assumption|].
      constructor; [exact Hlt|].
      apply Forall_forall. intros x Hx.
      rewrite Forall_forall in Hall. specialize (Hall x Hx). lia.
    + destruct (Nat.eqb_spec y z) as [E|Hne]; [constructor; assumption|].
      constructor; [exact IH|].
      apply Forall_forall. intros x Hx. apply insert_sorted_In in Hx.
      rewrite Forall_forall in Hall. destruct Hx as [->|Hx]; [lia|auto].
Qed.

Lemma np_unique_In (x : nat) (l : list nat) : In x (np_unique l) <-> In x l.
Proof.
  unfold np_unique. induction l as [|y t IH]; simpl; [tauto|].
  rewrite insert_sorted_In, IH. intuition.
Qed.

Lemma np_unique_sorted (l : list nat) : StronglySorted lt (np_unique l).
Proof.
  unfold np_unique. induction l as [|y t IH]; simpl; [constructor|].
  apply insert_sorted_sorted, IH.
Qed.

Lemma sorted_NoDup (l : list nat) : StronglySorted lt l -> NoDup l.
Proof.
  induction 1 as [|z t Hs IH Hall]; constructor; [|exact IH].
  intro Hin. rewrite Forall_forall in Hall. specialize (Hall z Hin). lia.
Qed.

Lemma index_of_lt (x : nat) (l : list nat) :
  In x l -> (index_of x l < length l)%nat.
Proof.
  induction l as [|y t IH]; simpl; [tauto|]. intro H.
  destruct (Nat.eqb_spec x y); [lia|].
  destruct H as [E|H]; [congruence|]. specialize (IH H). lia.
Qed.

Lemma index_of_nth (l : list nat) (j : nat) :
  NoDup l -> (j < length l)%nat -> index_of (nth j l O) l = j.
Proof.
  intro Hnd. revert j. induction Hnd as [|y t Hy Ht IH]; intros j Hj; simpl in *; [lia|].
  destruct j as [|j].
  - rewrite Nat.eqb_refl. reflexivity.
  - destruct (Nat.eqb_spec (nth j t O) y) as [E|_].
    + exfalso. apply Hy. rewrite <- E. apply nth_In. lia.
    + rewrite IH by lia. reflexivity.
Qed.

Lemma np_unique_length (l : list nat) : (length (np_unique l) <= length l)%nat.
Proof.
  apply NoDup_incl_length.
  - apply sorted_NoDup, np_unique_sorted.
  - intros x Hx. apply np_unique_In. exact Hx.
Qed.

Lemma length_renumber (l : list nat) : length (renumber l) = length l.
Proof. unfold renumber, unique_inverse. rewrite !length_map. reflexivity. Qed.

(** The renumbered labels are exactly [1..k], [k] the number of distinct
    values. *)
Lemma renumber_labels (l : list nat) :
  labels_upto (length l) (length (np_unique l)) (renumber l).
Proof.
  split; [apply length_renumber|]. intro x.
  unfold renumber, unique_inverse. rewrite map_map, in_map_iff. split.
  - intros (y & <- & Hy). apply np_unique_In in Hy.
    pose proof (index_of_lt y _ Hy). lia.
  - intros [H1 Hk]. destruct x as [|j]; [lia|].
    exists (nth j (np_unique l) O). split.
    + f_equal. apply index_of_nth; [apply sorted_NoDup, np_unique_sorted | lia].
    + apply np_unique_In. apply nth_In. lia.
Qed.

Lemma renumber_contiguous (l : list nat) : contiguous (length l) (renumber l).
Proof.
  exists (length (np_unique l)). split; [apply np_unique_length | apply renumber_labels].
Qed.

Lemma fold_max_spec (t : list nat) :
  forall x, let r := fold_left Nat.max t x in
            In r (x :: t) /\ forall y, In y (x :: t) -> (y <= r)%nat.
Proof.
  induction t as [|z t IH]; intro x; simpl.
  - split; [auto|]. intros y [<-|[]]; lia.
  - destruct (IH (Nat.max x z)) as [Hin Hub]. simpl in Hin, Hub. split.
    + destruct Hin as [E|Hin]; [|auto].
      destruct (Nat.max_spec x z) as [[_ Em]|[_ Em]]; rewrite Em in E |- *; auto.
    + intros y [<-|[<-|Hy]].
      * specialize (Hub (Nat.max x z) (or_introl eq_refl)). lia.
      * specialize (Hub (Nat.max x z) (or_introl eq_refl)). lia.
      * apply Hub. auto.
Qed.

(** [np.max] of a vector whose labels are exactly [1..k] is [k]. *)
Lemma np_max_nat_labels (n k : nat) (l : list nat) (r : nat) :
  labels_upto n k l -> np_max_nat l = Ok r -> r = k.
Proof.
  intros [_ Hl] H. destruct l as [|x t]; [discriminate H|].
  injection H as <-.
  destruct (fold_max_spec t x) as [Hin Hub]. cbv zeta in Hin, Hub.
  apply Hl in Hin.
  assert (Hk : (1 <= k)%nat) by lia.
  assert (Hkin : In k (x :: t)) by (apply Hl; lia).
  specialize (Hub k Hkin). lia.
Qed.

(** ** Projection of a level onto the original nodes *)

Lemma length_assign_where (prev cur : list nat) (label x : nat) :
  length prev = length cur -> length (assign_where prev cur label x) = length cur.
Proof.
  intro H. unfold assign_where. rewrite length_map, length_combine, H.
  apply Nat.min_id.
Qed.

Lemma nth_assign_where (prev cur : list nat) (label x i : nat) :
  length prev = length cur -> (i < length cur)%nat ->
  nth i (assign_where prev cur label x) O
  = if (nth i prev O =? label)%nat then x else nth i cur O.
Proof.
  intros H Hi. unfold assign_where.
  set (f := fun p : nat * nat => if (fst p =? label)%nat then x else snd p).
  rewrite (nth_indep _ O (f (O, O)))
    by (rewrite length_map, length_combine, H, Nat.min_id; exact Hi).
  rewrite (map_nth f), combine_nth by exact H. reflexivity.
Qed.

Lemma project_spec (prev m : list nat) (k : nat) :
  forall cur, length prev = length cur ->
    length (project k prev cur m) = length cur /\
    forall i, (i < length cur)%nat ->
      nth i (project k prev cur m) O
      = if ((1 <=? nth i prev O) && (nth i prev O <=? k))%nat
        then nth (nth i prev O - 1) m O
        else nth i cur O.
Proof.
  unfold project. induction k as [|k IH]; intros cur H.
  - simpl. split; [reflexivity|]. intros i Hi.
    destruct (nth i prev O); reflexivity.
  - rewrite seq_S, fold_left_app. cbn [fold_left]. rewrite Nat.add_0_l.
    destruct (IH cur H) as [Hlen Hnth].
    split; [rewrite length_assign_where; congruence|].
    intros i Hi.
    rewrite nth_assign_where by congruence.
    rewrite (Hnth i Hi).
    destruct (Nat.eqb_spec (nth i prev O) (k + 1)) as [E|E].
    + rewrite E.
      replace ((1 <=? k + 1) && (k + 1 <=? S k))%nat with true.
      * f_equal. lia.
      * symmetry. apply andb_true_iff. split; apply Nat.leb_le; lia.
    + destruct (Nat.leb_spec 1 (nth i prev O)); simpl; [|reflexivity].
      destruct (Nat.leb_spec (nth i prev O) k), (Nat.leb_spec (nth i prev O) (S k));
        try reflexivity; lia.
Qed.

(** Composing a labelling onto [1..nh] with a relabelling of [nh] nodes
    onto [1..k] gives a labelling onto [1..k]. *)
Lemma project_labels (n nh k : nat) (prev m : list nat) :
  labels_upto n nh prev -> labels_upto nh k m ->
  labels_upto n k (project nh prev (repeat O n) m).
Proof.
  intros [Lp Hp] [Lm Hm].
  assert (Hlen : length prev = length (repeat O n)) by (rewrite repeat_length; exact Lp).
  destruct (project_spec prev m nh (repeat O n) Hlen) as [Lr Hnth].
  rewrite repeat_length in Lr, Hnth.
  assert (Hval : forall i, (i < n)%nat ->
            (1 <= nth i prev O <= nh)%nat /\
            nth i (project nh prev (repeat O n) m) O = nth (nth i prev O - 1) m O).
  { intros i Hi.
    assert (R : (1 <= nth i prev O <= nh)%nat) by (apply Hp, nth_In; lia).
    split; [exact R|]. rewrite (Hnth i Hi).
    replace ((1 <=? nth i prev O) && (nth i prev O <=? nh))%nat with true;
      [reflexivity|].
    symmetry. apply andb_true_iff. split; apply Nat.leb_le; lia. }
  split; [exact Lr|]. intro x. split.
  - intro Hx. destruct (In_nth _ _ O Hx) as (i & Hi & <-). rewrite Lr in Hi.
    destruct (Hval i Hi) as [R ->]. apply Hm, nth_In. lia.
  - intro Hx. apply Hm in Hx. destruct (In_nth _ _ O Hx) as (j & Hj & <-).
    assert (Hin : In (S j) prev) by (apply Hp; lia).
    destruct (In_nth _ _ O Hin) as (i & Hi & Ei). rewrite Lp in Hi.
    destruct (Hval i Hi) as [_ E]. rewrite Ei in E. simpl in E.
    rewrite Nat.sub_0_r in E. rewrite <- E. apply nth_In. lia.
Qed.

(** ** The local-moving phase keeps one label per node *)

Lemma node_step_length gamma c W0 W1 nh st u :
  length (lm_m (fst (node_step gamma c W0 W1 nh st u))) = length (lm_m st).
Proof.
  unfold node_step.
  destruct (Qgtb (np_max (dQ gamma c W0 W1 nh st u)) tol); simpl;
    [apply length_upd | reflexivity].
Qed.

Lemma sweep_length gamma c W0 W1 nh order st :
  length (lm_m (fst (sweep gamma c W0 W1 nh order st))) = length (lm_m st).
Proof.
  unfold sweep. generalize false.
  revert st. induction order as [|u t IH]; intros st flag; simpl; [reflexivity|].
  rewrite IH. apply node_step_length.
Qed.

Lemma pass_loop_length G gamma c W0 W1 nh budget :
  forall st w w' st',
    pass_loop G gamma c W0 W1 nh budget st w = (w', Ok st') ->
    length (lm_m st') = length (lm_m st).
Proof.
  induction budget as [|b IH]; intros st w w' st' H; simpl in H; [discriminate H|].
  unfold bind, np_random_permutation in H.
  destruct (snd (sweep gamma c W0 W1 nh (G (np_rng w) nh) st)).
  - rewrite (IH _ _ _ _ H). apply sweep_length.
  - unfold ret in H. injection H as _ <-. apply sweep_length.
Qed.

(** ** Labels stay contiguous along the hierarchy *)

Lemma ci_inv_init (n : nat) (W0 W1 : matrix) :
  ci_inv n (mkHier 1 n W0 W1 [[]; seq 1 n] [-(1); 0]).
Proof.
  assert (L : labels_upto n n (seq 1 n)).
  { split; [apply length_seq|]. intro x. rewrite in_seq. lia. }
  unfold ci_inv; simpl.
  split; [reflexivity|]. split; [lia|]. split; [lia|]. split; [exact L|].
  intros j Hj. replace j with 1%nat by lia. exists n. split; [lia | exact L].
Qed.

Lemma ci_inv_level G gamma c n st w w' st' :
  ci_inv n st -> level G gamma c n st w = (w', Ok st') -> ci_inv n st'.
Proof.
  intros (L & Hh & Hnh & Hlast & Hall) H.
  unfold level, bind, log, lift, ret in H.
  destruct (local_moving G gamma c (hr_W0 st) (hr_W1 st) (hr_nh st) _)
    as [w1 [lm|e]] eqn:Elm; [|discriminate H].
  destruct (np_max_nat (renumber (lm_m lm))) as [nh'|e] eqn:Emax; [|discriminate H].
  injection H as _ <-.
  assert (Llm : length (lm_m lm) = hr_nh st).
  { unfold local_moving in Elm. rewrite (pass_loop_length _ _ _ _ _ _ _ _ _ _ _ Elm).
    apply length_seq. }
  pose proof (renumber_labels (lm_m lm)) as Hm. rewrite Llm in Hm.
  pose proof (np_unique_length (lm_m lm)) as Hk. rewrite Llm in Hk.
  pose proof (np_max_nat_labels _ _ _ _ Hm Emax) as Enh. subst nh'.
  assert (Eprev : nth (hr_h st + 1 - 1) (hr_ci st ++ [repeat O n]) []
                  = nth (hr_h st) (hr_ci st) []).
  { replace (hr_h st + 1 - 1)%nat with (hr_h st) by lia. apply app_nth1. lia. }
  assert (Ecur : nth (hr_h st + 1) (hr_ci st ++ [repeat O n]) [] = repeat O n).
  { rewrite app_nth2 by lia. replace (hr_h st + 1 - length (hr_ci st))%nat with O by lia.
    reflexivity. }
  rewrite Eprev, Ecur.
  pose proof (project_labels n (hr_nh st) _ _ _ Hlast Hm) as Hnew.
  unfold ci_inv. cbn [hr_h hr_nh hr_ci].
  assert (Lci : length (hr_ci st ++ [repeat O n]) = S (hr_h st + 1))
    by (rewrite length_app, L; simpl; lia).
  split; [rewrite length_upd; exact Lci|].
  split; [lia|]. split; [lia|].
  split; [rewrite nth_upd_same by lia; exact Hnew|].
  intros j Hj. destruct (Nat.eq_dec j (hr_h st + 1)) as [->|Hne].
  - rewrite nth_upd_same by lia.
    exists (length (np_unique (lm_m lm))). split; [lia | exact Hnew].
  - rewrite nth_upd_other by lia. rewrite app_nth1 by lia. apply Hall. lia.
Qed.

Lemma ci_inv_levels G gamma c n budget :
  forall st w w' st',
    ci_inv n st -> levels G gamma c n budget st w = (w', Ok st') -> ci_inv n st'.
Proof.
  induction budget as [|b IH]; intros st w w' st' Hinv H; simpl in H;
    destruct (improving st);
    try (injection H as _ <-; exact Hinv).
  - discriminate H.
  - unfold bind in H.
    destruct (level G gamma c n st w) as [w1 [st1|e]] eqn:El; [|discriminate H].
    apply (IH st1 w1 w' st'); [|exact H].
    apply (ci_inv_level _ _ _ _ _ _ _ _ Hinv El).
Qed.

(** C5: when the optimizer returns, the returned vector has one label for
    each of the [n] original nodes and its labels are exactly [1..k] for
    some [k <= n]; the same holds for the labelling [ci[j]] kept for every
    hierarchy level [j]. *)
Theorem labels_contiguous (G : shuffler) (W : matrix) (gamma : Q)
    (qtype : string) (seed : option Z) (w w' : world) (st : hier) :
  hierarchy G W gamma qtype seed w = (w', Ok st) ->
  modularity_louvain_und_sign G W gamma qtype seed w
  = (w', Ok (renumber (last (hr_ci st) []), last (hr_q st) 0)) /\
  contiguous (length W) (renumber (last (hr_ci st) [])) /\
  forall j, (1 <= j <= hr_h st)%nat -> contiguous (length W) (nth j (hr_ci st) []).
Proof.
  intro H.
  split; [unfold modularity_louvain_und_sign, bind; rewrite H; reflexivity|].
  rewrite hierarchy_unfold in H.
  destruct (scaling qtype (total_positive W) (total_negative W)) as [d|e];
    [|discriminate H].
  destruct (ci_inv_levels _ _ _ _ _ _ _ _ _ (ci_inv_init _ _ _) H)
    as (L & Hh & Hnh & [Llast Hlast] & Hall).
  split; [|exact Hall].
  rewrite last_nth_length, L. simpl. rewrite Nat.sub_0_r.
  rewrite <- Llast at 1. apply renumber_contiguous.
Qed.

Lemma labels_contiguous_witness :
  exists w' st,
    hierarchy sorted_order two_cliques 1 "sta" (Some 1%Z) world0 = (w', Ok st) /\
    contiguous 6 (renumber (last (hr_ci st) [])) /\
    contiguous 6 (nth 1 (hr_ci st) []).
Proof.
  destruct (hierarchy sorted_order two_cliques 1 "sta" (Some 1%Z) world0)
    as [w' [st|e]] eqn:E.
  - exists w', st. split; [reflexivity|].
    destruct (labels_contiguous sorted_order two_cliques 1 "sta" (Some 1%Z)
                world0 w' st E) as (_ & Hret & Hall).
    split; [exact Hret|]. apply Hall.
    vm_compute in E. injection E as _ <-. simpl. lia.
  - exfalso. vm_compute in E. discriminate E.
Defined.

(** * Beyond the claims: the rest of the function *)

(** ** The sign split and the totals *)

Lemma positive_part_cases (x : Q) :
  (0 < x /\ positive_part x = x /\ negative_part x = 0) \/
  (x < 0 /\ positive_part x = 0 /\ negative_part x = - x) \/
  (x == 0 /\ positive_part x = 0 /\ negative_part x = 0).
Proof.
  unfold positive_part, negative_part.
  destruct (Qgtb x 0) eqn:Ep, (Qgtb 0 x) eqn:En.
  - apply Qgtb_true in Ep, En. exfalso. apply (Qlt_irrefl 0), (Qlt_trans _ x); assumption.
  - left. apply Qgtb_true in Ep. auto.
  - right; left. apply Qgtb_true in En. auto.
  - right; right. apply Qgtb_false in Ep, En. split; [|auto].
    apply Qle_antisym; assumption.
Qed.

Lemma mget_mmap (f : Q -> Q) (A : matrix) (i j : nat) :
  f 0 = 0 -> mget (mmap f A) i j = f (mget A i j).
Proof.
  intro H0. unfold mget, mrow, mmap, vget.
  change (@nil Q) with (map f []) at 1. rewrite (map_nth (map f)).
  rewrite <- H0 at 1. apply map_nth.
Qed.

(** X1: The split [W0 = W * (W > 0)], [W1 = -W * (W < 0)]: both parts are
    entrywise non-negative, their difference is [W], and at no position are
    both non-zero. *)
Theorem sign_split_entries (W : matrix) (i j : nat) :
  0 <= mget (mmap positive_part W) i j /\
  0 <= mget (mmap negative_part W) i j /\
  mget (mmap positive_part W) i j - mget (mmap negative_part W) i j == mget W i j /\
  mget (mmap positive_part W) i j * mget (mmap negative_part W) i j == 0.
Proof.
  rewrite !mget_mmap by reflexivity.
  destruct (positive_part_cases (mget W i j)) as [(H & -> & ->)|[(H & -> & ->)|(H & -> & ->)]].
  - repeat split; try lra.
  - repeat split; try lra.
  - repeat split; try lra.
Qed.

(** ** Renumbering keeps the partition *)

Lemma index_of_monotone (U : list nat) :
  StronglySorted lt U ->
  forall x y, In x U -> In y U ->
    ((index_of x U <= index_of y U)%nat <-> (x <= y)%nat).
Proof.
  induction 1 as [|z t Hs IH Hall]; intros x y Hx Hy; [destruct Hx|].
  rewrite Forall_forall in Hall. simpl.
  destruct (Nat.eqb_spec x z) as [Ex|Ex], (Nat.eqb_spec y z) as [Ey|Ey].
  - subst. split; lia.
  - destruct Hy as [Hy|Hy]; [congruence|]. specialize (Hall y Hy). subst. split; lia.
  - destruct Hx as [Hx|Hx]; [congruence|]. specialize (Hall x Hx). subst. split; lia.
  - destruct Hx as [Hx|Hx]; [congruence|]. destruct Hy as [Hy|Hy]; [congruence|].
    rewrite <- (IH x y Hx Hy). split; lia.
Qed.

Lemma nth_renumber (l : list nat) (i : nat) :
  (i < length l)%nat ->
  nth i (renumber l) O = S (index_of (nth i l O) (np_unique l)).
Proof.
  intro H. unfold renumber, unique_inverse. rewrite map_map.
  rewrite (nth_indep _ O (S (index_of O (np_unique l))))
    by (rewrite length_map; exact H).
  apply (map_nth (fun x => S (index_of x (np_unique l)))).
Qed.

(** X3: [np.unique(..., return_inverse=True)] followed by [+= 1] renames the
    labels without merging or splitting communities and keeps their order:
    two nodes compare after renumbering as they did before. *)
Theorem renumber_keeps_order (l : list nat) (i j : nat) :
  (i < length l)%nat -> (j < length l)%nat ->
  ((nth i (renumber l) O <= nth j (renumber l) O)%nat
   <-> (nth i l O <= nth j l O)%nat) /\
  (nth i (renumber l) O = nth j (renumber l) O <-> nth i l O = nth j l O).
Proof.
  intros Hi Hj. rewrite !nth_renumber by assumption.
  assert (Ii : In (nth i l O) (np_unique l)) by (apply np_unique_In, nth_In, Hi).
  assert (Ij : In (nth j l O) (np_unique l)) by (apply np_unique_In, nth_In, Hj).
  pose proof (index_of_monotone _ (np_unique_sorted l) _ _ Ii Ij) as M1.
  pose proof (index_of_monotone _ (np_unique_sorted l) _ _ Ij Ii) as M2.
  split; [rewrite <- M1; lia|]. split; intro E.
  - apply Nat.le_antisymm; [apply M1 | apply M2]; lia.
  - f_equal. apply Nat.le_antisymm; [apply M1 | apply M2]; lia.
Qed.

Lemma renumber_keeps_order_witness :
  (0 < length [7; 3; 7; 5])%nat /\ (2 < length [7; 3; 7; 5])%nat /\
  nth 0 (renumber [7; 3; 7; 5]%nat) O = nth 2 (renumber [7; 3; 7; 5]%nat) O.
Proof.
  assert (H0 : (0 < length [7; 3; 7; 5])%nat) by (simpl; lia).
  assert (H2 : (2 < length [7; 3; 7; 5])%nat) by (simpl; lia).
  split; [exact H0|]. split; [exact H2|].
  apply (proj2 (renumber_keeps_order [7; 3; 7; 5]%nat 0 2 H0 H2)). reflexivity.
Defined.

(** ** The aggregated matrix *)

Lemma mrow_upd_same (A : matrix) (i : nat) (r : vec) :
  (i < length A)%nat -> mrow (upd A i r) i = r.
Proof. intro H. unfold mrow. apply nth_upd_same; exact H. Qed.

Lemma mrow_upd_other (A : matrix) (i a : nat) (r : vec) :
  i <> a -> mrow (upd A i r) a = mrow A a.
Proof. intro H. unfold mrow. apply nth_upd_other; exact H. Qed.

Lemma mget_mset (A : matrix) (k i j a b : nat) (x : Q) :
  squareb k A = true -> (i < k)%nat -> (j < k)%nat ->
  mget (mset A i j x) a b
  = if ((a =? i) && (b =? j))%nat then x else mget A a b.
Proof.
  intros Hsq Hi Hj. apply squareb_spec in Hsq. destruct Hsq as [L R].
  unfold mget, mset.
  destruct (Nat.eqb_spec a i) as [->|Ha]; simpl.
  - rewrite mrow_upd_same by lia.
    destruct (Nat.eqb_spec b j) as [->|Hb].
    + unfold vget. apply nth_upd_same. rewrite R; assumption.
    + unfold vget. apply nth_upd_other. congruence.
  - rewrite mrow_upd_other by congruence. reflexivity.
Qed.

Lemma squareb_mset (A : matrix) (k i j : nat) (x : Q) :
  squareb k A = true -> squareb k (mset A i j x) = true.
Proof.
  intro Hsq. apply squareb_spec in Hsq. destruct Hsq as [L R].
  apply squareb_spec. unfold mset. split; [rewrite length_upd; exact L|].
  intros v Hv. destruct (Nat.eq_dec i v) as [->|Hne].
  - rewrite mrow_upd_same by lia. rewrite length_upd. apply R; exact Hv.
  - rewrite mrow_upd_other by exact Hne. apply R; exact Hv.
Qed.

Lemma squareb_zeros2 (k : nat) : squareb k (zeros2 k) = true.
Proof.
  apply squareb_spec. unfold zeros2. split; [apply repeat_length|].
  intros v Hv. unfold mrow.
  rewrite (nth_indep _ [] (repeat 0 k)) by (rewrite repeat_length; exact Hv).
  rewrite nth_repeat. apply repeat_length.
Qed.

Lemma mget_zeros2 (k a b : nat) : mget (zeros2 k) a b = 0.
Proof.
  unfold mget, mrow, zeros2, vget.
  destruct (Nat.lt_ge_cases a k) as [Ha|Ha].
  - rewrite (nth_indep _ [] (repeat 0 k)) by (rewrite repeat_length; exact Ha).
    rewrite nth_repeat.
    destruct (Nat.lt_ge_cases b k) as [Hb|Hb].
    + apply nth_repeat.
    + apply nth_overflow. rewrite repeat_length. exact Hb.
  - rewrite (nth_overflow (repeat (repeat 0 k) k)) by (rewrite repeat_length; exact Ha).
    destruct b; reflexivity.
Qed.

Lemma fold_left_flat_map {A B C} (f : A -> C -> A) (h : B -> list C) (l : list B) :
  forall a, fold_left f (flat_map h l) a = fold_left (fun a x => fold_left f (h x) a) l a.
Proof.
  induction l as [|x t IH]; intro a; simpl; [reflexivity|].
  rewrite fold_left_app. apply IH.
Qed.

Lemma fold_left_over_map {A B C} (f : A -> C -> A) (g : B -> C) (l : list B) :
  forall a, fold_left f (map g l) a = fold_left (fun a x => f a (g x)) l a.
Proof.
  induction l as [|x t IH]; intro a; simpl; [reflexivity|]. apply IH.
Qed.

Lemma fold_left_pointwise {A B} (f g : A -> B -> A) (l : list B) :
  (forall a x, f a x = g a x) -> forall a, fold_left f l a = fold_left g l a.
Proof.
  intro H. induction l as [|x t IH]; intro a; simpl; [reflexivity|].
  rewrite H. apply IH.
Qed.

Lemma aggregate_as_cells (A : matrix) (m : list nat) (nh : nat) :
  aggregate A m nh = fold_left (fill_cell (block_sum A m)) (upper_cells nh) (zeros2 nh).
Proof.
  unfold aggregate, upper_cells. rewrite fold_left_flat_map.
  apply fold_left_pointwise. intros wn u. rewrite fold_left_over_map. reflexivity.
Qed.

Lemma fill_cell_entry (g : nat -> nat -> Q) (wn : matrix) (k u v a b : nat) :
  squareb k wn = true -> (u <= v)%nat -> (v < k)%nat -> (a < k)%nat -> (b < k)%nat ->
  mget (fill_cell g wn (u, v)) a b
  = if cell_eqb (Nat.min a b, Nat.max a b) (u, v) then g u v else mget wn a b.
Proof.
  intros Hsq Huv Hv Ha Hb. unfold fill_cell, cell_eqb. cbn [fst snd].
  assert (Hu : (u < k)%nat) by lia.
  rewrite (mget_mset _ k) by (auto using squareb_mset).
  rewrite !(mget_mset _ k) by assumption.
  rewrite !Nat.eqb_refl. cbn [andb].
  destruct (Nat.eqb_spec a v), (Nat.eqb_spec b u), (Nat.eqb_spec a u),
    (Nat.eqb_spec b v), (Nat.eqb_spec (Nat.min a b) u), (Nat.eqb_spec (Nat.max a b) v);
    cbn [andb]; try reflexivity; lia.
Qed.

Lemma squareb_fill_cell (g : nat -> nat -> Q) (wn : matrix) (k : nat) (p : nat * nat) :
  squareb k wn = true -> squareb k (fill_cell g wn p) = true.
Proof. intro H. unfold fill_cell. auto using squareb_mset. Qed.

Lemma fold_cells (g : nat -> nat -> Q) (k : nat) (ps : list (nat * nat)) :
  Forall (fun p => (fst p <= snd p)%nat /\ (snd p < k)%nat) ps ->
  forall wn, squareb k wn = true ->
    squareb k (fold_left (fill_cell g) ps wn) = true /\
    forall a b, (a < k)%nat -> (b < k)%nat ->
      mget (fold_left (fill_cell g) ps wn) a b
      = if existsb (cell_eqb (Nat.min a b, Nat.max a b)) ps
        then g (Nat.min a b) (Nat.max a b) else mget wn a b.
Proof.
  induction 1 as [|[u v] t [Huv Hv] Ht IH]; intros wn Hsq; simpl.
  - split; [exact Hsq|]. reflexivity.
  - cbn [fst snd] in Huv, Hv.
    destruct (IH _ (squareb_fill_cell g wn k (u, v) Hsq)) as [Hsq' Hent].
    split; [exact Hsq'|]. intros a b Ha Hb.
    rewrite (Hent a b Ha Hb), (fill_cell_entry g wn k u v a b) by assumption.
    destruct (existsb (cell_eqb (Nat.min a b, Nat.max a b)) t) eqn:Et;
      [rewrite orb_true_r; reflexivity|].
    rewrite orb_false_r.
    destruct (cell_eqb (Nat.min a b, Nat.max a b) (u, v)) eqn:E; [|reflexivity].
    unfold cell_eqb in E. cbn [fst snd] in E. apply andb_true_iff in E.
    destruct E as [E1 E2]. apply Nat.eqb_eq in E1, E2. rewrite E1, E2. reflexivity.
Qed.

Lemma upper_cells_In (nh u v : nat) :
  In (u, v) (upper_cells nh) <-> (u <= v)%nat /\ (v < nh)%nat.
Proof.
  unfold upper_cells. rewrite in_flat_map. split.
  - intros (x & Hx & Hin). apply in_map_iff in Hin.
    destruct Hin as (y & E & Hy). injection E as -> ->.
    apply in_seq in Hx, Hy. lia.
  - intros [Huv Hv]. exists u. split; [apply in_seq; lia|].
    apply in_map_iff. exists v. split; [reflexivity|]. apply in_seq. lia.
Qed.

(** X4: The aggregated matrix built by the double loop is square of side [nh],
    its entry [(a, b)] is the sum of the block of the old matrix between
    the two communities, taken from the upper triangle, and it is therefore
    symmetric whatever the (square) old matrix was. *)
Theorem aggregate_entries (A : matrix) (m : list nat) (nh a b : nat) :
  squareb (length m) A = true -> (a < nh)%nat -> (b < nh)%nat ->
  squareb nh (aggregate A m nh) = true /\
  mget (aggregate A m nh) a b = block_sum A m (Nat.min a b) (Nat.max a b) /\
  mget (aggregate A m nh) a b = mget (aggregate A m nh) b a.
Proof.
  intros _ Ha Hb. rewrite aggregate_as_cells.
  assert (Hps : Forall (fun p => (fst p <= snd p)%nat /\ (snd p < nh)%nat) (upper_cells nh)).
  { apply Forall_forall. intros [u v] Hin. apply upper_cells_In in Hin. exact Hin. }
  destruct (fold_cells (block_sum A m) nh _ Hps _ (squareb_zeros2 nh)) as [Hsq Hent].
  assert (Hin : forall x y, (x < nh)%nat -> (y < nh)%nat ->
            existsb (cell_eqb (Nat.min x y, Nat.max x y)) (upper_cells nh) = true).
  { intros x y Hx Hy. apply existsb_exists. exists (Nat.min x y, Nat.max x y).
    split; [apply upper_cells_In; lia|].
    unfold cell_eqb. rewrite !Nat.eqb_refl. reflexivity. }
  split; [exact Hsq|].
  rewrite (Hent a b Ha Hb), (Hent b a Hb Ha), !Hin by assumption.
  split; [reflexivity|]. rewrite Nat.min_comm, Nat.max_comm. reflexivity.
Qed.

Lemma aggregate_entries_witness :
  squareb (length [1; 2]%nat) chasing_pair = true /\ (1 < 2)%nat /\ (0 < 2)%nat /\
  mget (aggregate chasing_pair [1; 2]%nat 2) 1 0 == 1.
Proof.
  assert (H1 : (1 < 2)%nat) by lia. assert (H0 : (0 < 2)%nat) by lia.
  split; [reflexivity|]. split; [exact H1|]. split; [exact H0|].
  rewrite (proj1 (proj2 (aggregate_entries chasing_pair [1; 2]%nat 2 1 0 eq_refl H1 H0))).
  vm_compute. reflexivity.
Defined.

(** ** What the local-moving phase returns *)

(** X7: When the local-moving phase returns, [m] still holds one label per
    node, and every label lies in [1..nh]. *)
Theorem local_moving_result_labels (G : shuffler) (gamma : Q) (c : config)
    (W0 W1 : matrix) (nh : nat) (w w' : world) (lm : lm_state) :
  in_range G -> squareb nh W0 = true -> squareb nh W1 = true ->
  local_moving G gamma c W0 W1 nh w = (w', Ok lm) ->
  length (lm_m lm) = nh /\
  (forall u, (u < nh)%nat -> (1 <= nth u (lm_m lm) O <= nh)%nat).
Proof.
  intros HG H0 H1 H. unfold local_moving in H.
  pose proof (pass_loop_reachable G gamma c W0 W1 nh HG _ _ _ _ _
                (reach_init gamma c W0 W1 nh) H) as R.
  pose proof (reachable_shape gamma c W0 W1 nh lm H0 H1 R) as Hshape.
  destruct (shape_ok_spec _ _ Hshape) as (L & Rg & _).
  split; [exact L | exact Rg].
Qed.





Lemma sorted_order_in_range : in_range sorted_order.
Proof.
  intros r n. apply Forall_forall. intros u H. apply in_seq in H. lia.
Qed.

Lemma local_moving_result_labels_witness :
  exists w' lm,
    local_moving sorted_order 1 loop_and_edge_cfg loop_and_edge_W0 loop_and_edge_W1 2 world0
    = (w', Ok lm) /\
    length (lm_m lm) = 2%nat /\
    (1 <= nth 0 (lm_m lm) O <= 2)%nat.
Proof.
  destruct (local_moving sorted_order 1 loop_and_edge_cfg loop_and_edge_W0
              loop_and_edge_W1 2 world0) as [w' [lm|e]] eqn:E.
  - exists w', lm. split; [reflexivity|].
    destruct (local_moving_result_labels sorted_order 1 loop_and_edge_cfg
                loop_and_edge_W0 loop_and_edge_W1 2 world0 w' lm
                sorted_order_in_range eq_refl eq_refl E) as (L & Rg).
    split; [exact L | apply Rg; lia].
  - exfalso. vm_compute in E. discriminate E.
Defined.


(** ** Bounded work *)

Lemma drawn_count_advance (r : rng_state) (n : nat) :
  drawn_count (rng_advance r n) = S (drawn_count r).
Proof.
  destruct r; simpl; rewrite length_app; simpl; lia.
Qed.

Lemma pass_loop_draws G gamma c W0 W1 nh budget :
  forall st w,
    let r := pass_loop G gamma c W0 W1 nh budget st w in
    (drawn_count (np_rng (fst r)) <= drawn_count (np_rng w) + budget)%nat /\
    (is_ok (snd r) = true ->
       (drawn_count (np_rng w) + 1 <= drawn_count (np_rng (fst r)))%nat) /\
    (is_ok (snd r) = false ->
       snd r = Raise (NameError "BCTParamError") /\
       drawn_count (np_rng (fst r)) = (drawn_count (np_rng w) + budget)%nat).
Proof.
  induction budget as [|b IH]; intros st w; cbn zeta.
  - simpl. split; [lia|]. split; [discriminate|]. intros _. split; [reflexivity | lia].
  - cbn [pass_loop]. unfold bind, np_random_permutation.
    destruct (snd (sweep gamma c W0 W1 nh (G (np_rng w) nh) st)).
    + match goal with
      | |- context [pass_loop G gamma c W0 W1 nh b ?s ?w0] =>
          specialize (IH s w0); cbn zeta in IH;
          destruct (pass_loop G gamma c W0 W1 nh b s w0) as [w1 r1]
      end.
      cbn [fst snd np_rng] in *. rewrite drawn_count_advance in IH.
      destruct IH as (I1 & I2 & I3).
      split; [lia|]. split.
      * intro Hok. specialize (I2 Hok). lia.
      * intro Hno. destruct (I3 Hno) as [E1 E2]. split; [exact E1 | lia].
    + unfold ret. cbn [fst snd np_rng is_ok]. rewrite drawn_count_advance.
      split; [lia|]. split; [intros _; lia | discriminate].
Qed.

(** X9: On square level matrices, one local-moving phase makes between 1 and 1000 passes when it
    returns; when it raises, it has made exactly 1000 passes and what is
    raised is the [NameError] for [BCTParamError]. *)
Theorem local_moving_pass_count (G : shuffler) (gamma : Q) (c : config)
    (W0 W1 : matrix) (nh : nat) (w : world) :
  squareb nh W0 = true -> squareb nh W1 = true ->
  let r := local_moving G gamma c W0 W1 nh w in
  let passes := (drawn_count (np_rng (fst r)) - drawn_count (np_rng w))%nat in
  (if is_ok (snd r) then (1 <= passes <= 1000)%nat
   else passes = 1000%nat /\ snd r = Raise (NameError "BCTParamError")).
Proof.
  intros _ _. cbn zeta. unfold local_moving.
  destruct (pass_loop_draws G gamma c W0 W1 nh 1000 (lm_init W0 W1 nh) w)
    as (I1 & I2 & I3).
  destruct (is_ok (snd (pass_loop G gamma c W0 W1 nh 1000 (lm_init W0 W1 nh) w))).
  - specialize (I2 eq_refl). lia.
  - destruct (I3 eq_refl) as [E1 E2]. split; [lia | exact E1].
Qed.

Lemma local_moving_pass_count_witness :
  squareb 2 chasing_W0 = true /\ squareb 2 chasing_W1 = true /\
  (if is_ok (snd (local_moving sorted_order 1 chasing_cfg chasing_W0 chasing_W1 2 world0))
   then (1 <= drawn_count (np_rng (fst (local_moving sorted_order 1 chasing_cfg
                                          chasing_W0 chasing_W1 2 world0)))
              - drawn_count (np_rng world0) <= 1000)%nat
   else (drawn_count (np_rng (fst (local_moving sorted_order 1 chasing_cfg
                                     chasing_W0 chasing_W1 2 world0)))
         - drawn_count (np_rng world0))%nat = 1000%nat /\
        snd (local_moving sorted_order 1 chasing_cfg chasing_W0 chasing_W1 2 world0)
        = Raise (NameError "BCTParamError")).
Proof.
  split; [reflexivity|]. split; [reflexivity|].
  exact (local_moving_pass_count sorted_order 1 chasing_cfg chasing_W0 chasing_W1 2
           world0 eq_refl eq_refl).
Defined.

Lemma level_draws G gamma c n st w :
  (drawn_count (np_rng (fst (level G gamma c n st w)))
   <= drawn_count (np_rng w) + 1000)%nat.
Proof.
  unfold level, bind, log, lift, ret.
  match goal with
  | |- context [local_moving G gamma c ?a ?b ?k ?w0] =>
      destruct (pass_loop_draws G gamma c a b k 1000 (lm_init a b k) w0) as (I1 & _);
      unfold local_moving;
      destruct (pass_loop G gamma c a b k 1000 (lm_init a b k) w0) as [w1 [lm|e]]
  end; cbn [fst snd np_rng] in *.
  - destruct (np_max_nat (renumber (lm_m lm))); cbn [fst np_rng]; lia.
  - lia.
Qed.

Lemma levels_bounds G gamma c n budget :
  forall st w,
    let r := levels G gamma c n budget st w in
    (drawn_count (np_rng (fst r)) <= drawn_count (np_rng w) + budget * 1000)%nat /\
    (forall st', snd r = Ok st' -> (hr_h st' <= hr_h st + budget)%nat).
Proof.
  induction budget as [|b IH]; intros st w; cbn zeta; cbn [levels];
    destruct (improving st).
  - simpl. split; [lia|]. intros st' H; discriminate H.
  - simpl. split; [lia|]. intros st' H. injection H as <-. lia.
  - unfold bind.
    pose proof (level_draws G gamma c n st w) as D.
    destruct (level G gamma c n st w) as [w1 [st1|e]] eqn:El; cbn [fst snd] in *.
    + destruct (level_result _ _ _ _ _ _ _ _ El) as [Eh _].
      destruct (IH st1 w1) as [I1 I2]. split; [lia|].
      intros st' H. specialize (I2 st' H). lia.
    + split; [lia|]. intros st' H; discriminate H.
  - unfold ret; simpl. split; [lia|]. intros st' H. injection H as <-. lia.
Qed.

Lemma after_totals_drawn (seed : option Z) (w : world) :
  drawn_count (np_rng (after_totals seed w)) = O.
Proof. destruct seed; reflexivity. Qed.

(** X10: Whatever the input and however the run ends, at most 300 x 1000
    permutations are drawn from the generator after it is seeded. *)
Theorem run_draws_bounded (G : shuffler) (W : matrix) (gamma : Q)
    (qtype : string) (seed : option Z) (w : world) :
  (drawn_count (np_rng (fst (modularity_louvain_und_sign G W gamma qtype seed w)))
   <= 300 * 1000)%nat.
Proof.
  rewrite run_unfold.
  destruct (scaling qtype (total_positive W) (total_negative W)) as [d|e].
  - unfold optimise, bind.
    match goal with
    | |- context [levels G gamma ?c ?n 300 ?s ?w0] =>
        destruct (levels_bounds G gamma c n 300 s w0) as [I1 _];
        destruct (levels G gamma c n 300 s w0) as [w1 [st|e]]
    end; cbn [fst snd np_rng] in *; unfold ret; cbn [fst];
      rewrite after_totals_drawn in I1; lia.
  - cbn [fst]. rewrite after_totals_drawn. lia.
Qed.

(** X11: A run on a square matrix that returns has computed at most 300 levels: [h] ends at 301
    or below, and [ci] and [q] hold at most 302 entries. *)
Theorem hierarchy_levels_bounded (G : shuffler) (W : matrix) (gamma : Q)
    (qtype : string) (seed : option Z) (w w' : world) (st : hier) :
  squareb (length W) W = true ->
  hierarchy G W gamma qtype seed w = (w', Ok st) ->
  (hr_h st <= 301)%nat /\ (length (hr_ci st) <= 302)%nat /\ (length (hr_q st) <= 302)%nat.
Proof.
  intros _ H. pose proof H as H1. rewrite hierarchy_unfold in H1.
  destruct (scaling qtype (total_positive W) (total_negative W)) as [d|e];
    [|discriminate H1].
  match type of H1 with
  | levels G gamma ?c ?n 300 ?s ?w0 = _ =>
      destruct (levels_bounds G gamma c n 300 s w0) as [_ I2];
      destruct (ci_inv_levels _ _ _ _ _ _ _ _ _ (ci_inv_init _ _ _) H1) as (Lci & _);
      destruct (trace_inv_levels _ _ _ _ _ _ _ _ _ (trace_inv_init _ _ _) H1)
        as ((Lq & _) & _);
      rewrite H1 in I2
  end.
  specialize (I2 st eq_refl). cbn [hr_h] in I2. lia.
Qed.

Lemma hierarchy_levels_bounded_witness :
  exists w' st,
    hierarchy sorted_order two_cliques 1 "sta" (Some 1%Z) world0 = (w', Ok st) /\
    (hr_h st <= 301)%nat.
Proof.
  destruct (hierarchy sorted_order two_cliques 1 "sta" (Some 1%Z) world0)
    as [w' [st|e]] eqn:E.
  - exists w', st. split; [reflexivity|].
    exact (proj1 (hierarchy_levels_bounded sorted_order two_cliques 1 "sta"
                    (Some 1%Z) world0 w' st eq_refl E)).
  - exfalso. vm_compute in E. discriminate E.
Defined.

(** ** How a run can fail *)

Lemma scaling_recognised (qtype : string) (s0 s1 : Q) :
  recognised qtype = true -> exists d, scaling qtype s0 s1 = Ok d.
Proof.
  unfold recognised, scaling; simpl. intro H.
  destruct (String.eqb qtype "smp"); [eexists; reflexivity|].
  destruct (String.eqb qtype "gja"); [eexists; reflexivity|].
  destruct (String.eqb qtype "sta"); [eexists; reflexivity|].
  destruct (String.eqb qtype "pos"); [eexists; reflexivity|].
  destruct (String.eqb qtype "neg"); [eexists; reflexivity|].
  discriminate H.
Qed.

Lemma np_max_nat_renumber (l : list nat) :
  l <> [] -> exists k, np_max_nat (renumber l) = Ok k /\ (1 <= k)%nat.
Proof.
  intro H. destruct l as [|x t]; [congruence|].
  unfold renumber, unique_inverse. cbn [map np_max_nat].
  eexists. split; [reflexivity|].
  match goal with
  | |- (1 <= fold_left Nat.max ?l0 ?x0)%nat =>
      destruct (fold_max_spec l0 x0) as [_ Hub]; cbv zeta in Hub;
      specialize (Hub x0 (or_introl eq_refl))
  end. lia.
Qed.

Lemma level_failure G gamma c n st w :
  (1 <= hr_nh st)%nat ->
  match snd (level G gamma c n st w) with
  | Ok st' => (1 <= hr_nh st')%nat
  | Raise e => e = NameError "BCTParamError"
  end.
Proof.
  intro Hnh. unfold level, bind, log, lift, ret.
  match goal with
  | |- context [local_moving G gamma c ?a ?b ?k ?w0] =>
      destruct (pass_loop_draws G gamma c a b k 1000 (lm_init a b k) w0) as (_ & _ & I3);
      pose proof (pass_loop_length G gamma c a b k 1000 (lm_init a b k) w0) as Hl;
      unfold local_moving;
      destruct (pass_loop G gamma c a b k 1000 (lm_init a b k) w0) as [w1 [lm|e]]
  end; cbn [fst snd is_ok] in *.
  - specialize (Hl _ _ eq_refl). cbn [lm_m lm_init] in Hl. rewrite length_seq in Hl.
    assert (Hne : lm_m lm <> []) by (intro E; rewrite E in Hl; simpl in Hl; lia).
    destruct (np_max_nat_renumber _ Hne) as (k & -> & Hk). cbn [snd hr_nh]. exact Hk.
  - destruct (I3 eq_refl) as [E _]. injection E as ->. reflexivity.
Qed.

Lemma levels_failure G gamma c n budget :
  forall st w,
    (1 <= hr_nh st)%nat ->
    match snd (levels G gamma c n budget st w) with
    | Ok _ => True
    | Raise e => e = NameError "BCTParamError"
    end.
Proof.
  induction budget as [|b IH]; intros st w Hnh; cbn [levels];
    destruct (improving st); try exact I.
  - reflexivity.
  - unfold bind. pose proof (level_failure G gamma c n st w Hnh) as L.
    destruct (level G gamma c n st w) as [w1 [st1|e]]; cbn [snd] in *.
    + apply IH. exact L.
    + exact L.
Qed.

Lemma pass_loop_no_nodes G gamma c W0 W1 b st w :
  in_range G ->
  pass_loop G gamma c W0 W1 0 (S b) st w
  = (mkWorld (rng_advance (np_rng w) 0) (os_entropy w) (work w), Ok st).
Proof.
  intro HG. cbn [pass_loop]. unfold bind, np_random_permutation.
  assert (E : G (np_rng w) 0%nat = []).
  { pose proof (HG (np_rng w) 0%nat) as F.
    destruct (G (np_rng w) 0%nat) as [|x t]; [reflexivity|].
    inversion F; lia. }
  rewrite E. reflexivity.
Qed.

Lemma optimise_empty G gamma W0 W1 c w :
  in_range G ->
  snd (optimise G gamma 0 W0 W1 c w)
  = Raise (ValueError "zero-size array to reduction operation maximum which has no identity").
Proof.
  intro HG. unfold optimise.
  change (levels G gamma c 0 300) with (levels G gamma c 0 (S 299)).
  unfold bind at 1. rewrite levels_S.
  replace (improving (mkHier 1 0 W0 W1 [[]; seq 1 0] [- (1); 0])) with true
    by reflexivity.
  unfold bind at 1. unfold level, local_moving, bind, log, lift.
  cbn [hr_h hr_nh hr_W0 hr_W1 hr_ci hr_q].
  rewrite (pass_loop_no_nodes G gamma c _ _ 999 _ _ HG).
  reflexivity.
Qed.

(** X13: On the empty matrix, with a recognised variant, the first level finds
    no node to visit and the run raises [ValueError] at [np.max(m)]. *)
Theorem empty_matrix_raises (G : shuffler) (gamma : Q) (qtype : string)
    (seed : option Z) (w : world) :
  in_range G -> recognised qtype = true ->
  snd (modularity_louvain_und_sign G [] gamma qtype seed w)
  = Raise (ValueError "zero-size array to reduction operation maximum which has no identity").
Proof.
  intros HG Hrec. rewrite run_unfold.
  destruct (scaling_recognised qtype (total_positive []) (total_negative []) Hrec)
    as [d ->].
  cbn [length]. apply optimise_empty. exact HG.
Qed.

Lemma empty_matrix_raises_witness :
  in_range sorted_order /\ recognised "pos" = true /\
  snd (modularity_louvain_und_sign sorted_order [] 1 "pos" None world0)
  = Raise (ValueError "zero-size array to reduction operation maximum which has no identity").
Proof.
  assert (Hrec : recognised "pos" = true) by reflexivity.
  split; [exact sorted_order_in_range|]. split; [exact Hrec|].
  exact (empty_matrix_raises sorted_order 1 "pos" None world0 sorted_order_in_range Hrec).
Defined.

(** ** The all-zero matrix *)

Lemma np_unique_seq (n : nat) : forall a, np_unique (seq a n) = seq a n.
Proof.
  unfold np_unique. induction n as [|n IH]; intro a; [reflexivity|].
  cbn [seq fold_right]. rewrite IH. destruct n as [|n]; [reflexivity|].
  cbn [seq insert_sorted].
  destruct (Nat.ltb_spec a (S a)); [reflexivity | lia].
Qed.

Lemma index_of_seq (n : nat) :
  forall a x, (a <= x < a + n)%nat -> index_of x (seq a n) = (x - a)%nat.
Proof.
  induction n as [|n IH]; intros a x H; [lia|]. cbn [seq index_of].
  destruct (Nat.eqb_spec x a) as [->|Hne]; [lia|].
  rewrite IH by lia. lia.
Qed.

Lemma renumber_seq (n : nat) : renumber (seq 1 n) = seq 1 n.
Proof.
  unfold renumber, unique_inverse. rewrite np_unique_seq, map_map.
  transitivity (map (fun x : nat => x) (seq 1 n)); [|apply map_id].
  apply map_ext_in.
  intros x Hx. apply in_seq in Hx. rewrite index_of_seq by lia. lia.
Qed.

Lemma project_identity (n : nat) :
  project n (seq 1 n) (repeat O n) (seq 1 n) = seq 1 n.
Proof.
  assert (Hlen : length (seq 1 n) = length (repeat O n))
    by (rewrite length_seq, repeat_length; reflexivity).
  destruct (project_spec (seq 1 n) (seq 1 n) n (repeat O n) Hlen) as [L Hnth].
  rewrite repeat_length in L, Hnth.
  apply (nth_ext _ _ O O); [rewrite L, length_seq; reflexivity|].
  intros i Hi. rewrite L in Hi. rewrite (Hnth i Hi), seq_nth by exact Hi.
  replace ((1 <=? 1 + i) && (1 + i <=? n))%nat with true
    by (symmetry; apply andb_true_iff; split; apply Nat.leb_le; lia).
  replace (1 + i - 1)%nat with i by lia. apply seq_nth. exact Hi.
Qed.

Lemma level_zero_labels G gamma c k W0 W1 w :
  cfg_d0 c = 0 -> cfg_d1 c = 0 ->
  exists w' nh wn0 wn1 x,
    level G gamma c (S k) (mkHier 1 (S k) W0 W1 [[]; seq 1 (S k)] [-(1); 0]) w
    = (w', Ok (mkHier 2 nh wn0 wn1 [[]; seq 1 (S k); seq 1 (S k)] [-(1); 0; x]))
    /\ x == 0.
Proof.
  intros H0 H1. unfold level, local_moving, bind, log, lift, ret.
  cbn [hr_h hr_nh hr_W0 hr_W1 hr_ci hr_q].
  rewrite (pass_loop_zero G gamma c W0 W1 (S k) 999 _ _ H0 H1).
  cbn [lm_m lm_init]. rewrite renumber_seq.
  change (np_max_nat (seq 1 (S k))) with (@Ok nat (fold_left Nat.max (seq 2 k) 1%nat)).
  cbn iota beta.
  change (nth (1 + 1 - 1) ([[]; seq 1 (S k)] ++ [repeat O (S k)]) [])
    with (seq 1 (S k)).
  change (nth (1 + 1) ([[]; seq 1 (S k)] ++ [repeat O (S k)]) [])
    with (repeat O (S k)).
  rewrite project_identity.
  do 5 eexists. split; [reflexivity|]. rewrite H0, H1. ring.
Qed.

Lemma optimise_zero_labels G gamma k W0 W1 c w :
  cfg_d0 c = 0 -> cfg_d1 c = 0 ->
  exists w' x,
    optimise G gamma (S k) W0 W1 c w = (w', Ok (seq 1 (S k), x)) /\ x == 0.
Proof.
  intros H0 H1. unfold optimise.
  change (levels G gamma c (S k) 300) with (levels G gamma c (S k) (S 299)).
  unfold bind at 1. rewrite levels_S.
  replace (improving (mkHier 1 (S k) W0 W1 [[]; seq 1 (S k)] [- (1); 0])) with true
    by reflexivity.
  unfold bind at 1.
  destruct (level_zero_labels G gamma c k W0 W1 w H0 H1)
    as (w' & nh & wn0 & wn1 & x & -> & Hx).
  rewrite levels_stop.
  - unfold ret. cbn [hr_ci hr_q last]. rewrite renumber_seq.
    do 2 eexists. split; [reflexivity | exact Hx].
  - unfold improving. cbn [hr_h hr_q nth Nat.sub].
    apply Qgtb_false. rewrite Hx. apply Qlt_le_weak. reflexivity.
Qed.

Lemma np_sum2_mmap_zero (p : Q -> bool) (f : Q -> Q) (W : matrix) :
  (forall x, p x = true -> f x = 0) ->
  all_entries p W = true -> np_sum2 (mmap f W) == 0.
Proof.
  intro Hf. unfold all_entries, np_sum2, mmap.
  induction W as [|r t IH]; simpl; [reflexivity|].
  intro H. apply andb_true_iff in H. destruct H as [Hr Ht].
  rewrite (IH Ht).
  assert (E : np_sum (map f r) == 0).
  { clear -Hr Hf. induction r as [|x r IHr]; simpl in *; [reflexivity|].
    apply andb_true_iff in Hr. destruct Hr as [Hx Hr].
    rewrite (Hf x Hx), (IHr Hr). ring. }
  rewrite E. ring.
Qed.

(** X14: On a square matrix with at least one node and all weights zero, every
    recognised variant returns after one level with every node in a
    community of its own, labelled [1..n] in node order, and with
    modularity 0. *)
Theorem zero_matrix_singletons (G : shuffler) (W : matrix) (gamma : Q)
    (qtype : string) (seed : option Z) (w : world) :
  W <> [] -> squareb (length W) W = true ->
  all_entries (fun x => Qeq_bool x 0) W = true ->
  recognised qtype = true ->
  exists w' x,
    modularity_louvain_und_sign G W gamma qtype seed w
    = (w', Ok (seq 1 (length W), x)) /\ x == 0.
Proof.
  intros Hne _ Hz Hrec. rewrite run_unfold.
  destruct (scaling_recognised qtype (total_positive W) (total_negative W) Hrec)
    as [d ->].
  assert (Z0 : Qeq_bool (total_positive W) 0 = true).
  { apply Qeq_eq_bool. apply (np_sum2_mmap_zero (fun x => Qeq_bool x 0)); [|exact Hz].
    intros x Hx. apply Qeq_bool_eq in Hx. unfold positive_part.
    replace (Qgtb x 0) with false; [reflexivity|].
    symmetry. apply Qgtb_false. rewrite Hx. apply Qle_refl. }
  assert (Z1 : Qeq_bool (total_negative W) 0 = true).
  { apply Qeq_eq_bool. apply (np_sum2_mmap_zero (fun x => Qeq_bool x 0)); [|exact Hz].
    intros x Hx. apply Qeq_bool_eq in Hx. unfold negative_part.
    replace (Qgtb 0 x) with false; [reflexivity|].
    symmetry. apply Qgtb_false. rewrite Hx. apply Qle_refl. }
  destruct W as [|r t]; [congruence|]. cbn [length].
  apply optimise_zero_labels; unfold adjust; rewrite Z0, Z1; reflexivity.
Qed.

Lemma zero_matrix_singletons_witness :
  zero_triple <> [] /\ squareb (length zero_triple) zero_triple = true /\
  all_entries (fun x => Qeq_bool x 0) zero_triple = true /\
  recognised "gja" = true /\
  exists w' x,
    modularity_louvain_und_sign reversed_order zero_triple 1 "gja" None world0
    = (w', Ok ([1; 2; 3]%nat, x)) /\ x == 0.
Proof.
  assert (Hne : zero_triple <> []) by discriminate.
  assert (Hz : all_entries (fun x => Qeq_bool x 0) zero_triple = true) by reflexivity.
  assert (Hrec : recognised "gja" = true) by reflexivity.
  split; [exact Hne|]. split; [reflexivity|]. split; [exact Hz|]. split; [exact Hrec|].
  exact (zero_matrix_singletons reversed_order zero_triple 1 "gja" None world0
           Hne eq_refl Hz Hrec).
Defined.

(** ** The hierarchy is nested *)

Lemma labels_upto_unique (n k k' : nat) (l : list nat) :
  labels_upto n k l -> labels_upto n k' l -> k = k'.
Proof.
  intros [_ H] [_ H'].
  destruct (Nat.lt_trichotomy k k') as [Hlt|[E|Hgt]]; [|exact E|].
  - assert (I : In k' l) by (apply H'; lia). apply H in I. lia.
  - assert (I : In k l) by (apply H; lia). apply H' in I. lia.
Qed.

(** One level: the old labellings are kept, and the new one is the old
    last one followed by the renumbered assignment of this level. *)
Lemma level_ci_step G gamma c n st w w' st' :
  ci_inv n st -> level G gamma c n st w = (w', Ok st') ->
  hr_h st' = (hr_h st + 1)%nat /\
  (forall j, (j <= hr_h st)%nat -> nth j (hr_ci st') [] = nth j (hr_ci st) []) /\
  exists m,
    labels_upto (hr_nh st) (hr_nh st') m /\ (hr_nh st' <= hr_nh st)%nat /\
    forall i, (i < n)%nat ->
      nth i (nth (hr_h st + 1) (hr_ci st') []) O
      = nth (nth i (nth (hr_h st) (hr_ci st) []) O - 1) m O.
Proof.
  intros (L & Hh & Hnh & Hlast & Hall) H.
  unfold level, bind, log, lift, ret in H.
  destruct (local_moving G gamma c (hr_W0 st) (hr_W1 st) (hr_nh st) _)
    as [w1 [lm|e]] eqn:Elm; [|discriminate H].
  destruct (np_max_nat (renumber (lm_m lm))) as [nh'|e] eqn:Emax; [|discriminate H].
  injection H as _ <-. cbn [hr_h hr_nh hr_ci].
  assert (Llm : length (lm_m lm) = hr_nh st).
  { unfold local_moving in Elm. rewrite (pass_loop_length _ _ _ _ _ _ _ _ _ _ _ Elm).
    apply length_seq. }
  pose proof (renumber_labels (lm_m lm)) as Hm. rewrite Llm in Hm.
  pose proof (np_unique_length (lm_m lm)) as Hk. rewrite Llm in Hk.
  pose proof (np_max_nat_labels _ _ _ _ Hm Emax) as Enh. subst nh'.
  assert (Eprev : nth (hr_h st + 1 - 1) (hr_ci st ++ [repeat O n]) []
                  = nth (hr_h st) (hr_ci st) []).
  { replace (hr_h st + 1 - 1)%nat with (hr_h st) by lia. apply app_nth1. lia. }
  assert (Ecur : nth (hr_h st + 1) (hr_ci st ++ [repeat O n]) [] = repeat O n).
  { rewrite app_nth2 by lia. replace (hr_h st + 1 - length (hr_ci st))%nat with O by lia.
    reflexivity. }
  rewrite Eprev, Ecur.
  assert (Lci : length (hr_ci st ++ [repeat O n]) = S (hr_h st + 1))
    by (rewrite length_app, L; simpl; lia).
  split; [reflexivity|]. split.
  - intros j Hj. rewrite nth_upd_other by lia. apply app_nth1. lia.
  - exists (renumber (lm_m lm)). split; [exact Hm|]. split; [exact Hk|].
    intros i Hi. rewrite nth_upd_same by lia.
    destruct Hlast as [Lp Hp].
    assert (Hlen : length (nth (hr_h st) (hr_ci st) []) = length (repeat O n))
      by (rewrite repeat_length; exact Lp).
    destruct (project_spec (nth (hr_h st) (hr_ci st) []) (renumber (lm_m lm))
                (hr_nh st) (repeat O n) Hlen) as [_ Hnth].
    rewrite repeat_length in Hnth. rewrite (Hnth i Hi).
    assert (R : (1 <= nth i (nth (hr_h st) (hr_ci st) []) O <= hr_nh st)%nat)
      by (apply Hp, nth_In; lia).
    replace ((1 <=? nth i (nth (hr_h st) (hr_ci st) []) O)
             && (nth i (nth (hr_h st) (hr_ci st) []) O <=? hr_nh st))%nat with true;
      [reflexivity|].
    symmetry. apply andb_true_iff. split; apply Nat.leb_le; lia.
Qed.

Lemma nest_inv_level G gamma c n st w w' st' :
  ci_inv n st -> nest_inv n st ->
  level G gamma c n st w = (w', Ok st') -> nest_inv n st'.
Proof.
  intros Hci Hnest H.
  pose proof (ci_inv_level _ _ _ _ _ _ _ _ Hci H) as Hci'.
  destruct (level_ci_step _ _ _ _ _ _ _ _ Hci H) as (Eh & Hold & m & Hm & Hle & Hnew).
  destruct Hci as (_ & Hh & _ & Hlast & _).
  destruct Hci' as (_ & _ & _ & Hlast' & _). rewrite Eh in Hlast'.
  intros a b Ha Hab Hb. rewrite Eh in Hb.
  destruct (Nat.eq_dec b (hr_h st + 1)) as [->|Hne].
  - destruct (Nat.eq_dec a (hr_h st + 1)) as [->|Hna].
    + split; [auto|]. intros ka kb Ka Kb.
      rewrite (labels_upto_unique _ _ _ _ Ka Kb). lia.
    + assert (Hah : (a <= hr_h st)%nat) by lia.
      destruct (Hnest a (hr_h st) Ha Hah (Nat.le_refl _)) as [Ht Hc].
      rewrite (Hold a Hah). split.
      * intros i j Hi Hj T. specialize (Ht i j Hi Hj T).
        unfold together in *. rewrite (Hnew i Hi), (Hnew j Hj), Ht. reflexivity.
      * intros ka kb Ka Kb.
        rewrite <- (labels_upto_unique _ _ _ _ Hlast' Kb).
        specialize (Hc ka (hr_nh st) Ka Hlast). lia.
  - assert (Hbh : (b <= hr_h st)%nat) by lia.
    assert (Hah : (a <= hr_h st)%nat) by lia.
    rewrite (Hold a Hah), (Hold b Hbh). apply Hnest; assumption.
Qed.

Lemma nest_inv_levels G gamma c n budget :
  forall st w w' st',
    ci_inv n st -> nest_inv n st ->
    levels G gamma c n budget st w = (w', Ok st') -> nest_inv n st'.
Proof.
  induction budget as [|b IH]; intros st w w' st' Hci Hnest H; simpl in H;
    destruct (improving st);
    try (injection H as _ <-; exact Hnest).
  - discriminate H.
  - unfold bind in H.
    destruct (level G gamma c n st w) as [w1 [st1|e]] eqn:El; [|discriminate H].
    apply (IH st1 w1 w' st'); [| |exact H].
    + apply (ci_inv_level _ _ _ _ _ _ _ _ Hci El).
    + apply (nest_inv_level _ _ _ _ _ _ _ _ Hci Hnest El).
Qed.

Lemma nest_inv_init (n : nat) (W0 W1 : matrix) :
  nest_inv n (mkHier 1 n W0 W1 [[]; seq 1 n] [-(1); 0]).
Proof.
  intros a b Ha Hab Hb. cbn [hr_h] in Hb.
  replace a with 1%nat by lia. replace b with 1%nat by lia. split; [auto|].
  intros ka kb Ka Kb. rewrite (labels_upto_unique _ _ _ _ Ka Kb). lia.
Qed.

Lemma hierarchy_invariants G W gamma qtype seed w w' st :
  hierarchy G W gamma qtype seed w = (w', Ok st) ->
  ci_inv (length W) st /\ nest_inv (length W) st.
Proof.
  intro H. rewrite hierarchy_unfold in H.
  destruct (scaling qtype (total_positive W) (total_negative W)) as [d|e];
    [|discriminate H].
  split.
  - apply (ci_inv_levels _ _ _ _ _ _ _ _ _ (ci_inv_init _ _ _) H).
  - apply (nest_inv_levels _ _ _ _ _ _ _ _ _ (ci_inv_init _ _ _) (nest_inv_init _ _ _) H).
Qed.

Lemma renumber_together (l : list nat) (i j : nat) :
  (i < length l)%nat -> (j < length l)%nat ->
  together l i j -> together (renumber l) i j.
Proof.
  unfold together. intros Hi Hj T. rewrite !nth_renumber by assumption.
  rewrite T. reflexivity.
Qed.

Lemma labels_upto_seq (n : nat) : labels_upto n n (seq 1 n).
Proof.
  split; [apply length_seq|]. intro x. rewrite in_seq. lia.
Qed.

(** X15: On a square input the hierarchy only merges: two nodes that share a community at one
    level share one at every later level, and in the vector that is
    returned. *)
Theorem hierarchy_only_merges (G : shuffler) (W : matrix) (gamma : Q)
    (qtype : string) (seed : option Z) (w w' : world) (st : hier)
    (a b i j : nat) :
  squareb (length W) W = true ->
  hierarchy G W gamma qtype seed w = (w', Ok st) ->
  (1 <= a)%nat -> (a <= b)%nat -> (b <= hr_h st)%nat ->
  (i < length W)%nat -> (j < length W)%nat ->
  together (nth a (hr_ci st) []) i j ->
  together (nth b (hr_ci st) []) i j /\
  together (renumber (last (hr_ci st) [])) i j.
Proof.
  intros _ H Ha Hab Hb Hi Hj T.
  destruct (hierarchy_invariants _ _ _ _ _ _ _ _ H) as [Hci Hnest].
  destruct Hci as (L & Hh & _ & [Llast _] & _).
  split; [apply (proj1 (Hnest a b Ha Hab Hb)); assumption|].
  rewrite last_nth_length, L. simpl. rewrite Nat.sub_0_r.
  assert (Th : together (nth (hr_h st) (hr_ci st) []) i j)
    by (apply (proj1 (Hnest a (hr_h st) Ha ltac:(lia) (Nat.le_refl _))); assumption).
  apply renumber_together; [rewrite Llast; exact Hi | rewrite Llast; exact Hj | exact Th].
Qed.

(** X16: On a square input the number of communities never grows from one
    level to a later one. *)
Theorem community_count_never_grows (G : shuffler) (W : matrix) (gamma : Q)
    (qtype : string) (seed : option Z) (w w' : world) (st : hier)
    (a b ka kb : nat) :
  squareb (length W) W = true ->
  hierarchy G W gamma qtype seed w = (w', Ok st) ->
  (1 <= a)%nat -> (a <= b)%nat -> (b <= hr_h st)%nat ->
  labels_upto (length W) ka (nth a (hr_ci st) []) ->
  labels_upto (length W) kb (nth b (hr_ci st) []) ->
  (kb <= ka)%nat.
Proof.
  intros _ H Ha Hab Hb Ka Kb.
  destruct (hierarchy_invariants _ _ _ _ _ _ _ _ H) as [_ Hnest].
  apply (proj2 (Hnest a b Ha Hab Hb) ka kb Ka Kb).
Qed.

Lemma hierarchy_only_merges_witness :
  exists w' st,
    hierarchy sorted_order two_cliques 1 "sta" (Some 1%Z) world0 = (w', Ok st) /\
    (2 <= hr_h st)%nat /\
    together (nth 1 (hr_ci st) []) 1 1 /\
    together (nth 2 (hr_ci st) []) 0 1 /\
    together (renumber (last (hr_ci st) [])) 0 1.
Proof.
  destruct (hierarchy sorted_order two_cliques 1 "sta" (Some 1%Z) world0)
    as [w' [st|e]] eqn:E.
  - exists w', st. split; [reflexivity|].
    pose proof E as E2. vm_compute in E2. injection E2 as _ <-.
    assert (Hb : (2 <= 3)%nat) by lia.
    assert (T2 : together [1; 1; 1; 2; 2; 2]%nat 0 1) by reflexivity.
    split; [exact Hb|]. split; [reflexivity|]. split; [exact T2|].
    match type of E with
    | _ = (_, Ok ?s) =>
        exact (proj2 (hierarchy_only_merges sorted_order two_cliques 1 "sta" (Some 1%Z)
                        world0 w' s 2 2 0 1 eq_refl E ltac:(lia) ltac:(lia) ltac:(simpl; lia)
                        ltac:(simpl; lia) ltac:(simpl; lia) T2))
    end.
  - exfalso. vm_compute in E. discriminate E.
Defined.

Lemma community_count_never_grows_witness :
  exists w' st,
    hierarchy sorted_order two_cliques 1 "sta" (Some 1%Z) world0 = (w', Ok st) /\
    labels_upto 6 6 (nth 1 (hr_ci st) []) /\
    labels_upto 6 2 (nth 2 (hr_ci st) []) /\
    (2 <= 6)%nat.
Proof.
  destruct (hierarchy sorted_order two_cliques 1 "sta" (Some 1%Z) world0)
    as [w' [st|e]] eqn:E.
  - exists w', st. split; [reflexivity|].
    pose proof E as E2. vm_compute in E2. injection E2 as _ <-.
    assert (K1 : labels_upto 6 6 [1; 2; 3; 4; 5; 6]%nat) by apply (labels_upto_seq 6).
    assert (K2 : labels_upto 6 2 [1; 1; 1; 2; 2; 2]%nat).
    { split; [reflexivity|]. intro x. simpl. split; [intuition lia|].
      intro H. assert (D : x = 1%nat \/ x = 2%nat) by lia. intuition. }
    split; [exact K1|]. split; [exact K2|].
    match type of E with
    | _ = (_, Ok ?s) =>
        exact (community_count_never_grows sorted_order two_cliques 1 "sta" (Some 1%Z)
                 world0 w' s 1 2 6 2 eq_refl E ltac:(lia) ltac:(lia) ltac:(simpl; lia) K1 K2)
    end.
  - exfalso. vm_compute in E. discriminate E.
Defined.

(** ** The cohort loop *)

Lemma keeps_entropy_bind {A B} (c : M A) (k : A -> M B) :
  keeps_entropy c -> (forall a, keeps_entropy (k a)) -> keeps_entropy (bind c k).
Proof.
  intros Hc Hk w. unfold bind. specialize (Hc w).
  destruct (c w) as [w1 [a|e]]; cbn [fst] in *; [rewrite Hk|]; exact Hc.
Qed.

Lemma keeps_entropy_pass_loop G gamma c W0 W1 nh budget :
  forall st, keeps_entropy (pass_loop G gamma c W0 W1 nh budget st).
Proof.
  induction budget as [|b IH]; intro st; cbn [pass_loop].
  - intro w; reflexivity.
  - apply keeps_entropy_bind; [intro w; reflexivity|].
    intro order. destruct (snd (sweep gamma c W0 W1 nh order st)).
    + apply IH.
    + intro w; reflexivity.
Qed.

Lemma keeps_entropy_level G gamma c n st : keeps_entropy (level G gamma c n st).
Proof.
  unfold level.
  apply keeps_entropy_bind; [intro w; reflexivity|]. intros _.
  apply keeps_entropy_bind; [apply keeps_entropy_pass_loop|]. intro lm.
  apply keeps_entropy_bind; [intro w; reflexivity|]. intro k.
  intro w; reflexivity.
Qed.

Lemma keeps_entropy_levels G gamma c n budget :
  forall st, keeps_entropy (levels G gamma c n budget st).
Proof.
  induction budget as [|b IH]; intro st; cbn [levels];
    destruct (improving st); try (intro w; reflexivity).
  apply keeps_entropy_bind; [apply keeps_entropy_level | exact IH].
Qed.

Lemma keeps_entropy_optimise G gamma n W0 W1 c :
  keeps_entropy (optimise G gamma n W0 W1 c).
Proof.
  unfold optimise. apply keeps_entropy_bind; [apply keeps_entropy_levels|].
  intros st w; reflexivity.
Qed.

Lemma rng_determined_optimise G gamma n W0 W1 c :
  rng_determined (optimise G gamma n W0 W1 c).
Proof.
  unfold optimise. apply rng_determined_bind; [apply rng_determined_levels|].
  intro st. apply rng_determined_ret.
Qed.

(** A call with [seed=None] takes everything random from the entropy
    source. *)
Lemma entropy_determined_run G W gamma qtype :
  entropy_determined (modularity_louvain_und_sign G W gamma qtype None).
Proof.
  intros w1 w2 H. rewrite !run_unfold.
  destruct (scaling qtype (total_positive W) (total_negative W)) as [d|e].
  - assert (R : np_rng (after_totals None w1) = np_rng (after_totals None w2))
      by (cbn; rewrite H; reflexivity).
    split; [apply (rng_determined_optimise _ _ _ _ _ _ _ _ R)|].
    rewrite !keeps_entropy_optimise. cbn. rewrite H. reflexivity.
  - split; [reflexivity|]. cbn. rewrite H. reflexivity.
Qed.

Lemma entropy_determined_bind {A B} (c : M A) (k : A -> M B) :
  entropy_determined c -> (forall a, entropy_determined (k a)) ->
  entropy_determined (bind c k).
Proof.
  intros Hc Hk w1 w2 H. unfold bind.
  destruct (Hc w1 w2 H) as [Hs Hr].
  destruct (c w1) as [w1' [a1|e1]], (c w2) as [w2' [a2|e2]]; simpl in *;
    try discriminate Hs.
  - injection Hs as ->. apply Hk; exact Hr.
  - injection Hs as ->. split; [reflexivity | exact Hr].
Qed.

Lemma entropy_determined_cohort G cohort :
  entropy_determined (cohort_modularity G cohort).
Proof.
  induction cohort as [|W rest IH]; cbn [cohort_modularity].
  - intros w1 w2 H. split; [reflexivity | exact H].
  - apply entropy_determined_bind; [apply entropy_determined_run|]. intro r.
    apply entropy_determined_bind; [exact IH|]. intro scores.
    intros w1 w2 H. split; [reflexivity | exact H].
Qed.

(** X17: The cohort loop does not depend on the state numpy's global generator
    was left in: every call reseeds it, so with the same entropy the scores
    (or the exception) are the same whatever was drawn before. *)
Theorem cohort_ignores_previous_draws (G : shuffler) (cohort : list matrix)
    (r1 r2 : rng_state) (e : Z) (log1 log2 : list array_op) :
  snd (cohort_modularity G cohort (mkWorld r1 e log1))
  = snd (cohort_modularity G cohort (mkWorld r2 e log2)).
Proof.
  apply (entropy_determined_cohort G cohort). reflexivity.
Qed.

Lemma default_call_on_empty G w :
  in_range G ->
  snd (modularity_louvain_und_sign G [] 1 "sta" None w)
  = Raise (ValueError "zero-size array to reduction operation maximum which has no identity").
Proof.
  intro HG. rewrite run_unfold.
  destruct (scaling_recognised "sta" (total_positive []) (total_negative []) eq_refl)
    as [d ->].
  apply optimise_empty. exact HG.
Qed.

Lemma cohort_cons G W rest w :
  cohort_modularity G (W :: rest) w
  = match modularity_louvain_und_sign G W 1 "sta" None w with
    | (w1, Ok r) =>
        match cohort_modularity G rest w1 with
        | (w2, Ok s) => (w2, Ok (snd r :: s))
        | (w2, Raise e) => (w2, Raise e)
        end
    | (w1, Raise e) => (w1, Raise e)
    end.
Proof.
  cbn [cohort_modularity]. unfold bind at 1.
  destruct (modularity_louvain_und_sign G W 1 "sta" None w) as [w1 [r|e]];
    [|reflexivity].
  unfold bind, ret. destruct (cohort_modularity G rest w1) as [w2 [s|e]]; reflexivity.
Qed.

(** X18: When the cohort loop returns, it returns one score per matrix, and no
    matrix of the cohort was empty: a single failing call makes the whole
    comprehension raise. *)
Theorem cohort_one_score_each (G : shuffler) (cohort : list matrix)
    (w w' : world) (scores : list Q) :
  in_range G ->
  cohort_modularity G cohort w = (w', Ok scores) ->
  length scores = length cohort /\ Forall (fun W => W <> []) cohort.
Proof.
  intro HG. revert w w' scores.
  induction cohort as [|W rest IH]; intros w w' scores H.
  - injection H as _ <-. split; [reflexivity | constructor].
  - rewrite cohort_cons in H.
    destruct (modularity_louvain_und_sign G W 1 "sta" None w) as [w1 [r|e]] eqn:E1;
      [|discriminate H].
    destruct (cohort_modularity G rest w1) as [w2 [s|e]] eqn:E2; [|discriminate H].
    injection H as _ <-. destruct (IH _ _ _ E2) as [L F].
    split; [simpl; rewrite L; reflexivity|].
    constructor; [|exact F]. intro E. subst W.
    pose proof (default_call_on_empty G w HG) as R.
    rewrite E1 in R. discriminate R.
Qed.

Lemma cohort_one_score_each_witness :
  exists w' scores,
    in_range sorted_order /\
    cohort_modularity sorted_order [single_edge; two_cliques] world0 = (w', Ok scores) /\
    length scores = 2%nat.
Proof.
  destruct (cohort_modularity sorted_order [single_edge; two_cliques] world0)
    as [w' [scores|e]] eqn:E.
  - exists w', scores. split; [exact sorted_order_in_range|]. split; [reflexivity|].
    exact (proj1 (cohort_one_score_each sorted_order [single_edge; two_cliques]
                    world0 w' scores sorted_order_in_range E)).
  - exfalso. vm_compute in E. discriminate E.
Defined.

(** * The program over binary64: facts *)

(** ** The arithmetic is the machine's *)

(** On the samples, which include subnormals, the largest float, the
    infinities and [nan], every operation and comparison of [F64] agrees
    with the primitive binary64 one.  The model has a single zero, so
    [-0.0] is no sample. *)
Lemma arithmetic_agrees_with_machine :
  Machine.agree PrimFloat.add F64.fadd = true /\
  Machine.agree PrimFloat.sub F64.fsub = true /\
  Machine.agree PrimFloat.mul F64.fmul = true /\
  Machine.agree PrimFloat.div F64.fdiv = true /\
  Machine.agree_order = true /\
  Machine.agree_literals = true.
Proof. vm_compute. repeat split. Qed.

(** ** Rounding and the order of floats *)




Lemma fgtb_irrefl (a : F64.f64) : F64.fgtb a a = false.
Proof.
  destruct a as [q| | |]; simpl; try reflexivity.
  apply Qgtb_false. apply Qle_refl.
Qed.

Lemma fgtb_trans (a b c : F64.f64) :
  F64.fgtb a b = true -> F64.fgtb b c = true -> F64.fgtb a c = true.
Proof.
  destruct a as [x| | |], b as [y| | |], c as [z| | |]; simpl;
    try discriminate; try reflexivity.
  rewrite !Qgtb_true. intros H1 H2. apply (Qlt_trans _ _ _ H2 H1).
Qed.

Lemma fgtb_asym (a b : F64.f64) : F64.fgtb a b = true -> F64.fgtb b a = false.
Proof.
  intro H. destruct (F64.fgtb b a) eqn:E; [|reflexivity].
  pose proof (fgtb_trans _ _ _ H E) as R. rewrite fgtb_irrefl in R. discriminate R.
Qed.

(** Away from [nan], [<=] is the negation of [>]. *)
Lemma fleb_not_fgtb (a b : F64.f64) :
  F64.is_nan a = false -> F64.is_nan b = false ->
  F64.fleb a b = negb (F64.fgtb a b).
Proof.
  unfold F64.fleb.
  destruct a as [x| | |], b as [y| | |]; simpl; try discriminate; try reflexivity.
  intros _ _. unfold Qgtb. rewrite negb_involutive.
  destruct (Qle_bool x y) eqn:E1, (Qle_bool y x) eqn:E2, (Qeq_bool x y) eqn:E3;
    simpl; try reflexivity; exfalso;
    repeat match goal with
    | H : Qle_bool _ _ = true |- _ => apply Qle_bool_iff in H
    | H : Qle_bool ?a ?b = false |- _ =>
        assert (b < a)
          by (apply Qnot_le_lt; intro K; apply Qle_bool_iff in K; congruence);
        clear H
    | H : Qeq_bool _ _ = true |- _ => apply Qeq_bool_iff in H
    | H : Qeq_bool _ _ = false |- _ => apply Qeq_bool_neq in H
    end;
    try lra;
    match goal with H : ~ _ == _ |- _ => apply H; lra end.
Qed.

(** [a <= b] and [b < c] give [a < c]; [a < b] and [b <= c] give [a < c];
    [<=] is transitive: all away from [nan]. *)
Lemma fgtb_fleb_trans (a b c : F64.f64) :
  F64.is_nan a = false -> F64.is_nan b = false -> F64.is_nan c = false ->
  F64.fgtb a b = false -> F64.fgtb c b = true -> F64.fgtb c a = true.
Proof.
  destruct a as [x| | |], b as [y| | |], c as [z| | |]; simpl;
    try discriminate; try reflexivity.
  intros _ _ _. rewrite Qgtb_false, !Qgtb_true. intros H1 H2.
  apply (Qle_lt_trans _ _ _ H1 H2).
Qed.

Lemma fleb_fgtb_trans (a b c : F64.f64) :
  F64.is_nan a = false -> F64.is_nan b = false -> F64.is_nan c = false ->
  F64.fgtb b a = true -> F64.fgtb b c = false -> F64.fgtb c a = true.
Proof.
  destruct a as [x| | |], b as [y| | |], c as [z| | |]; simpl;
    try discriminate; try reflexivity.
  intros _ _ _. rewrite Qgtb_false, !Qgtb_true. intros H1 H2.
  apply (Qlt_le_trans _ _ _ H1 H2).
Qed.

Lemma not_fgtb_trans (a b c : F64.f64) :
  F64.is_nan a = false -> F64.is_nan b = false -> F64.is_nan c = false ->
  F64.fgtb a b = false -> F64.fgtb b c = false -> F64.fgtb a c = false.
Proof.
  destruct a as [x| | |], b as [y| | |], c as [z| | |]; simpl;
    try discriminate; try reflexivity.
  intros _ _ _. rewrite !Qgtb_false. intros H1 H2. apply (Qle_trans _ _ _ H1 H2).
Qed.

Lemma tol_above_zero : F64.fgtb (F64.Fin 0) F64.tol = false /\ F64.is_nan F64.tol = false.
Proof. split; vm_compute; reflexivity. Qed.

(** ** Maximum and first maximiser of a vector without [nan] *)

Lemma has_nan_cons (x : F64.f64) (t : F64.vec) :
  F64.has_nan (x :: t) = false -> F64.is_nan x = false /\ F64.has_nan t = false.
Proof. unfold F64.has_nan; simpl. apply orb_false_iff. Qed.

Lemma has_nan_nth (l : F64.vec) (j : nat) :
  F64.has_nan l = false -> F64.is_nan (nth j l (F64.Fin 0)) = false.
Proof.
  revert j. induction l as [|x t IH]; intros j H.
  - destruct j; reflexivity.
  - apply has_nan_cons in H. destruct H as [Hx Ht].
    destruct j; simpl; [exact Hx | apply IH; exact Ht].
Qed.

(** [np.max] is [nan] exactly when the vector holds one. *)
Lemma fold_maximum_nan (l : F64.vec) (best : F64.f64) :
  F64.is_nan (fold_left F64.maximum l best) = F64.is_nan best || F64.has_nan l.
Proof.
  revert best. induction l as [|x t IH]; intro best; simpl.
  - rewrite orb_false_r. reflexivity.
  - rewrite IH. unfold F64.maximum, F64.has_nan. simpl.
    destruct (F64.is_nan best) eqn:Eb; simpl; [rewrite Eb; reflexivity|].
    destruct (F64.is_nan x) eqn:Ex; simpl; [rewrite Ex; reflexivity|].
    destruct (F64.fgtb x best); rewrite ?Ex, ?Eb; reflexivity.
Qed.

Lemma np_max_nan (l : F64.vec) :
  F64.is_nan (F64.np_max l) = F64.has_nan l.
Proof.
  destruct l as [|x t]; [reflexivity|]. unfold F64.np_max.
  rewrite fold_maximum_nan. reflexivity.
Qed.

Lemma b64_argmax_from_spec (l : F64.vec) :
  forall (bi : nat) (best : F64.f64) (i : nat),
    F64.is_nan best = false -> F64.has_nan l = false ->
    let a := F64.argmax_from bi best i l in
    let v := fold_left F64.maximum l best in
    F64.is_nan v = false /\
    F64.fgtb best v = false /\
    (forall j, (j < length l)%nat -> F64.fgtb (nth j l (F64.Fin 0)) v = false) /\
    ((a = bi /\ v = best) \/
     (exists j, a = (i + j)%nat /\ (j < length l)%nat /\ nth j l (F64.Fin 0) = v /\
                F64.fgtb v best = true /\
                forall j', (j' < j)%nat -> F64.fgtb v (nth j' l (F64.Fin 0)) = true)).
Proof.
  induction l as [|x t IH]; intros bi best i Hb Hl.
  - cbn [F64.argmax_from fold_left length]. rewrite Hb.
    split; [reflexivity|]. split; [apply fgtb_irrefl|].
    split; [intros j H; lia | left; auto].
  - apply has_nan_cons in Hl. destruct Hl as [Hx Ht].
    assert (Hm : F64.maximum best x = if F64.fgtb x best then x else best)
      by (unfold F64.maximum; rewrite Hb, Hx; reflexivity).
    cbn [F64.argmax_from fold_left length]. rewrite Hb, Hm.
    rewrite (fleb_not_fgtb x best Hx Hb).
    destruct (F64.fgtb x best) eqn:E; cbn [negb].
    + destruct (IH i x (S i) Hx Ht) as (Hn & Hbv & Hall & Hcase).
      split; [exact Hn|].
      assert (Hlt : F64.fgtb (fold_left F64.maximum t x) best = true).
      { exact (fleb_fgtb_trans best x _ Hb Hx Hn E Hbv). }
      split; [apply fgtb_asym; exact Hlt|].
      split.
      * intros [|j] Hj; [exact Hbv|]. apply Hall. simpl in Hj. lia.
      * right. destruct Hcase as [[Ha Hv]|(j & Ha & Hj & Hnth & Hgt & Hfirst)].
        -- exists O. rewrite Ha, Hv. simpl. repeat split; try lia; auto.
        -- exists (S j). simpl. repeat split; try lia; auto.
           intros [|j'] Hj'; [exact Hgt|]. apply Hfirst; lia.
    + destruct (IH bi best (S i) Hb Ht) as (Hn & Hbv & Hall & Hcase).
      split; [exact Hn|]. split; [exact Hbv|]. split.
      * intros [|j] Hj; [|apply Hall; simpl in Hj; lia].
        simpl. exact (not_fgtb_trans x best _ Hx Hb Hn E Hbv).
      * destruct Hcase as [[Ha Hv]|(j & Ha & Hj & Hnth & Hgt & Hfirst)].
        -- left; auto.
        -- right. exists (S j). simpl. repeat split; try lia; auto.
           intros [|j'] Hj'; [|apply Hfirst; lia].
           simpl. exact (fgtb_fleb_trans x best _ Hx Hb Hn E Hgt).
Qed.

Lemma b64_np_argmax_spec (l : F64.vec) :
  l <> [] -> F64.has_nan l = false ->
  (F64.np_argmax l < length l)%nat /\
  nth (F64.np_argmax l) l (F64.Fin 0) = F64.np_max l /\
  (forall j, (j < length l)%nat -> F64.fgtb (nth j l (F64.Fin 0)) (F64.np_max l) = false) /\
  (forall j, (j < F64.np_argmax l)%nat ->
     F64.fgtb (F64.np_max l) (nth j l (F64.Fin 0)) = true).
Proof.
  destruct l as [|x t]; [congruence|]. intros _ Hl.
  apply has_nan_cons in Hl. destruct Hl as [Hx Ht].
  unfold F64.np_argmax, F64.np_max.
  destruct (b64_argmax_from_spec t O x 1%nat Hx Ht) as (Hn & Hb & Hall & Hcase).
  cbv zeta in *.
  destruct Hcase as [[Ha Hv]|(j & Ha & Hj & Hnth & Hgt & Hfirst)].
  - rewrite Ha, Hv. simpl. repeat split; try lia.
    + intros [|j] Hj; [apply fgtb_irrefl|]. rewrite <- Hv. apply Hall. simpl in Hj. lia.
  - rewrite Ha. simpl. repeat split; try lia; auto.
    + intros [|k] Hk; [exact Hb|]. apply Hall. simpl in Hk. lia.
    + intros [|k] Hk; [exact Hgt|]. apply Hfirst; lia.
Qed.

(** ** Pointwise effect of the in-place updates *)

Lemma b64_vget_transfer (v : F64.vec) (mb ma cm : nat) (x : F64.f64) :
  mb <> ma -> (mb < length v)%nat -> (ma < length v)%nat ->
  F64.vget (F64.vsub (F64.vadd v mb x) ma x) cm
  = if (cm =? mb)%nat then F64.fadd (F64.vget v cm) x
    else if (cm =? ma)%nat then F64.fsub (F64.vget v cm) x
    else F64.vget v cm.
Proof.
  intros Hne Hb Ha. unfold F64.vsub, F64.vadd, F64.vget.
  destruct (Nat.eqb_spec cm mb) as [->|Eb].
  - rewrite nth_upd_other by congruence. apply nth_upd_same; exact Hb.
  - destruct (Nat.eqb_spec cm ma) as [->|Ea].
    + rewrite nth_upd_same by (rewrite length_upd; exact Ha).
      rewrite nth_upd_other by congruence. reflexivity.
    + rewrite !nth_upd_other by congruence. reflexivity.
Qed.

Lemma b64_vget_nil (j : nat) : F64.vget [] j = F64.Fin 0.
Proof. destruct j; reflexivity. Qed.

Lemma b64_vget_mcol (A : F64.matrix) (u v : nat) :
  F64.vget (F64.mcol A u) v = F64.mget A v u.
Proof.
  unfold F64.mcol, F64.mget, F64.mrow, F64.vget at 1.
  destruct (Nat.lt_ge_cases v (length A)) as [H|H].
  - rewrite (nth_indep _ (F64.Fin 0) (F64.vget [] u)) by (rewrite length_map; exact H).
    apply (map_nth (fun r => F64.vget r u)).
  - rewrite !nth_overflow; try (rewrite ?length_map; exact H).
    symmetry; apply b64_vget_nil.
Qed.

Lemma b64_squareb_spec (k : nat) (A : F64.matrix) :
  F64.squareb k A = true <->
  length A = k /\ forall v, (v < k)%nat -> length (F64.mrow A v) = k.
Proof.
  unfold F64.squareb. rewrite andb_true_iff, Nat.eqb_eq, forallb_forall. split.
  - intros [L R]. split; [exact L|]. intros v Hv.
    apply Nat.eqb_eq, R. apply nth_In. lia.
  - intros [L R]. split; [exact L|]. intros r Hr.
    destruct (In_nth _ _ [] Hr) as (v & Hv & <-).
    apply Nat.eqb_eq, (R v). lia.
Qed.

Lemma b64_mrow_transfer (K : F64.matrix) (mb ma : nat) (x : F64.vec) (v : nat) :
  (v < length K)%nat ->
  F64.mrow (F64.sub_col (F64.add_col K mb x) ma x) v
  = F64.vsub (F64.vadd (F64.mrow K v) mb (F64.vget x v)) ma (F64.vget x v).
Proof.
  intro H. unfold F64.mrow, F64.sub_col, F64.add_col, imap.
  assert (H' : (v < length (imap_from 0 (fun i r => F64.vadd r mb (F64.vget x i)) K))%nat)
    by (rewrite length_imap_from; exact H).
  etransitivity;
    [exact (nth_imap_from (fun i r => F64.vsub r ma (F64.vget x i)) _ O v [] [] H')|].
  f_equal.
  exact (nth_imap_from (fun i r => F64.vadd r mb (F64.vget x i)) K O v [] [] H).
Qed.

Lemma b64_mget_transfer (K W : F64.matrix) (k mb ma u v cm : nat) :
  F64.squareb k K = true -> mb <> ma -> (mb < k)%nat -> (ma < k)%nat -> (v < k)%nat ->
  F64.mget (F64.sub_col (F64.add_col K mb (F64.mcol W u)) ma (F64.mcol W u)) v cm
  = if (cm =? mb)%nat then F64.fadd (F64.mget K v cm) (F64.mget W v u)
    else if (cm =? ma)%nat then F64.fsub (F64.mget K v cm) (F64.mget W v u)
    else F64.mget K v cm.
Proof.
  intros Hsq Hne Hb Ha Hv. apply b64_squareb_spec in Hsq. destruct Hsq as [L R].
  unfold F64.mget. rewrite b64_mrow_transfer by lia.
  rewrite b64_vget_mcol. apply b64_vget_transfer; rewrite ?R; auto.
Qed.

Lemma b64_squareb_transfer (K : F64.matrix) (k mb ma : nat) (x : F64.vec) :
  F64.squareb k K = true ->
  F64.squareb k (F64.sub_col (F64.add_col K mb x) ma x) = true.
Proof.
  intro H. apply b64_squareb_spec in H. destruct H as [L R]. apply b64_squareb_spec.
  split; [unfold F64.sub_col, F64.add_col, imap; rewrite !length_imap_from; exact L|].
  intros v Hv. rewrite b64_mrow_transfer by lia.
  unfold F64.vsub, F64.vadd. rewrite !length_upd. apply R; exact Hv.
Qed.

Lemma b64_shape_ok_spec (nh : nat) (st : F64.lm_state) :
  F64.shape_okb nh st = true ->
  length (F64.lm_m st) = nh /\
  (forall w, (w < nh)%nat -> (1 <= nth w (F64.lm_m st) O <= nh)%nat) /\
  length (F64.lm_km0 st) = nh /\ length (F64.lm_km1 st) = nh /\
  F64.squareb nh (F64.lm_knm0 st) = true /\ F64.squareb nh (F64.lm_knm1 st) = true.
Proof.
  unfold F64.shape_okb. rewrite !andb_true_iff, !Nat.eqb_eq, forallb_forall.
  intros (((((L & F) & K0) & K1) & S0) & S1). repeat split; auto.
  - assert (I : In (nth w (F64.lm_m st) O) (F64.lm_m st)) by (apply nth_In; lia).
    apply F in I. apply andb_true_iff in I. destruct I as [I _].
    apply Nat.leb_le in I. exact I.
  - assert (I : In (nth w (F64.lm_m st) O) (F64.lm_m st)) by (apply nth_In; lia).
    apply F in I. apply andb_true_iff in I. destruct I as [_ I].
    apply Nat.leb_le in I. exact I.
Qed.

Lemma b64_module_of_range (nh : nat) (st : F64.lm_state) (u : nat) :
  F64.shape_okb nh st = true -> (u < nh)%nat ->
  (F64.module_of st u < nh)%nat /\ nth u (F64.lm_m st) O = (F64.module_of st u + 1)%nat.
Proof.
  intros H Hu. destruct (b64_shape_ok_spec _ _ H) as (_ & R & _).
  specialize (R u Hu). unfold F64.module_of. lia.
Qed.

(** ** The delta vector of a visit *)

Lemma b64_length_dQ gamma c W0 W1 nh st u :
  length (F64.dQ gamma c W0 W1 nh st u) = nh.
Proof.
  unfold F64.dQ, F64.rescaled, F64.dQ0, F64.dQ1, F64.delta_part.
  rewrite length_upd, length_map, length_combine, !length_map, !length_seq.
  apply Nat.min_id.
Qed.

Lemma b64_dQ_own_module gamma c W0 W1 nh st u :
  (F64.module_of st u < nh)%nat ->
  F64.vget (F64.dQ gamma c W0 W1 nh st u) (F64.module_of st u) = F64.Fin 0.
Proof.
  intro H. unfold F64.vget. unfold F64.dQ at 1. apply nth_upd_same.
  pose proof (b64_length_dQ gamma c W0 W1 nh st u) as L.
  unfold F64.dQ in L. rewrite length_upd in L. rewrite L. exact H.
Qed.

(** The accumulators after [move], entry by entry. *)
Lemma b64_move_km W0 W1 nh st u mb cm :
  F64.shape_okb nh st = true -> (mb < nh)%nat -> (F64.module_of st u < nh)%nat ->
  mb <> F64.module_of st u ->
  F64.vget (F64.lm_km0 (F64.move W0 W1 nh st u mb)) cm
  = (if (cm =? mb)%nat then F64.fadd (F64.vget (F64.lm_km0 st) cm) (F64.vget (F64.kn0 W0 nh) u)
     else if (cm =? F64.module_of st u)%nat
          then F64.fsub (F64.vget (F64.lm_km0 st) cm) (F64.vget (F64.kn0 W0 nh) u)
     else F64.vget (F64.lm_km0 st) cm) /\
  F64.vget (F64.lm_km1 (F64.move W0 W1 nh st u mb)) cm
  = (if (cm =? mb)%nat then F64.fadd (F64.vget (F64.lm_km1 st) cm) (F64.vget (F64.kn1 W1 nh) u)
     else if (cm =? F64.module_of st u)%nat
          then F64.fsub (F64.vget (F64.lm_km1 st) cm) (F64.vget (F64.kn1 W1 nh) u)
     else F64.vget (F64.lm_km1 st) cm).
Proof.
  intros Hshape Hmb Hma Hdiff.
  destruct (b64_shape_ok_spec _ _ Hshape) as (_ & _ & Lk0 & Lk1 & _).
  unfold F64.move; simpl. split; apply b64_vget_transfer; auto; lia.
Qed.

Lemma b64_move_knm W0 W1 nh st u mb v cm :
  F64.shape_okb nh st = true -> (mb < nh)%nat -> (F64.module_of st u < nh)%nat ->
  mb <> F64.module_of st u -> (v < nh)%nat ->
  F64.mget (F64.lm_knm0 (F64.move W0 W1 nh st u mb)) v cm
  = (if (cm =? mb)%nat then F64.fadd (F64.mget (F64.lm_knm0 st) v cm) (F64.mget W0 v u)
     else if (cm =? F64.module_of st u)%nat
          then F64.fsub (F64.mget (F64.lm_knm0 st) v cm) (F64.mget W0 v u)
     else F64.mget (F64.lm_knm0 st) v cm) /\
  F64.mget (F64.lm_knm1 (F64.move W0 W1 nh st u mb)) v cm
  = (if (cm =? mb)%nat then F64.fadd (F64.mget (F64.lm_knm1 st) v cm) (F64.mget W1 v u)
     else if (cm =? F64.module_of st u)%nat
          then F64.fsub (F64.mget (F64.lm_knm1 st) v cm) (F64.mget W1 v u)
     else F64.mget (F64.lm_knm1 st) v cm).
Proof.
  intros Hshape Hmb Hma Hdiff Hv.
  destruct (b64_shape_ok_spec _ _ Hshape) as (_ & _ & _ & _ & S0 & S1).
  unfold F64.move; simpl. split; apply (b64_mget_transfer _ _ nh); auto.
Qed.

(** What [np.max] and [np.argmax] give on a delta vector whose maximum
    passes the test: the vector holds no [nan], the target is in range and
    is not the node's own module. *)
Lemma b64_accepted_target (dq : F64.vec) (nh ma : nat) :
  length dq = nh -> (ma < nh)%nat -> F64.vget dq ma = F64.Fin 0 ->
  F64.fgtb (F64.np_max dq) F64.tol = true ->
  F64.has_nan dq = false /\ (F64.np_argmax dq < nh)%nat /\ F64.np_argmax dq <> ma.
Proof.
  intros L Hma Hown Hgain.
  assert (Hn : F64.has_nan dq = false).
  { rewrite <- np_max_nan. destruct (F64.np_max dq); try discriminate; reflexivity. }
  assert (Hne : dq <> []) by (intro E; rewrite E in L; simpl in L; lia).
  destruct (b64_np_argmax_spec dq Hne Hn) as (Hmb & Hmax & _).
  rewrite L in Hmb. split; [exact Hn|]. split; [exact Hmb|].
  intro E. rewrite E in Hmax. unfold F64.vget in Hown. rewrite Hown in Hmax.
  rewrite <- Hmax in Hgain. destruct tol_above_zero as [T _]. congruence.
Qed.

(** ** The scaling constants *)


(** The configurations written out for the sample inputs are the ones the
    configuration step computes for the standard variant. *)
Lemma sample_configurations :
  snd (F64.configure near_tie "sta" None world0)
  = Ok (near_tie, near_tie_W1, near_tie_cfg) /\
  snd (F64.configure light_triangle "sta" None world0)
  = Ok (light_triangle_W0, light_triangle_W1, light_triangle_cfg) /\
  snd (F64.configure (F64.of_ints small_pair) "sta" None world0)
  = Ok (F64.of_ints small_pair, F64.of_ints no_weights, small_pair_cfg).
Proof. vm_compute. repeat split. Qed.

(** ** The move rule *)



(** ** The configuration step *)

Lemma b64_seed_accepted (seed : option Z) (w : world) :
  valid_seed seed = true -> F64.np_random_seed seed w = np_random_seed seed w.
Proof.
  intro H. unfold F64.np_random_seed, np_random_seed.
  destruct seed as [s|]; [rewrite H|]; reflexivity.
Qed.

Lemma b64_seed_refused (seed : option Z) (w : world) :
  valid_seed seed = false ->
  F64.np_random_seed seed w = (w, Raise (ValueError F64.seed_range_message)).
Proof.
  intro H. unfold F64.np_random_seed.
  destruct seed as [s|]; [rewrite H; reflexivity | discriminate H].
Qed.

Lemma b64_configure_unfold (W : F64.matrix) (qtype : string) (seed : option Z)
    (w : world) :
  valid_seed seed = true ->
  F64.configure W qtype seed w =
  (after_totals seed w,
   match F64.constants qtype (F64.np_sum2 (F64.mmap F64.positive_part W))
                       (F64.np_sum2 (F64.mmap F64.negative_part W)) with
   | Ok c => Ok (F64.mmap F64.positive_part W, F64.mmap F64.negative_part W, c)
   | Raise e => Raise e
   end).
Proof.
  intro H. unfold F64.configure, after_totals, seeded_world, bind at 1.
  rewrite (b64_seed_accepted seed w H).
  unfold bind, log, lift, ret.
  destruct seed as [s|]; simpl;
    destruct (F64.constants qtype _ _); simpl; rewrite <- ?app_assoc; reflexivity.
Qed.

Lemma b64_run_unfold (G : shuffler) (W : F64.matrix) (gamma : F64.f64)
    (qtype : string) (seed : option Z) (w : world) :
  valid_seed seed = true ->
  F64.modularity_louvain_und_sign G W gamma qtype seed w =
  match F64.constants qtype (F64.np_sum2 (F64.mmap F64.positive_part W))
                      (F64.np_sum2 (F64.mmap F64.negative_part W)) with
  | Ok c => F64.optimise G gamma (length W) (F64.mmap F64.positive_part W)
                         (F64.mmap F64.negative_part W) c (after_totals seed w)
  | Raise e => (after_totals seed w, Raise e)
  end.
Proof.
  intro H. unfold F64.modularity_louvain_und_sign, bind at 1.
  rewrite (b64_configure_unfold W qtype seed w H).
  destruct (F64.constants qtype _ _); reflexivity.
Qed.

Lemma b64_run_refused (G : shuffler) (W : F64.matrix) (gamma : F64.f64)
    (qtype : string) (seed : option Z) (w : world) :
  valid_seed seed = false ->
  F64.modularity_louvain_und_sign G W gamma qtype seed w
  = (w, Raise (ValueError F64.seed_range_message)).
Proof.
  intro H. unfold F64.modularity_louvain_und_sign, F64.configure, bind.
  rewrite (b64_seed_refused seed w H). reflexivity.
Qed.

Lemma b64_scaling_unrecognised (qtype : string) (s0 s1 : F64.f64) :
  recognised qtype = false ->
  F64.constants qtype s0 s1 = Raise (KeyError "modularity type unknown").
Proof.
  unfold recognised, F64.constants, F64.scaling; simpl. intro H.
  repeat (apply orb_false_iff in H; destruct H as [-> H]).
  reflexivity.
Qed.

(** ** Unknown variant names, with the seed check *)

(** C2, amended: the first statement of the function is
    [np.random.seed(seed)].  A seed numpy refuses (an integer outside
    [0 .. 2**32 - 1]) raises [ValueError] there, with nothing done.  With
    any other seed an unknown variant raises [KeyError]; by then the
    generator has been reseeded from [seed] and exactly the sign split and
    the two totals have been computed; no hierarchy level has been started
    and nothing is returned. *)
Theorem unknown_qtype_raises (G : shuffler) (W : F64.matrix) (gamma : F64.f64)
    (qtype : string) (seed : option Z) (w : world) :
  recognised qtype = false ->
  F64.modularity_louvain_und_sign G W gamma qtype seed w
  = if valid_seed seed
    then (after_totals seed w, Raise (KeyError "modularity type unknown"))
    else (w, Raise (ValueError F64.seed_range_message)).
Proof.
  intro H. destruct (valid_seed seed) eqn:V.
  - rewrite (b64_run_unfold G W gamma qtype seed w V).
    rewrite (b64_scaling_unrecognised qtype _ _ H). reflexivity.
  - apply b64_run_refused; exact V.
Qed.

Lemma unknown_qtype_raises_witness :
  recognised "louvain" = false /\
  F64.modularity_louvain_und_sign sorted_order positive_pair (F64.Fin 1) "louvain"
    None world0
  = (after_totals None world0, Raise (KeyError "modularity type unknown")) /\
  F64.modularity_louvain_und_sign sorted_order positive_pair (F64.Fin 1) "louvain"
    (Some (-1)%Z) world0
  = (world0, Raise (ValueError F64.seed_range_message)).
Proof.
  split; [reflexivity|]. split.
  - apply (unknown_qtype_raises sorted_order positive_pair (F64.Fin 1) "louvain"
             None world0).
    reflexivity.
  - apply (unknown_qtype_raises sorted_order positive_pair (F64.Fin 1) "louvain"
             (Some (-1)%Z) world0).
    reflexivity.
Defined.

(** ** When both scaling constants are zero *)











(** ** The negative-only variant without negative weights *)







(** ** The accumulators against the module sums *)

(** C10, as stated, fails in binary64.  On the symmetric matrix
    [[0, .1, .1], [.1, 0, .3], [.1, .3, 0]] (standard variant, gamma 1, nodes
    visited in index order) node 0 joins node 1, node 1 leaves for node 2
    and node 0 follows.  The loop returns with all three nodes in module 3
    and module 2 empty, yet [km0[1]] is [2^-54] and [knm0[2, 1]] is
    [2^-55], because [(0.4 + 0.2) - 0.4 - 0.2] is not 0 in floats. *)
Lemma rounding_breaks_accumulators :
  snd (F64.local_moving sorted_order (F64.Fin 1) light_triangle_cfg light_triangle_W0
         light_triangle_W1 3 world0) = Ok light_triangle_state /\
  F64.reachable (F64.Fin 1) light_triangle_cfg light_triangle_W0 light_triangle_W1 3
    light_triangle_state /\
  F64.lm_m light_triangle_state = [3; 3; 3]%nat /\
  F64.vget (F64.lm_km0 light_triangle_state) 1 = F64.Fin (1 # 18014398509481984) /\
  F64.module_sum (F64.lm_m light_triangle_state) 1
    (F64.vget (F64.kn0 light_triangle_W0 3)) = F64.Fin 0 /\
  ~ F64.consistent light_triangle_W0 light_triangle_W1 3 light_triangle_state.
Proof.
  split; [vm_compute; reflexivity|].
  split.
  { unfold light_triangle_state, light_triangle_step.
    repeat (apply F64.reach_step; [|lia]). apply F64.reach_init. }
  split; [vm_compute; reflexivity|].
  split; [vm_compute; reflexivity|].
  split; [vm_compute; reflexivity|].
  intro H. destruct (H 1%nat ltac:(lia)) as [H0 _].
  vm_compute in H0. discriminate H0.
Qed.

(** *** Integers below [2^53] are added and subtracted exactly *)

Lemma Qred_int (z : Z) : Qred (inject_Z z) = inject_Z z.
Proof.
  unfold inject_Z, Qred.
  pose proof (Z.ggcd_correct_divisors z 1) as D.
  pose proof (Z.ggcd_gcd z 1) as Gd.
  destruct (Z.ggcd z 1) as (g & a & b). simpl in Gd.
  destruct D as [D1 D2].
  assert (Hg : (0 <= g)%Z) by (rewrite Gd; apply Z.gcd_nonneg).
  destruct (Z.eq_mul_1_nonneg g b Hg (eq_sym D2)) as [-> ->].
  rewrite Z.mul_1_l in D1. subst a. reflexivity.
Qed.

Lemma round_compat (q q' : Q) : q == q' -> F64.round q = F64.round q'.
Proof.
  intro H. unfold F64.round. rewrite (Qred_complete q q' H). reflexivity.
Qed.

Lemma half_even_whole (n : Z) : F64.half_even n 1 = n.
Proof.
  unfold F64.half_even. rewrite Z.mod_1_r, Z.div_1_r. reflexivity.
Qed.

Lemma round_pos_int (n : positive) :
  (Zpos n < 2 ^ 53)%Z -> F64.round_pos (Zpos n) 1 = F64.Fin (inject_Z (Zpos n)).
Proof.
  intro H.
  assert (Hpos : (0 < Zpos n)%Z) by lia.
  assert (L0 : (0 <= Z.log2 (Zpos n))%Z) by apply Z.log2_nonneg.
  assert (L1 : (Z.log2 (Zpos n) < 53)%Z) by (apply Z.log2_lt_pow2; assumption).
  assert (B : F64.binade (Zpos n) 1 = Z.log2 (Zpos n)).
  { unfold F64.binade. change (Z.log2 1) with 0%Z. rewrite Z.sub_0_r.
    destruct (Z.leb_spec 0 (Z.log2 (Zpos n))) as [_|]; [|lia].
    rewrite Z.mul_1_l.
    destruct (Z.leb_spec (2 ^ Z.log2 (Zpos n)) (Zpos n)) as [_|Hlt]; [reflexivity|].
    pose proof (Z.log2_spec (Zpos n) Hpos). lia. }
  unfold F64.round_pos. rewrite B.
  rewrite Z.max_l by lia.
  set (p := (Z.log2 (Zpos n) - 52)%Z).
  destruct (Z.leb_spec 0 p) as [Hp|Hp].
  - assert (p = 0%Z) by lia. replace p with 0%Z.
    change (2 ^ 0)%Z with 1%Z. rewrite !Z.mul_1_r, half_even_whole.
    destruct (Z.leb_spec (2 ^ 1024) (Zpos n)) as [Hbig|_]; [|reflexivity].
    exfalso. assert ((2 ^ 53 < 2 ^ 1024)%Z) by (vm_compute; reflexivity). lia.
  - rewrite half_even_whole.
    assert (Hk : (0 < 2 ^ (- p))%Z) by (apply Z.pow_pos_nonneg; lia).
    rewrite <- Qred_int. f_equal. apply Qred_complete.
    unfold Qeq, inject_Z. cbn [Qnum Qden].
    rewrite Z2Pos.id by exact Hk. ring.
Qed.

Lemma round_int (z : Z) :
  (Z.abs z < 2 ^ 53)%Z -> F64.round (inject_Z z) = F64.of_int z.
Proof.
  intro H. unfold F64.round, F64.of_int. rewrite Qred_int.
  destruct z as [|n|n]; cbn [inject_Z Qnum Qden].
  - reflexivity.
  - apply round_pos_int. exact H.
  - rewrite round_pos_int by exact H. reflexivity.
Qed.

Lemma fadd_int (a b : Z) :
  (Z.abs (a + b) < 2 ^ 53)%Z ->
  F64.fadd (F64.of_int a) (F64.of_int b) = F64.of_int (a + b).
Proof.
  intro H. unfold F64.of_int at 1 2. cbn [F64.fadd].
  rewrite <- (round_int _ H). apply round_compat.
  unfold Qeq, inject_Z. simpl. ring.
Qed.

Lemma fsub_int (a b : Z) :
  (Z.abs (a - b) < 2 ^ 53)%Z ->
  F64.fsub (F64.of_int a) (F64.of_int b) = F64.of_int (a - b).
Proof.
  intro H. unfold F64.fsub, F64.of_int at 1 2. cbn [F64.fopp F64.fadd].
  rewrite <- (round_int _ H). apply round_compat.
  unfold Qeq, inject_Z. simpl. ring.
Qed.

(** *** Sums of integers that are not negative *)

Lemma zsum_nonneg (l : list Z) :
  Forall (fun z => (0 <= z)%Z) l -> (0 <= F64.zsum l)%Z.
Proof.
  induction 1 as [|x t Hx _ IH]; simpl; lia.
Qed.

Lemma zsum_member (l : list Z) (x : Z) :
  Forall (fun z => (0 <= z)%Z) l -> In x l -> (x <= F64.zsum l)%Z.
Proof.
  induction 1 as [|y t Hy Ht IH]; intros Hin; [destruct Hin|].
  simpl. destruct Hin as [->|Hin].
  - pose proof (zsum_nonneg t Ht). lia.
  - specialize (IH Hin). lia.
Qed.

Lemma zsum_map_le (f g : nat -> Z) (l : list nat) :
  (forall w, In w l -> (f w <= g w)%Z) ->
  (F64.zsum (map f l) <= F64.zsum (map g l))%Z.
Proof.
  induction l as [|x t IH]; intro H; simpl; [lia|].
  pose proof (H x (or_introl eq_refl)).
  assert ((F64.zsum (map f t) <= F64.zsum (map g t))%Z)
    by (apply IH; intros w Hw; apply H; right; exact Hw).
  lia.
Qed.

(** A float sum of such integers is their sum, as long as that stays
    below [2^53]. *)
Lemma np_sum_from_int (l : list Z) :
  Forall (fun z => (0 <= z)%Z) l ->
  forall acc, (0 <= acc)%Z -> (acc + F64.zsum l < 2 ^ 53)%Z ->
  fold_left F64.fadd (map F64.of_int l) (F64.of_int acc) = F64.of_int (acc + F64.zsum l).
Proof.
  induction 1 as [|x t Hx Ht IH]; intros acc Ha Hb; cbn [map fold_left].
  - change (F64.zsum []) with 0%Z. rewrite Z.add_0_r. reflexivity.
  - change (F64.zsum (x :: t)) with (x + F64.zsum t)%Z in *.
    pose proof (zsum_nonneg t Ht).
    rewrite fadd_int by lia. rewrite IH by lia. f_equal. lia.
Qed.

Lemma np_sum_ints (l : list Z) :
  Forall (fun z => (0 <= z)%Z) l -> (F64.zsum l < 2 ^ 53)%Z ->
  F64.np_sum (map F64.of_int l) = F64.of_int (F64.zsum l).
Proof.
  intros Hl Hb. unfold F64.np_sum.
  change (F64.Fin 0) with (F64.of_int 0).
  rewrite (np_sum_from_int l Hl 0%Z) by lia. reflexivity.
Qed.

(** *** An integer matrix seen as floats *)

Lemma small_weights_spec (k : nat) (A : list (list Z)) :
  F64.small_weights k A = true ->
  F64.squareb k (F64.of_ints A) = true /\
  (forall r, In r A -> Forall (fun z => (0 <= z)%Z) r) /\
  (F64.ztotal k A < 2 ^ 53)%Z.
Proof.
  unfold F64.small_weights. rewrite !andb_true_iff.
  intros (((L & R) & P) & T). split; [|split].
  - unfold F64.squareb, F64.of_ints. rewrite length_map, L. simpl.
    rewrite forallb_forall in *. intros r Hr. apply in_map_iff in Hr.
    destruct Hr as (r0 & <- & Hr0). rewrite length_map. apply R; exact Hr0.
  - intros r Hr. rewrite forallb_forall in P. specialize (P r Hr).
    rewrite forallb_forall in P. apply Forall_forall. intros z Hz.
    apply Z.leb_le, P, Hz.
  - apply Z.ltb_lt; exact T.
Qed.

Lemma mget_of_ints (A : list (list Z)) (v w : nat) :
  F64.mget (F64.of_ints A) v w = F64.of_int (F64.zget A v w).
Proof.
  unfold F64.mget, F64.mrow, F64.vget, F64.of_ints, F64.zget.
  change (@nil F64.f64) with (map F64.of_int []). rewrite map_nth.
  change (F64.Fin 0) with (F64.of_int 0). apply map_nth.
Qed.

Section IntegerWeights.

Variable nh : nat.
Variable A : list (list Z).
Hypothesis entries : forall r, In r A -> Forall (fun z => (0 <= z)%Z) r.
Hypothesis total : (F64.ztotal nh A < 2 ^ 53)%Z.

Lemma zget_nonneg (v w : nat) : (0 <= F64.zget A v w)%Z.
Proof.
  unfold F64.zget. destruct (Nat.lt_ge_cases v (length A)) as [Hv|Hv].
  - pose proof (entries _ (nth_In A [] Hv)) as F.
    destruct (Nat.lt_ge_cases w (length (nth v A []))) as [Hw|Hw].
    + rewrite Forall_forall in F. apply F, nth_In, Hw.
    + rewrite nth_overflow by exact Hw. lia.
  - rewrite (nth_overflow A) by exact Hv. destruct w; simpl; lia.
Qed.

Lemma column_entries (u : nat) :
  Forall (fun z => (0 <= z)%Z) (map (fun r => nth u r 0%Z) A).
Proof.
  apply Forall_forall. intros z Hz. apply in_map_iff in Hz.
  destruct Hz as (r & <- & Hr).
  destruct (In_nth A r [] Hr) as (v & Hv & <-). apply (zget_nonneg v u).
Qed.

Lemma zcolumn_nonneg (u : nat) : (0 <= F64.zcolumn A u)%Z.
Proof. apply zsum_nonneg, column_entries. Qed.

Lemma zget_le_column (v w : nat) : (F64.zget A v w <= F64.zcolumn A w)%Z.
Proof.
  destruct (Nat.lt_ge_cases v (length A)) as [Hv|Hv].
  - apply zsum_member; [apply column_entries|].
    unfold F64.zget. apply (in_map (fun r => nth w r 0%Z)). apply nth_In, Hv.
  - unfold F64.zget. rewrite (nth_overflow A) by exact Hv.
    pose proof (zcolumn_nonneg w). destruct w; simpl; lia.
Qed.

Lemma zcolumn_le_total (u : nat) : (u < nh)%nat -> (F64.zcolumn A u <= F64.ztotal nh A)%Z.
Proof.
  intro Hu. unfold F64.ztotal. apply zsum_member.
  - apply Forall_forall. intros z Hz. apply in_map_iff in Hz.
    destruct Hz as (w & <- & _). apply zcolumn_nonneg.
  - apply in_map, in_seq. lia.
Qed.

(** The column sums the program computes are the exact ones. *)
Lemma kn_of_ints (u : nat) :
  (u < nh)%nat ->
  F64.vget (F64.sum_axis0 nh (F64.of_ints A)) u = F64.of_int (F64.zcolumn A u).
Proof.
  intro Hu. unfold F64.vget, F64.sum_axis0.
  rewrite (nth_map_seq (fun j => F64.np_sum (F64.mcol (F64.of_ints A) j)) nh u _ Hu).
  replace (F64.mcol (F64.of_ints A) u)
    with (map F64.of_int (map (fun r => nth u r 0%Z) A)).
  - apply np_sum_ints; [apply column_entries|].
    pose proof (zcolumn_le_total u Hu). unfold F64.zcolumn in *. lia.
  - unfold F64.mcol, F64.of_ints. rewrite !map_map. apply map_ext. intro r.
    unfold F64.vget. change (F64.Fin 0) with (F64.of_int 0). symmetry. apply map_nth.
Qed.

(** A module sum of column sums, or of one row, stays within the total. *)
Lemma zmodule_bounds (m : list nat) (cm : nat) (f : nat -> Z) :
  length m = nh ->
  (forall w, (0 <= f w <= F64.zcolumn A w)%Z) ->
  (0 <= F64.zmodule m cm f <= F64.ztotal nh A)%Z.
Proof.
  intros L Hf. unfold F64.zmodule, F64.ztotal. rewrite L. split.
  - apply zsum_nonneg, Forall_forall. intros z Hz. apply in_map_iff in Hz.
    destruct Hz as (w & <- & _).
    destruct (nth w m O =? cm + 1)%nat; [apply Hf | lia].
  - apply zsum_map_le. intros w _.
    destruct (nth w m O =? cm + 1)%nat; [apply Hf|apply zcolumn_nonneg].
Qed.

End IntegerWeights.

(** *** Module sums under a move *)

Lemma zsum_map_change (g g' : nat -> Z) (l : list nat) (u : nat) :
  NoDup l -> In u l -> (forall w, w <> u -> g' w = g w) ->
  F64.zsum (map g' l) = (F64.zsum (map g l) + (g' u - g u))%Z.
Proof.
  intros Hnd Hin Hext. induction l as [|x t IH]; [destruct Hin|].
  inversion Hnd as [|? ? Hx Ht]; subst. simpl.
  destruct (Nat.eq_dec x u) as [->|Hxu].
  - replace (map g' t) with (map g t); [lia|].
    apply map_ext_in. intros w Hw. symmetry. apply Hext. intro E; subst; contradiction.
  - destruct Hin as [E|Hin]; [contradiction|].
    rewrite (IH Ht Hin), (Hext x Hxu). lia.
Qed.

Lemma zmodule_upd (m : list nat) (u ma mb cm : nat) (f : nat -> Z) :
  (u < length m)%nat -> nth u m O = (ma + 1)%nat ->
  F64.zmodule (upd m u (mb + 1)%nat) cm f
  = (F64.zmodule m cm f
     + ((if (cm =? mb)%nat then f u else 0) - (if (cm =? ma)%nat then f u else 0)))%Z.
Proof.
  intros Hu Hlabel. unfold F64.zmodule. rewrite length_upd.
  rewrite (zsum_map_change
             (fun w => if (nth w m O =? cm + 1)%nat then f w else 0%Z) _ _ u).
  - rewrite nth_upd_same by exact Hu. rewrite Hlabel.
    replace ((mb + 1 =? cm + 1)%nat) with ((cm =? mb)%nat)
      by (destruct (Nat.eqb_spec cm mb), (Nat.eqb_spec (mb + 1) (cm + 1)); auto; lia).
    replace ((ma + 1 =? cm + 1)%nat) with ((cm =? ma)%nat)
      by (destruct (Nat.eqb_spec cm ma), (Nat.eqb_spec (ma + 1) (cm + 1)); auto; lia).
    reflexivity.
  - apply seq_NoDup.
  - apply in_seq. lia.
  - intros w Hw. rewrite nth_upd_other by congruence. reflexivity.
Qed.

Lemma zsum_zeros (l : list nat) : F64.zsum (map (fun _ => 0%Z) l) = 0%Z.
Proof. induction l as [|x t IH]; simpl; [reflexivity | exact IH]. Qed.

Lemma zmodule_singletons (k cm : nat) (f : nat -> Z) :
  (cm < k)%nat -> F64.zmodule (seq 1 k) cm f = f cm.
Proof.
  intro H. unfold F64.zmodule. rewrite length_seq.
  rewrite (zsum_map_change (fun _ => 0%Z) _ _ cm).
  - rewrite zsum_zeros, seq_nth by exact H.
    replace ((1 + cm =? cm + 1)%nat) with true by (symmetry; apply Nat.eqb_eq; lia).
    lia.
  - apply seq_NoDup.
  - apply in_seq. lia.
  - intros w Hw.
    destruct (Nat.lt_ge_cases w k) as [Hlt|Hge].
    + rewrite seq_nth by exact Hlt.
      destruct (Nat.eqb_spec (1 + w) (cm + 1)); [lia|reflexivity].
    + rewrite nth_overflow by (rewrite length_seq; exact Hge).
      destruct (Nat.eqb_spec 0 (cm + 1)); [lia|reflexivity].
Qed.

(** The float sum over the members of a module is the exact module sum. *)
Lemma module_sum_ints (m : list nat) (cm : nat) (f : nat -> F64.f64) (g : nat -> Z) :
  (forall w, (w < length m)%nat -> f w = F64.of_int (g w)) ->
  (forall w, (0 <= g w)%Z) ->
  (F64.zmodule m cm g < 2 ^ 53)%Z ->
  F64.module_sum m cm f = F64.of_int (F64.zmodule m cm g).
Proof.
  intros Hf Hg Hb. unfold F64.module_sum, F64.zmodule in *.
  assert (Hin : forall w, In w (seq 0 (length m)) -> (w < length m)%nat)
    by (intros w Hw; apply in_seq in Hw; lia).
  revert Hin Hb. generalize (seq 0 (length m)) as l.
  intros l Hin Hb.
  replace (map f (filter (fun w => (nth w m O =? cm + 1)%nat) l))
    with (map F64.of_int (map g (filter (fun w => (nth w m O =? cm + 1)%nat) l))).
  - assert (E : F64.zsum (map g (filter (fun w => (nth w m O =? cm + 1)%nat) l))
                = F64.zsum (map (fun w => if (nth w m O =? cm + 1)%nat then g w else 0%Z) l)).
    { clear. induction l as [|x t IH]; simpl; [reflexivity|].
      destruct (nth x m O =? cm + 1)%nat; simpl; rewrite IH; reflexivity. }
    rewrite <- E in *. apply np_sum_ints; [|exact Hb].
    apply Forall_forall. intros z Hz. apply in_map_iff in Hz.
    destruct Hz as (w & <- & _). apply Hg.
  - rewrite map_map. apply map_ext_in. intros w Hw. symmetry. apply Hf, Hin.
    apply filter_In in Hw. apply Hw.
Qed.

Lemma feqb_refl_int (z : Z) : F64.feqb (F64.of_int z) (F64.of_int z) = true.
Proof. unfold F64.of_int. simpl. apply Qeq_bool_iff. reflexivity. Qed.

(** *** The invariant *)

Lemma b64_length_sum_axis0 (k : nat) (A : F64.matrix) : length (F64.sum_axis0 k A) = k.
Proof. unfold F64.sum_axis0. rewrite length_map, length_seq. reflexivity. Qed.

Lemma b64_shape_ok_init (W0 W1 : F64.matrix) (nh : nat) :
  F64.squareb nh W0 = true -> F64.squareb nh W1 = true ->
  F64.shape_okb nh (F64.lm_init W0 W1 nh) = true.
Proof.
  intros H0 H1. unfold F64.shape_okb, F64.lm_init, F64.kn0, F64.kn1.
  cbn [F64.lm_m F64.lm_km0 F64.lm_km1 F64.lm_knm0 F64.lm_knm1].
  rewrite length_seq, !b64_length_sum_axis0, H0, H1, Nat.eqb_refl, !andb_true_r.
  apply forallb_forall. intros x Hx.
  apply in_seq in Hx. apply andb_true_iff. split; apply Nat.leb_le; lia.
Qed.

Lemma b64_shape_ok_move W0 W1 nh st u mb :
  (mb < nh)%nat -> F64.shape_okb nh st = true ->
  F64.shape_okb nh (F64.move W0 W1 nh st u mb) = true.
Proof.
  intros Hmb Hshape. unfold F64.shape_okb in *. unfold F64.move.
  cbn [F64.lm_m F64.lm_km0 F64.lm_km1 F64.lm_knm0 F64.lm_knm1].
  rewrite !andb_true_iff in *.
  destruct Hshape as (((((L & F) & K0) & K1) & S0) & S1).
  unfold F64.vsub, F64.vadd. rewrite !length_upd.
  repeat split; auto using b64_squareb_transfer.
  apply forallb_forall. intros x Hx.
  rewrite forallb_forall in F.
  destruct (In_nth _ _ O Hx) as (w & Hw & <-). rewrite length_upd in Hw.
  destruct (Nat.eq_dec u w) as [<-|Hne].
  - rewrite nth_upd_same by exact Hw.
    apply andb_true_iff; split; apply Nat.leb_le; lia.
  - rewrite nth_upd_other by exact Hne. apply F, nth_In, Hw.
Qed.

(** A visit either leaves the state alone or moves the node to a module
    in range other than its own. *)
Lemma b64_node_step_cases gamma c W0 W1 nh st u :
  (u < nh)%nat -> F64.shape_okb nh st = true ->
  fst (F64.node_step gamma c W0 W1 nh st u) = st \/
  exists mb, (mb < nh)%nat /\ mb <> F64.module_of st u /\
             fst (F64.node_step gamma c W0 W1 nh st u) = F64.move W0 W1 nh st u mb.
Proof.
  intros Hu Hshape. unfold F64.node_step, F64.try_move.
  destruct (F64.fgtb (F64.np_max (F64.dQ gamma c W0 W1 nh st u)) F64.tol) eqn:E;
    [|left; reflexivity].
  right. destruct (b64_module_of_range _ _ _ Hshape Hu) as [Hma _].
  destruct (b64_accepted_target _ nh _ (b64_length_dQ gamma c W0 W1 nh st u) Hma
              (b64_dQ_own_module gamma c W0 W1 nh st u Hma) E) as (_ & Hmb & Hdiff).
  eexists. split; [exact Hmb|]. split; [exact Hdiff | reflexivity].
Qed.

Lemma b64_reachable_shape gamma c W0 W1 nh st :
  F64.squareb nh W0 = true -> F64.squareb nh W1 = true ->
  F64.reachable gamma c W0 W1 nh st -> F64.shape_okb nh st = true.
Proof.
  intros H0 H1 R. induction R as [|st u R IH Hu].
  - apply b64_shape_ok_init; assumption.
  - destruct (b64_node_step_cases gamma c W0 W1 nh st u Hu IH)
      as [-> | (mb & Hmb & _ & ->)]; [exact IH|].
    apply b64_shape_ok_move; assumption.
Qed.

(** One rounded addition at the target and one rounded subtraction at the
    source land on the new exact value. *)
Lemma transfer_int (cm mb ma : nat) (a x t : Z) :
  mb <> ma -> (Z.abs t < 2 ^ 53)%Z ->
  t = (a + ((if (cm =? mb)%nat then x else 0) - (if (cm =? ma)%nat then x else 0)))%Z ->
  (if (cm =? mb)%nat then F64.fadd (F64.of_int a) (F64.of_int x)
   else if (cm =? ma)%nat then F64.fsub (F64.of_int a) (F64.of_int x)
   else F64.of_int a) = F64.of_int t.
Proof.
  intros Hdiff Hb ->.
  destruct (Nat.eqb_spec cm mb) as [E1|E1], (Nat.eqb_spec cm ma) as [E2|E2];
    try (exfalso; apply Hdiff; congruence).
  - rewrite fadd_int; [f_equal; lia|]. replace (a + x)%Z with (a + (x - 0))%Z by lia.
    exact Hb.
  - rewrite fsub_int; [f_equal; lia|]. replace (a - x)%Z with (a + (0 - x))%Z by lia.
    exact Hb.
  - f_equal. lia.
Qed.

Section ExactAccumulators.

Variable nh : nat.
Variables A0 A1 : list (list Z).
Hypothesis small0 : F64.small_weights nh A0 = true.
Hypothesis small1 : F64.small_weights nh A1 = true.

Lemma exact_init :
  F64.exact_accumulators nh A0 A1 (F64.lm_init (F64.of_ints A0) (F64.of_ints A1) nh).
Proof.
  destruct (small_weights_spec _ _ small0) as (_ & E0 & T0).
  destruct (small_weights_spec _ _ small1) as (_ & E1 & T1).
  intros cm Hcm. unfold F64.lm_init. cbn [F64.lm_m F64.lm_km0 F64.lm_km1 F64.lm_knm0 F64.lm_knm1].
  rewrite !zmodule_singletons by exact Hcm.
  unfold F64.kn0, F64.kn1.
  split; [apply (kn_of_ints nh A0 E0 T0); exact Hcm|].
  split; [apply (kn_of_ints nh A1 E1 T1); exact Hcm|].
  intros v Hv. rewrite !zmodule_singletons by exact Hcm.
  split; apply mget_of_ints.
Qed.

Lemma exact_move st u mb :
  (u < nh)%nat -> (mb < nh)%nat -> mb <> F64.module_of st u ->
  F64.shape_okb nh st = true -> F64.exact_accumulators nh A0 A1 st ->
  F64.exact_accumulators nh A0 A1 (F64.move (F64.of_ints A0) (F64.of_ints A1) nh st u mb).
Proof.
  intros Hu Hmb Hdiff Hshape Hex.
  destruct (small_weights_spec _ _ small0) as (_ & E0 & T0).
  destruct (small_weights_spec _ _ small1) as (_ & E1 & T1).
  destruct (b64_shape_ok_spec _ _ Hshape) as (Lm & _).
  destruct (b64_module_of_range _ _ _ Hshape Hu) as [Hma Hlabel].
  assert (Lm' : length (upd (F64.lm_m st) u (mb + 1)%nat) = nh)
    by (rewrite length_upd; exact Lm).
  intros cm Hcm.
  destruct (Hex cm Hcm) as (C0 & C1 & Cknm).
  destruct (b64_move_km (F64.of_ints A0) (F64.of_ints A1) nh st u mb cm
              Hshape Hmb Hma Hdiff) as [-> ->].
  change (F64.lm_m (F64.move (F64.of_ints A0) (F64.of_ints A1) nh st u mb))
    with (upd (F64.lm_m st) u (mb + 1)%nat).
  unfold F64.kn0, F64.kn1.
  rewrite C0, C1, (kn_of_ints nh A0 E0 T0 u Hu), (kn_of_ints nh A1 E1 T1 u Hu).
  split; [|split].
  - apply transfer_int; [exact Hdiff | | apply zmodule_upd; [lia | exact Hlabel]].
    pose proof (zmodule_bounds nh A0 E0 _ cm (F64.zcolumn A0) Lm'
                  (fun w => conj (zcolumn_nonneg A0 E0 w) (Z.le_refl _))). lia.
  - apply transfer_int; [exact Hdiff | | apply zmodule_upd; [lia | exact Hlabel]].
    pose proof (zmodule_bounds nh A1 E1 _ cm (F64.zcolumn A1) Lm'
                  (fun w => conj (zcolumn_nonneg A1 E1 w) (Z.le_refl _))). lia.
  - intros v Hv. destruct (Cknm v Hv) as [K0 K1].
    destruct (b64_move_knm (F64.of_ints A0) (F64.of_ints A1) nh st u mb v cm
                Hshape Hmb Hma Hdiff Hv) as [-> ->].
    rewrite K0, K1, !mget_of_ints.
    split.
    + apply transfer_int; [exact Hdiff | | apply zmodule_upd; [lia | exact Hlabel]].
      pose proof (zmodule_bounds nh A0 E0 _ cm (F64.zget A0 v) Lm'
                    (fun w => conj (zget_nonneg A0 E0 v w) (zget_le_column A0 E0 v w))). lia.
    + apply transfer_int; [exact Hdiff | | apply zmodule_upd; [lia | exact Hlabel]].
      pose proof (zmodule_bounds nh A1 E1 _ cm (F64.zget A1 v) Lm'
                    (fun w => conj (zget_nonneg A1 E1 v w) (zget_le_column A1 E1 v w))). lia.
Qed.

Lemma exact_reachable gamma c st :
  F64.reachable gamma c (F64.of_ints A0) (F64.of_ints A1) nh st ->
  F64.shape_okb nh st = true /\ F64.exact_accumulators nh A0 A1 st.
Proof.
  destruct (small_weights_spec _ _ small0) as (S0 & _).
  destruct (small_weights_spec _ _ small1) as (S1 & _).
  intro R. split; [apply (b64_reachable_shape gamma c _ _ nh st S0 S1 R)|].
  induction R as [|st u R IH Hu]; [apply exact_init|].
  pose proof (b64_reachable_shape gamma c _ _ nh st S0 S1 R) as Hshape.
  destruct (b64_node_step_cases gamma c (F64.of_ints A0) (F64.of_ints A1) nh st u Hu Hshape)
    as [-> | (mb & Hmb & Hdiff & ->)]; [exact IH|].
  apply exact_move; assumption.
Qed.

(** Exact accumulators agree with the module sums the floats give. *)
Lemma exact_consistent st :
  F64.shape_okb nh st = true -> F64.exact_accumulators nh A0 A1 st ->
  F64.consistent (F64.of_ints A0) (F64.of_ints A1) nh st.
Proof.
  intros Hshape Hex.
  destruct (small_weights_spec _ _ small0) as (_ & E0 & T0).
  destruct (small_weights_spec _ _ small1) as (_ & E1 & T1).
  destruct (b64_shape_ok_spec _ _ Hshape) as (Lm & _).
  intros cm Hcm. destruct (Hex cm Hcm) as (C0 & C1 & Cknm).
  assert (B0 : forall f, (forall w, (0 <= f w <= F64.zcolumn A0 w)%Z) ->
                         (F64.zmodule (F64.lm_m st) cm f < 2 ^ 53)%Z).
  { intros f Hf. pose proof (zmodule_bounds nh A0 E0 _ cm f Lm Hf). lia. }
  assert (B1 : forall f, (forall w, (0 <= f w <= F64.zcolumn A1 w)%Z) ->
                         (F64.zmodule (F64.lm_m st) cm f < 2 ^ 53)%Z).
  { intros f Hf. pose proof (zmodule_bounds nh A1 E1 _ cm f Lm Hf). lia. }
  split; [|split].
  - rewrite C0, (module_sum_ints _ cm _ (F64.zcolumn A0)); [apply feqb_refl_int | | |].
    + intros w Hw. apply (kn_of_ints nh A0 E0 T0). lia.
    + apply (zcolumn_nonneg A0 E0).
    + apply B0. intro w. split; [apply (zcolumn_nonneg A0 E0) | lia].
  - rewrite C1, (module_sum_ints _ cm _ (F64.zcolumn A1)); [apply feqb_refl_int | | |].
    + intros w Hw. apply (kn_of_ints nh A1 E1 T1). lia.
    + apply (zcolumn_nonneg A1 E1).
    + apply B1. intro w. split; [apply (zcolumn_nonneg A1 E1) | lia].
  - intros v Hv. destruct (Cknm v Hv) as [K0 K1]. split.
    + rewrite K0, (module_sum_ints _ cm _ (F64.zget A0 v)); [apply feqb_refl_int | | |].
      * intros w _. apply mget_of_ints.
      * apply (zget_nonneg A0 E0).
      * apply B0. intro w. split; [apply (zget_nonneg A0 E0) | apply (zget_le_column A0 E0)].
    + rewrite K1, (module_sum_ints _ cm _ (F64.zget A1 v)); [apply feqb_refl_int | | |].
      * intros w _. apply mget_of_ints.
      * apply (zget_nonneg A1 E1).
      * apply B1. intro w. split; [apply (zget_nonneg A1 E1) | apply (zget_le_column A1 E1)].
Qed.

End ExactAccumulators.

(** C10, amended: when the positive and the negative part are matrices of
    integers that are not negative and add up to less than [2^53] each (so
    that every sum the loop forms is exact in binary64), the accumulators
    agree with the module assignment in every state the local-moving loop
    can reach, the initial one and the one after each node visit: [km0[c]]
    and [km1[c]] equal the sums of [kn0] and [kn1] over the nodes assigned
    to [c], and [knm0[v,c]] and [knm1[v,c]] equal the sums of the weights
    from [v] to those nodes. *)
Theorem accumulators_consistent (gamma : F64.f64) (c : F64.config)
    (A0 A1 : list (list Z)) (nh : nat) (st : F64.lm_state) :
  F64.small_weights nh A0 = true -> F64.small_weights nh A1 = true ->
  F64.reachable gamma c (F64.of_ints A0) (F64.of_ints A1) nh st ->
  F64.consistent (F64.of_ints A0) (F64.of_ints A1) nh st.
Proof.
  intros H0 H1 R.
  destruct (exact_reachable nh A0 A1 H0 H1 gamma c st R) as [Hshape Hex].
  apply (exact_consistent nh A0 A1 H0 H1 st Hshape Hex).
Qed.

Lemma accumulators_consistent_witness :
  F64.small_weights 2 small_pair = true /\ F64.small_weights 2 no_weights = true /\
  F64.reachable (F64.Fin 1) small_pair_cfg (F64.of_ints small_pair)
    (F64.of_ints no_weights) 2 small_pair_moved /\
  F64.lm_m small_pair_moved = [1; 1]%nat /\
  F64.consistent (F64.of_ints small_pair) (F64.of_ints no_weights) 2 small_pair_moved.
Proof.
  assert (R : F64.reachable (F64.Fin 1) small_pair_cfg (F64.of_ints small_pair)
                (F64.of_ints no_weights) 2 small_pair_moved).
  { apply F64.reach_step; [apply F64.reach_init | lia]. }
  split; [reflexivity|]. split; [reflexivity|]. split; [exact R|].
  split; [vm_compute; reflexivity|].
  apply (accumulators_consistent (F64.Fin 1) small_pair_cfg small_pair no_weights 2
           small_pair_moved); [reflexivity | reflexivity | exact R].
Defined.

(** ** How a run can fail *)

Lemma b64_node_step_length gamma c W0 W1 nh st u :
  length (F64.lm_m (fst (F64.node_step gamma c W0 W1 nh st u))) = length (F64.lm_m st).
Proof.
  unfold F64.node_step, F64.try_move.
  destruct (F64.fgtb _ F64.tol); simpl; [apply length_upd | reflexivity].
Qed.

Lemma b64_sweep_length gamma c W0 W1 nh order :
  forall st flag,
    length (F64.lm_m (fst (fold_left
      (fun acc u => let r := F64.node_step gamma c W0 W1 nh (fst acc) u in
                    (fst r, orb (snd acc) (snd r))) order (st, flag))))
    = length (F64.lm_m st).
Proof.
  induction order as [|u t IH]; intros st flag; simpl; [reflexivity|].
  rewrite IH. apply b64_node_step_length.
Qed.

(** The pass loop returns a state with one label per node, or stops at
    the cap with the [NameError] of the unbound class. *)
Lemma b64_pass_loop_outcome G gamma c W0 W1 nh budget :
  forall st w,
    match snd (F64.pass_loop G gamma c W0 W1 nh budget st w) with
    | Ok st' => length (F64.lm_m st') = length (F64.lm_m st)
    | Raise e => e = NameError "BCTParamError"
    end.
Proof.
  induction budget as [|b IH]; intros st w; cbn [F64.pass_loop].
  - reflexivity.
  - unfold bind, np_random_permutation.
    pose proof (b64_sweep_length gamma c W0 W1 nh (G (np_rng w) nh) st false) as L.
    fold (F64.sweep gamma c W0 W1 nh (G (np_rng w) nh) st) in L.
    destruct (snd (F64.sweep gamma c W0 W1 nh (G (np_rng w) nh) st)).
    + match goal with
      | |- context [F64.pass_loop G gamma c W0 W1 nh b ?s ?w0] =>
          specialize (IH s w0);
          destruct (F64.pass_loop G gamma c W0 W1 nh b s w0) as [w1 [st1|e]]
      end; cbn [snd] in *; [rewrite IH; exact L | exact IH].
    + unfold ret. cbn [snd]. exact L.
Qed.

Lemma b64_level_failure G gamma c n st w :
  (1 <= F64.hr_nh st)%nat ->
  match snd (F64.level G gamma c n st w) with
  | Ok st' => (1 <= F64.hr_nh st')%nat
  | Raise e => e = NameError "BCTParamError"
  end.
Proof.
  intro Hnh. unfold F64.level, F64.local_moving, bind, log, lift, ret.
  match goal with
  | |- context [F64.pass_loop G gamma c ?a ?b ?k 1000 ?s ?w0] =>
      pose proof (b64_pass_loop_outcome G gamma c a b k 1000 s w0) as Hl;
      destruct (F64.pass_loop G gamma c a b k 1000 s w0) as [w1 [lm|e]]
  end; cbn [fst snd] in *.
  - cbn [F64.lm_m F64.lm_init] in Hl. rewrite length_seq in Hl.
    assert (Hne : F64.lm_m lm <> []) by (intro E; rewrite E in Hl; simpl in Hl; lia).
    destruct (np_max_nat_renumber _ Hne) as (k & -> & Hk). cbn [snd F64.hr_nh]. exact Hk.
  - exact Hl.
Qed.

Lemma b64_levels_failure G gamma c n budget :
  forall st w,
    (1 <= F64.hr_nh st)%nat ->
    match snd (F64.levels G gamma c n budget st w) with
    | Ok _ => True
    | Raise e => e = NameError "BCTParamError"
    end.
Proof.
  induction budget as [|b IH]; intros st w Hnh; cbn [F64.levels];
    destruct (F64.improving st); try exact I.
  - reflexivity.
  - unfold bind. pose proof (b64_level_failure G gamma c n st w Hnh) as L.
    destruct (F64.level G gamma c n st w) as [w1 [st1|e]]; cbn [snd] in *.
    + apply IH. exact L.
    + exact L.
Qed.

Lemma b64_constants_recognised (qtype : string) (s0 s1 : F64.f64) :
  recognised qtype = true -> exists c, F64.constants qtype s0 s1 = Ok c.
Proof.
  unfold recognised, F64.constants, F64.scaling; simpl. intro H.
  destruct (String.eqb qtype "smp"); [eexists; reflexivity|].
  destruct (String.eqb qtype "gja"); [eexists; reflexivity|].
  destruct (String.eqb qtype "sta"); [eexists; reflexivity|].
  destruct (String.eqb qtype "pos"); [eexists; reflexivity|].
  destruct (String.eqb qtype "neg"); [eexists; reflexivity|].
  discriminate H.
Qed.

(** X12: On a square float matrix with at least one node and with one of the
    five variant names: a seed numpy refuses raises [ValueError] at the
    first statement; with any other seed the run either returns or raises
    the [NameError] for [BCTParamError] at one of the two caps.  No other
    exception can come out; arithmetic never raises, it yields [inf] or
    [nan]. *)
Theorem only_the_caps_can_fail (G : shuffler) (W : F64.matrix) (gamma : F64.f64)
    (qtype : string) (seed : option Z) (w : world) :
  W <> [] -> F64.squareb (length W) W = true -> recognised qtype = true ->
  if valid_seed seed
  then is_ok (snd (F64.modularity_louvain_und_sign G W gamma qtype seed w)) = true \/
       snd (F64.modularity_louvain_und_sign G W gamma qtype seed w)
       = Raise (NameError "BCTParamError")
  else snd (F64.modularity_louvain_und_sign G W gamma qtype seed w)
       = Raise (ValueError F64.seed_range_message).
Proof.
  intros Hne _ Hrec. destruct (valid_seed seed) eqn:V.
  - rewrite (b64_run_unfold G W gamma qtype seed w V).
    destruct (b64_constants_recognised qtype
                (F64.np_sum2 (F64.mmap F64.positive_part W))
                (F64.np_sum2 (F64.mmap F64.negative_part W)) Hrec) as [c ->].
    unfold F64.optimise, bind.
    assert (Hn : (1 <= length W)%nat) by (destruct W; [congruence | simpl; lia]).
    match goal with
    | |- context [F64.levels G gamma ?c0 ?n 300 ?s ?w0] =>
        pose proof (b64_levels_failure G gamma c0 n 300 s w0 Hn) as L;
        destruct (F64.levels G gamma c0 n 300 s w0) as [w1 [st|e]]
    end; cbn [snd] in *.
    + left. reflexivity.
    + right. rewrite L. reflexivity.
  - rewrite (b64_run_refused G W gamma qtype seed w V). reflexivity.
Qed.

Lemma only_the_caps_can_fail_witness :
  positive_pair <> [] /\ F64.squareb (length positive_pair) positive_pair = true /\
  recognised "sta" = true /\
  (is_ok (snd (F64.modularity_louvain_und_sign sorted_order positive_pair (F64.Fin 1)
                 "sta" None world0)) = true \/
   snd (F64.modularity_louvain_und_sign sorted_order positive_pair (F64.Fin 1)
          "sta" None world0) = Raise (NameError "BCTParamError")) /\
  snd (F64.modularity_louvain_und_sign sorted_order positive_pair (F64.Fin 1)
         "sta" (Some (2 ^ 32)%Z) world0) = Raise (ValueError F64.seed_range_message).
Proof.
  assert (Hne : positive_pair <> []) by discriminate.
  assert (Hsq : F64.squareb (length positive_pair) positive_pair = true) by reflexivity.
  assert (Hrec : recognised "sta" = true) by reflexivity.
  split; [exact Hne|]. split; [exact Hsq|]. split; [exact Hrec|]. split.
  - exact (only_the_caps_can_fail sorted_order positive_pair (F64.Fin 1) "sta" None
             world0 Hne Hsq Hrec).
  - exact (only_the_caps_can_fail sorted_order positive_pair (F64.Fin 1) "sta"
             (Some (2 ^ 32)%Z) world0 Hne Hsq Hrec).
Defined.
